(** * PIT (Phono in Terminal): a shallow embedding of [pit.c]

    The C program loads a raster image, flips / rotates / crops it, resizes it
    with bilinear interpolation and prints every pixel as a space with an ANSI
    background colour.  This file embeds the functions of [pit.c] that the
    specification talks about and proves (or refutes) its testable properties.

    Conventions of the embedding:
    - [int] is a 32-bit two's complement integer, carried by [Z]; arithmetic
      that C performs in [int] goes through [wrap32] (the wrap-around that the
      supported targets exhibit on signed overflow is written out);
    - [unsigned char] samples are [Z] values in [0,255];
    - [float] is IEEE-754 binary32 with round-to-nearest-even: a value is a
      rational (or an infinity / NaN) and every operation rounds the exact
      result with [round32];
    - a pixel buffer is a [list Z]; a possibly-NULL pointer is an [option];
    - every call of [malloc] has an outcome of its own (an [allocator]): code
      that allocates more than once is given one allocator per call;
    - reading or writing outside an object has no defined result: [UB]. *)

From Stdlib Require Import ZArith List Lia QArith Qround Qabs Qpower Qreduction Lqa.
From Stdlib Require Import String Ascii Bool SpecFloat.
From stdpp Require Import base list.

Local Open Scope Z_scope.

(* ================================================================= *)
(** * Part I — the embedding *)
(* ================================================================= *)

(** ** Undefined behaviour *)

(** The result of a C computation: a value, or undefined behaviour (an access
    outside the bounds of an object). *)
Inductive ub (A : Type) : Type :=
| Def (a : A)
| UB.
Arguments Def {A} a.
Arguments UB {A}.

Definition ub_bind {A B : Type} (m : ub A) (k : A -> ub B) : ub B :=
  match m with
  | Def a => k a
  | UB => UB
  end.

Notation "'do' x <- m ; k" := (ub_bind m (fun x => k))
  (at level 10, x name, m at level 100, k at level 200).

(** ** 32-bit [int], [size_t] and [uint64_t] *)

Definition INT_MIN : Z := -2147483648.
Definition INT_MAX : Z := 2147483647.

Definition in_int (z : Z) : Prop := INT_MIN <= z <= INT_MAX.

(** Two's complement wrap-around of a mathematical integer into [int]. *)
Definition wrap32 (z : Z) : Z := (z + 2147483648) mod 4294967296 - 2147483648.

Definition iadd (a b : Z) : Z := wrap32 (a + b).
Definition isub (a b : Z) : Z := wrap32 (a - b).
Definition imul (a b : Z) : Z := wrap32 (a * b).

(** The two data models the program is built for: [size_t] has 32 or 64 bits. *)
Inductive data_model : Type := ILP32 | LP64.

Definition SIZE_MAX (dm : data_model) : Z :=
  match dm with
  | ILP32 => 4294967295
  | LP64 => 18446744073709551615
  end.

(** Conversion to [size_t] and [size_t] arithmetic (modulo [SIZE_MAX + 1]). *)
Definition to_size (dm : data_model) (z : Z) : Z := z mod (SIZE_MAX dm + 1).
Definition size_mul (dm : data_model) (a b : Z) : Z := to_size dm (a * b).
Definition size_add (dm : data_model) (a b : Z) : Z := to_size dm (a + b).

Definition UINT64_MAX : Z := 18446744073709551615.
Definition to_u64 (z : Z) : Z := z mod (UINT64_MAX + 1).
Definition u64_mul (a b : Z) : Z := to_u64 (a * b).

Definition is_uchar (v : Z) : Prop := 0 <= v <= 255.

(** ** Memory *)

(** One call of [malloc]: its outcome as a function of the requested size,
    NULL or a fresh block whose content is indeterminate.  A function that
    allocates once takes one allocator; code that allocates several times
    takes one allocator per call (a family indexed by the call), so that
    every call succeeds or fails on its own, whatever the sizes. *)
Definition allocator : Type := Z -> option (list Z).

Definition alloc_wf (malloc : allocator) : Prop :=
  forall n blk, malloc n = Some blk -> Z.of_nat (length blk) = n.

(** [p[i]] as an rvalue. *)
Definition load {A : Type} (p : list A) (i : Z) : ub A :=
  if i <? 0 then UB
  else match p !! Z.to_nat i with
       | Some v => Def v
       | None => UB
       end.

(** [p[i] = v]. *)
Definition store (p : list Z) (i : Z) (v : Z) : ub (list Z) :=
  if i <? 0 then UB
  else if Z.of_nat (length p) <=? i then UB
  else Def (<[Z.to_nat i := v]> p).

(** [for (int i = lo; i < hi; i++) body], threading the state [s]. *)
Fixpoint for_loop {S : Type} (n : nat) (i : Z) (body : Z -> S -> ub S) (s : S)
  : ub S :=
  match n with
  | O => Def s
  | Datatypes.S n' => do s' <- body i s; for_loop n' (i + 1) body s'
  end.

Definition for_range {S : Type} (lo hi : Z) (body : Z -> S -> ub S) (s : S)
  : ub S :=
  for_loop (Z.to_nat (hi - lo)) lo body s.

(** ** IEEE-754 binary32 *)

(** A [float]: a finite value (the rational it denotes), an infinity or NaN.
    The sign of zero is not tracked; no expression of [pit.c] embedded here
    can observe it (every divisor is positive). *)
Inductive float : Type :=
| FFin (q : Q)
| FInf (neg : bool)
| FNaN.

(** [2^e] as a rational, for any integer exponent. *)
Definition pow2 (e : Z) : Q := (2 ^ e)%Q.

(** [floor (log2 |q|)] for [q <> 0]. *)
Definition ilog2 (q : Q) : Z :=
  let e0 := Z.log2 (Z.abs (Qnum q)) - Z.log2 (Zpos (Qden q)) in
  if Qle_bool (pow2 e0) (Qabs q) then e0 else e0 - 1.

(** Round a rational to the nearest integer, ties to even. *)
Definition rne (x : Q) : Z :=
  let f := Qfloor x in
  match (x - inject_Z f ?= 1 # 2)%Q with
  | Lt => f
  | Gt => f + 1
  | Eq => if Z.even f then f else f + 1
  end.

(** The exponent of the last place of the binary32 format at [q]: 24
    significant bits, gradual underflow below [2^-126]. *)
Definition ulp_exp (q : Q) : Z := Z.max (ilog2 q - 23) (-149).

(** Rounding of an exact result to binary32: to nearest, ties to even;
    a rounded magnitude of [2^128] or more overflows to an infinity. *)
Definition round32 (q : Q) : float :=
  if Qeq_bool q 0 then FFin 0
  else
    let c := ulp_exp q in
    let r := (inject_Z (rne (q / pow2 c)) * pow2 c)%Q in
    if Qle_bool (pow2 128) (Qabs r)
    then FInf (negb (Qle_bool 0 q))
    else FFin (Qred r).

Definition fneg (a : float) : float :=
  match a with
  | FFin x => FFin (- x)
  | FInf s => FInf (negb s)
  | FNaN => FNaN
  end.

Definition fadd (a b : float) : float :=
  match a, b with
  | FNaN, _ | _, FNaN => FNaN
  | FInf s, FInf t => if Bool.eqb s t then FInf s else FNaN
  | FInf s, FFin _ => FInf s
  | FFin _, FInf t => FInf t
  | FFin x, FFin y => round32 (x + y)
  end.

Definition fsub (a b : float) : float := fadd a (fneg b).

Definition fmul (a b : float) : float :=
  match a, b with
  | FNaN, _ | _, FNaN => FNaN
  | FInf s, FInf t => FInf (xorb s t)
  | FInf s, FFin y =>
      if Qeq_bool y 0 then FNaN else FInf (xorb s (negb (Qle_bool 0 y)))
  | FFin x, FInf t =>
      if Qeq_bool x 0 then FNaN else FInf (xorb (negb (Qle_bool 0 x)) t)
  | FFin x, FFin y => round32 (x * y)
  end.

Definition fdiv (a b : float) : float :=
  match a, b with
  | FNaN, _ | _, FNaN => FNaN
  | FInf _, FInf _ => FNaN
  | FInf s, FFin y => FInf (xorb s (negb (Qle_bool 0 y)))
  | FFin _, FInf _ => FFin 0
  | FFin x, FFin y =>
      if Qeq_bool y 0
      then (if Qeq_bool x 0 then FNaN else FInf (negb (Qle_bool 0 x)))
      else round32 (x / y)
  end.

(** [a > b] on floats (false when either side is NaN). *)
Definition fgt (a b : float) : bool :=
  match a, b with
  | FNaN, _ | _, FNaN => false
  | FInf s, FInf t => negb s && t
  | FInf s, FFin _ => negb s
  | FFin _, FInf t => t
  | FFin x, FFin y => negb (Qle_bool x y)
  end.

(** [(float)n] for an integer [n]. *)
Definition i2f (n : Z) : float := round32 (inject_Z n).

(** Truncation toward zero. *)
Definition Qtrunc (q : Q) : Z := if Qle_bool 0 q then Qfloor q else Qceiling q.

(** [(int)f] is undefined in ISO C when the truncated value does not fit.
    The supported targets fall in two classes, and the embedding writes out
    both: x86 ([cvttss2si]) returns the "integer indefinite" value [INT_MIN];
    ARM and RISC-V saturate (and turn NaN into 0). *)
Inductive cvt_style : Type := Indefinite | Saturating.

Definition f2i_out_of_range (cs : cvt_style) (f : float) : Z :=
  match cs with
  | Indefinite => INT_MIN
  | Saturating =>
      match f with
      | FNaN => 0
      | FInf true => INT_MIN
      | FInf false => INT_MAX
      | FFin q => if Qle_bool 0 q then INT_MAX else INT_MIN
      end
  end.

Definition f2i (cs : cvt_style) (f : float) : Z :=
  match f with
  | FFin q =>
      let t := Qtrunc q in
      if (INT_MIN <=? t) && (t <=? INT_MAX) then t else f2i_out_of_range cs f
  | _ => f2i_out_of_range cs f
  end.

(** [(unsigned char)f]: the conversion the compilers emit goes through a
    32-bit integer and keeps its low byte. *)
Definition f2uchar (cs : cvt_style) (f : float) : Z :=
  match cs with
  | Indefinite => f2i cs f mod 256
  | Saturating =>
      match f with
      | FFin q => Z.max 0 (Z.min (Qtrunc q) 4294967295) mod 256
      | FInf false => 255
      | _ => 0
      end
  end.

Definition f_one : float := FFin 1.
Definition f_half : float := FFin (1 # 2).
Definition f_255 : float := FFin 255.

Definition TERMINAL_CHAR_HEIGHT_TO_WIDTH_RATIO : float := FFin (3 # 2).

(** *** The same operations in the Standard Library's [SpecFloat] *)

(** The value of a Standard Library [spec_float], when finite. *)
Definition sf_value (f : spec_float) : option Q :=
  match f with
  | S754_zero _ => Some 0%Q
  | S754_finite s m e =>
      Some ((if s then -1 else 1) * inject_Z (Zpos m) * pow2 e)%Q
  | _ => None
  end.

Definition float_value (f : float) : option Q :=
  match f with
  | FFin q => Some q
  | _ => None
  end.

Definition same_value (a b : option Q) : bool :=
  match a, b with
  | Some x, Some y => Qeq_bool x y
  | None, None => true
  | _, _ => false
  end.

(** [(float)n] in the Standard Library's binary32. *)
Definition sf_of_int (n : Z) : spec_float := binary_normalize 24 128 n 0 false.

(** The four operations on the quotients [n1/d1] and [n2/d2], computed with
    [round32] and with the Standard Library's [SpecFloat]: do they agree? *)
Definition agrees_with_SpecFloat (t : Z * Z * Z * Z) : bool :=
  let '(n1, d1, n2, d2) := t in
  let a := SFdiv 24 128 (sf_of_int n1) (sf_of_int d1) in
  let b := SFdiv 24 128 (sf_of_int n2) (sf_of_int d2) in
  let a' := fdiv (i2f n1) (i2f d1) in
  let b' := fdiv (i2f n2) (i2f d2) in
  same_value (sf_value a) (float_value a')
  && same_value (sf_value b) (float_value b')
  && same_value (sf_value (SFadd 24 128 a b)) (float_value (fadd a' b'))
  && same_value (sf_value (SFsub 24 128 a b)) (float_value (fsub a' b'))
  && same_value (sf_value (SFmul 24 128 a b)) (float_value (fmul a' b'))
  && same_value (sf_value (SFdiv 24 128 a b)) (float_value (fdiv a' b')).


(** ** Text *)

Definition ESC : string := String "027"%char EmptyString.
Definition NL : string := String "010"%char EmptyString.

Notation "a +++ b" := (String.append a b%string)
  (at level 60, right associativity).

Definition digit_char (d : Z) : ascii := ascii_of_nat (48 + Z.to_nat d).

Fixpoint fmt_digits (fuel : nat) (n : Z) (acc : string) : string :=
  match fuel with
  | O => acc
  | Datatypes.S fuel' =>
      let acc' := String (digit_char (n mod 10)) acc in
      if n <? 10 then acc' else fmt_digits fuel' (n / 10) acc'
  end.

(** The [%d] conversion of [sprintf] for an [int]. *)
Definition fmt_d (n : Z) : string :=
  if n <? 0 then "-" +++ fmt_digits 11 (- n) "" else fmt_digits 11 n "".

Definition strlen (s : string) : Z := Z.of_nat (String.length s).

(** ** Global state *)

Inductive ColorMode : Type :=
| COLOR_MODE_UNKNOWN
| COLOR_MODE_16
| COLOR_MODE_256
| COLOR_MODE_TRUE_COLOR.

(** The globals the renderer uses: the detected colour mode and the two
    arrays of cached escape strings (a NULL entry is [None]). *)
Record globals : Type := {
  s_detected_color_mode : ColorMode;
  s_ansi_cache_16 : list (option string);
  s_ansi_cache_256 : list (option string)
}.

(** The state at program start: static initialisers. *)
Definition initial_globals : globals :=
  {| s_detected_color_mode := COLOR_MODE_UNKNOWN;
     s_ansi_cache_16 := replicate 16 None;
     s_ansi_cache_256 := replicate 256 None |}.

(** ** ColorQuantizer *)

(** The [min] macro. *)
Definition min (a b : Z) : Z := if a <? b then a else b.

Definition rgb_to_256 (r g b : Z) : Z :=
  if (r =? g) && (g =? b) then
    if r <? 3 then 16
    else if 252 <? r then 231
    else 232 + (r - 3) ÷ 10
  else
    let ri := min 5 ((r * 6) ÷ 256) in
    let gi := min 5 ((g * 6) ÷ 256) in
    let bi := min 5 ((b * 6) ÷ 256) in
    16 + ri * 36 + gi * 6 + bi.

Definition rgb_to_16 (r g b : Z) : Z :=
  let intensity := if (128 <? r) || (128 <? g) || (128 <? b) then 8 else 0 in
  let r_bit := if 128 <? r then 4 else 0 in
  let g_bit := if 128 <? g then 2 else 0 in
  let b_bit := if 128 <? b then 1 else 0 in
  intensity + r_bit + g_bit + b_bit.

(** ** EscapeCodeCache *)

(** One cache entry: [malloc(16)] then [sprintf]; a failed allocation leaves
    the entry NULL.  [malloc] is the call made for this entry. *)
Definition cache_entry (malloc : allocator) (text : string) : option string :=
  match malloc 16 with
  | Some _ => Some text
  | None => None
  end.

(** [init_ansi_cache] calls [malloc] 272 times; [malloc k] is its [k]-th
    call: calls 0..15 are made for the entries of the 16-colour cache, calls
    16..271 for those of the 256-colour cache.  Each entry is allocated or
    left NULL on its own. *)
Definition init_ansi_cache (malloc : nat -> allocator) (g : globals) : globals :=
  {| s_detected_color_mode := s_detected_color_mode g;
     s_ansi_cache_16 :=
       map (fun i : Z =>
              cache_entry (malloc (Z.to_nat i))
                (if i <? 8 then ESC +++ "[4" +++ fmt_d i +++ "m"
                 else ESC +++ "[10" +++ fmt_d (i - 8) +++ "m"))
           (map Z.of_nat (seq 0 16));
     s_ansi_cache_256 :=
       map (fun i : Z =>
              cache_entry (malloc (16 + Z.to_nat i)%nat)
                (ESC +++ "[48;5;" +++ fmt_d i +++ "m"))
           (map Z.of_nat (seq 0 256)) |}.

(** What one call writes at [buf]: the characters, and whether a terminating
    NUL follows them ([sprintf]) or not ([memcpy] and single stores). *)
Record emitted : Type := { em_text : string; em_nul : bool }.

Definition format_ansi_color_code (g : globals) (r gr b : Z) (mode : ColorMode)
  : ub emitted :=
  match mode with
  | COLOR_MODE_TRUE_COLOR =>
      Def {| em_text := ESC +++ "[48;2;" +++ fmt_d r +++ ";" +++ fmt_d gr +++ ";"
                            +++ fmt_d b +++ "m ";
             em_nul := true |}
  | COLOR_MODE_256 =>
      let color_code := rgb_to_256 r gr b in
      do cached <- load (s_ansi_cache_256 g) color_code;
      match cached with
      | Some text => Def {| em_text := text +++ " "; em_nul := false |}
      | None =>
          Def {| em_text := ESC +++ "[48;5;" +++ fmt_d color_code +++ "m ";
                 em_nul := true |}
      end
  | COLOR_MODE_16 =>
      let color_code := rgb_to_16 r gr b in
      do cached <- load (s_ansi_cache_16 g) color_code;
      match cached with
      | Some text => Def {| em_text := text +++ " "; em_nul := false |}
      | None =>
          Def {| em_text := ESC +++ "[4" +++ fmt_d color_code +++ "m ";
                 em_nul := true |}
      end
  | COLOR_MODE_UNKNOWN =>
      Def {| em_text := " "%string; em_nul := false |}
  end.

(** ** FrameRenderer *)

(** The line buffer: [cap] bytes, of which the first [strlen text] hold
    [text]; [strlen text] is the value of [int buf_pos].  One step
    [buf_pos += <characters written at buffer + buf_pos>] must stay inside
    the buffer, and the new position must fit [int]: past [INT_MAX] the
    addition overflows, and with a wrapped, negative [buf_pos] the next
    access -- a write at [buffer + buf_pos], or the [fwrite] of [buf_pos]
    bytes -- is outside the buffer. *)
Definition buf_append (cap : Z) (text : string) (e : emitted) : ub string :=
  if (strlen text + strlen (em_text e) + (if em_nul e then 1 else 0) <=? cap)
     && (strlen text + strlen (em_text e) <=? INT_MAX)
  then Def (text +++ em_text e)
  else UB.

(** The colour of the pixel whose first sample is at [idx]. *)
Definition pixel_rgb (cs : cvt_style) (img_data : list Z) (idx channels : Z)
  (bg_r bg_g bg_b : Z) : ub (Z * Z * Z) :=
  if channels =? 4 then
    do a <- load img_data (iadd idx 3);
    let alpha_norm := fdiv (i2f a) f_255 in
    let blend (fg bg : Z) : Z :=
      f2uchar cs (fadd (fmul (i2f fg) alpha_norm)
                       (fmul (i2f bg) (fsub f_one alpha_norm))) in
    do p0 <- load img_data idx;
    do p1 <- load img_data (iadd idx 1);
    do p2 <- load img_data (iadd idx 2);
    Def (blend p0 bg_r, blend p1 bg_g, blend p2 bg_b)
  else
    do r <- load img_data idx;
    do g <- load img_data (iadd idx 1);
    do b <- load img_data (iadd idx 2);
    Def (r, g, b).

Definition max_pixel_size (mode : ColorMode) : Z :=
  match mode with
  | COLOR_MODE_TRUE_COLOR => 21
  | COLOR_MODE_256 => 13
  | COLOR_MODE_16 => 9
  | COLOR_MODE_UNKNOWN => 2
  end.

(** [render_image]: the new globals and the blocks handed to [fwrite], in
    order.  [detected] is the mode [detect_color_support] finds in the
    environment. *)
Definition render_image (dm : data_model) (cs : cvt_style) (malloc : allocator)
  (detected : ColorMode) (g : globals) (img_data : list Z)
  (width height channels : Z) (bg_r bg_g bg_b : Z)
  : ub (globals * list string) :=
  let mps := max_pixel_size (s_detected_color_mode g) in
  let buffer_size_per_line := size_add dm (size_mul dm (to_size dm width) mps) 32 in
  if buffer_size_per_line / mps <? to_size dm width then Def (g, [])
  else
    match malloc buffer_size_per_line with
    | None => Def (g, [])
    | Some _ =>
        let g' :=
          match s_detected_color_mode g with
          | COLOR_MODE_UNKNOWN =>
              {| s_detected_color_mode := detected;
                 s_ansi_cache_16 := s_ansi_cache_16 g;
                 s_ansi_cache_256 := s_ansi_cache_256 g |}
          | _ => g
          end in
        do out <-
          for_range 0 height (fun y out =>
            do line <-
              for_range 0 width (fun x line =>
                let idx := imul (iadd (imul y width) x) channels in
                do rgb <- pixel_rgb cs img_data idx channels bg_r bg_g bg_b;
                let '(r, gr, b) := rgb in
                do e <- format_ansi_color_code g' r gr b (s_detected_color_mode g');
                buf_append buffer_size_per_line line e) ""%string;
            do line' <- buf_append buffer_size_per_line line
                          {| em_text := ESC +++ "[0m" +++ NL; em_nul := true |};
            Def (out ++ [line'])) [];
        Def (g', out)
    end.


(** ** GeometryTransforms *)

(** The byte offset [(row * w + col) * c + channel], computed in [int]. *)
Definition sample_index (w c row col channel : Z) : Z :=
  iadd (imul (iadd (imul row w) col) c) channel.

Definition flip_image_horizontal (dm : data_model) (malloc : allocator)
  (img_data : option (list Z)) (w h c : Z) : ub (option (list Z)) :=
  match img_data with
  | None => Def None
  | Some img =>
      let data_size := size_mul dm (size_mul dm (to_size dm w) h) c in
      match malloc data_size with
      | None => Def None
      | Some flipped_data =>
          do out <-
            for_range 0 h (fun y =>
              for_range 0 w (fun x =>
                for_range 0 c (fun channel out =>
                  do v <- load img (sample_index w c y (isub (isub w 1) x) channel);
                  store out (sample_index w c y x channel) v))) flipped_data;
          Def (Some out)
      end
  end.

Definition flip_image_vertical (dm : data_model) (malloc : allocator)
  (img_data : option (list Z)) (w h c : Z) : ub (option (list Z)) :=
  match img_data with
  | None => Def None
  | Some img =>
      let data_size := size_mul dm (size_mul dm (to_size dm w) h) c in
      match malloc data_size with
      | None => Def None
      | Some flipped_data =>
          do out <-
            for_range 0 h (fun y =>
              for_range 0 w (fun x =>
                for_range 0 c (fun channel out =>
                  do v <- load img (sample_index w c (isub (isub h 1) y) x channel);
                  store out (sample_index w c y x channel) v))) flipped_data;
          Def (Some out)
      end
  end.

(** [rotate_image_90_cw]: the returned pointer and the values left in [*w]
    and [*h]. *)
Definition rotate_image_90_cw (dm : data_model) (malloc : allocator)
  (img_data : option (list Z)) (w h c : Z) : ub (option (list Z) * Z * Z) :=
  match img_data with
  | None => Def (None, w, h)
  | Some img =>
      let original_w := w in
      let original_h := h in
      let new_w := original_h in
      let new_h := original_w in
      let data_size := size_mul dm (size_mul dm (to_size dm new_w) new_h) c in
      match malloc data_size with
      | None => Def (None, w, h)
      | Some rotated_data =>
          do out <-
            for_range 0 new_h (fun y =>
              for_range 0 new_w (fun x =>
                let ox := y in
                let oy := isub (isub original_w 1) x in
                for_range 0 c (fun channel out =>
                  do v <- load img (sample_index original_w c oy ox channel);
                  store out (sample_index new_w c y x channel) v))) rotated_data;
          Def (Some out, new_w, new_h)
      end
  end.

Definition rotate_image_180 (dm : data_model) (malloc : allocator)
  (img_data : option (list Z)) (w h c : Z) : ub (option (list Z)) :=
  match img_data with
  | None => Def None
  | Some img =>
      let data_size := size_mul dm (size_mul dm (to_size dm w) h) c in
      match malloc data_size with
      | None => Def None
      | Some rotated_data =>
          do out <-
            for_range 0 h (fun y =>
              for_range 0 w (fun x =>
                for_range 0 c (fun channel out =>
                  do v <- load img (sample_index w c (isub (isub h 1) y)
                                                 (isub (isub w 1) x) channel);
                  store out (sample_index w c y x channel) v))) rotated_data;
          Def (Some out)
      end
  end.

(** [n] successive calls of [rotate_image_90_cw], each on the buffer and the
    dimensions the previous one left (the loop of [main]); a NULL result
    stops the chain.  [malloc k] is the allocation of iteration [k]. *)
Fixpoint rotate_times (dm : data_model) (malloc : nat -> allocator) (n : nat)
  (img : list Z) (w h c : Z) : ub (option (list Z) * Z * Z) :=
  match n with
  | O => Def (Some img, w, h)
  | Datatypes.S n' =>
      do r <- rotate_image_90_cw dm (malloc O) (Some img) w h c;
      match r with
      | (Some img', w', h') =>
          rotate_times dm (fun k => malloc (Datatypes.S k)) n' img' w' h' c
      | (None, w', h') => Def (None, w', h')
      end
  end.

(** ** Resampler *)

(** The three ways [resize_image_bilinear] returns NULL, told apart by the
    message each logs. *)
Inductive resize_error : Type :=
| InvalidInput      (* "Invalid input for resize_image_bilinear." *)
| SizeOverflow      (* "Image too large: ..." *)
| AllocationError.  (* "Failed to allocate memory for resized image ..." *)

(** The clamp [v < 0 ? 0 : (v >= n ? n - 1 : v)]. *)
Definition clamp_coord (v n : Z) : Z :=
  if v <? 0 then 0 else if n <=? v then isub n 1 else v.

(** One destination sample: channel [c] of pixel [(x, y)]. *)
Definition resize_sample (cs : cvt_style) (img_data : list Z)
  (orig_w orig_channels : Z) (x1 y1 x2 y2 : Z) (dx dy : float) (c : Z) : ub Z :=
  let idx11 := sample_index orig_w orig_channels y1 x1 c in
  let idx21 := sample_index orig_w orig_channels y1 x2 c in
  let idx12 := sample_index orig_w orig_channels y2 x1 c in
  let idx22 := sample_index orig_w orig_channels y2 x2 c in
  do p11 <- load img_data idx11;
  do p21 <- load img_data idx21;
  do p12 <- load img_data idx12;
  do p22 <- load img_data idx22;
  let val_x1 := fadd (fmul (i2f p11) (fsub f_one dx)) (fmul (i2f p21) dx) in
  let val_x2 := fadd (fmul (i2f p12) (fsub f_one dx)) (fmul (i2f p22) dx) in
  let final_val := fadd (fmul val_x1 (fsub f_one dy)) (fmul val_x2 dy) in
  Def (f2uchar cs (fadd final_val f_half)).

(** The result of [resize_image_bilinear]: the sizes passed to [malloc], in
    order, and either the kind of failure (NULL) or the new buffer. *)
Definition resize_image_bilinear (dm : data_model) (cs : cvt_style)
  (malloc : allocator) (img_data : option (list Z))
  (orig_w orig_h orig_channels : Z) (src_x src_y src_w src_h : Z)
  (new_w new_h : Z) : ub (list Z * (resize_error + list Z)) :=
  match img_data with
  | None => Def ([], inl InvalidInput)
  | Some img =>
      if (new_w <=? 0) || (new_h <=? 0) || (src_w <=? 0) || (src_h <=? 0)
      then Def ([], inl InvalidInput)
      else
        let data_size_64 := u64_mul (u64_mul (to_u64 new_w) new_h) orig_channels in
        if SIZE_MAX dm <? data_size_64 then Def ([], inl SizeOverflow)
        else
          let data_size := to_size dm data_size_64 in
          match malloc data_size with
          | None => Def ([data_size], inl AllocationError)
          | Some resized =>
              let x_scale := fdiv (i2f src_w) (i2f new_w) in
              let y_scale := fdiv (i2f src_h) (i2f new_h) in
              do out <-
                for_range 0 new_h (fun y =>
                  for_range 0 new_w (fun x out =>
                    let ox := fadd (i2f src_x) (fmul (i2f x) x_scale) in
                    let oy := fadd (i2f src_y) (fmul (i2f y) y_scale) in
                    let x1 := f2i cs ox in
                    let y1 := f2i cs oy in
                    let x2 := iadd x1 1 in
                    let y2 := iadd y1 1 in
                    let dx := fsub ox (i2f x1) in
                    let dy := fsub oy (i2f y1) in
                    let x1 := clamp_coord x1 orig_w in
                    let y1 := clamp_coord y1 orig_h in
                    let x2 := clamp_coord x2 orig_w in
                    let y2 := clamp_coord y2 orig_h in
                    for_range 0 orig_channels (fun c out =>
                      do v <- resize_sample cs img orig_w orig_channels
                                x1 y1 x2 y2 dx dy c;
                      store out (sample_index new_w orig_channels y x c) v) out))
                  resized;
              Def ([data_size], inr out)
          end
  end.

(** The source coordinate [src_x + x * x_scale] of destination column [x]
    (or row), with [x_scale = (float)src_w / new_w]. *)
Definition src_coord (s0 sw nw x : Z) : float :=
  fadd (i2f s0) (fmul (i2f x) (fdiv (i2f sw) (i2f nw))).

(** The value [resize_image_bilinear] stores for channel [c] of destination
    pixel [(x, y)]: the body of its two outer loops. *)
Definition resize_value (cs : cvt_style) (img : list Z) (orig_w orig_h orig_channels : Z)
  (src_x src_y src_w src_h new_w new_h : Z) (y x c : Z) : ub Z :=
  let ox := src_coord src_x src_w new_w x in
  let oy := src_coord src_y src_h new_h y in
  let x1 := f2i cs ox in
  let y1 := f2i cs oy in
  resize_sample cs img orig_w orig_channels
    (clamp_coord x1 orig_w) (clamp_coord y1 orig_h)
    (clamp_coord (iadd x1 1) orig_w) (clamp_coord (iadd y1 1) orig_h)
    (fsub ox (i2f x1)) (fsub oy (i2f y1)) c.

(** ** DisplaySizer *)

(** [calculate_display_dimensions]; [terminal_width] and [terminal_height]
    are what [get_terminal_size] reports. *)
Definition calculate_display_dimensions (cs : cvt_style)
  (terminal_width terminal_height : Z)
  (img_orig_width img_orig_height : Z) (zoom_factor : float) : Z * Z :=
  let usable_terminal_height := isub terminal_height 2 in
  let usable_terminal_height :=
    if usable_terminal_height <=? 0 then 1 else usable_terminal_height in
  if (img_orig_width <=? 0) || (img_orig_height <=? 0)
  then (terminal_width, usable_terminal_height)
  else
    let ratio := TERMINAL_CHAR_HEIGHT_TO_WIDTH_RATIO in
    let image_pixel_aspect_ratio :=
      fdiv (i2f img_orig_width) (i2f img_orig_height) in
    let effective_terminal_pixel_aspect_ratio :=
      fdiv (i2f terminal_width) (fmul (i2f usable_terminal_height) ratio) in
    let '(calculated_width_cols, calculated_height_rows) :=
      if fgt image_pixel_aspect_ratio effective_terminal_pixel_aspect_ratio
      then
        let cw := f2i cs (fmul (i2f terminal_width) zoom_factor) in
        let ch := f2i cs (fdiv (fdiv (i2f cw) image_pixel_aspect_ratio) ratio) in
        (cw, ch)
      else
        let ch := f2i cs (fmul (i2f usable_terminal_height) zoom_factor) in
        let cw := f2i cs (fmul (fmul (i2f ch) ratio) image_pixel_aspect_ratio) in
        (cw, ch) in
    let calculated_width_cols :=
      if calculated_width_cols <=? 0 then 1 else calculated_width_cols in
    let calculated_height_rows :=
      if calculated_height_rows <=? 0 then 1 else calculated_height_rows in
    let '(calculated_width_cols, calculated_height_rows) :=
      if terminal_width <? calculated_width_cols then
        let cw := terminal_width in
        let ch := f2i cs (fdiv (fdiv (i2f cw) image_pixel_aspect_ratio) ratio) in
        (cw, if ch <=? 0 then 1 else ch)
      else (calculated_width_cols, calculated_height_rows) in
    let '(calculated_width_cols, calculated_height_rows) :=
      if usable_terminal_height <? calculated_height_rows then
        let ch := usable_terminal_height in
        let cw := f2i cs (fmul (fmul (i2f ch) ratio) image_pixel_aspect_ratio) in
        (if cw <=? 0 then 1 else cw, ch)
      else (calculated_width_cols, calculated_height_rows) in
    let calculated_width_cols :=
      if calculated_width_cols <=? 0 then 1 else calculated_width_cols in
    let calculated_height_rows :=
      if calculated_height_rows <=? 0 then 1 else calculated_height_rows in
    (calculated_width_cols, calculated_height_rows).

(** Names for the sub-expressions of [calculate_display_dimensions]. *)

(** The rows left once two are reserved for the prompt. *)
Definition usable_rows (terminal_height : Z) : Z :=
  let u := isub terminal_height 2 in if u <=? 0 then 1 else u.

Definition image_aspect (img_w img_h : Z) : float := fdiv (i2f img_w) (i2f img_h).

Definition terminal_aspect (terminal_width usable : Z) : float :=
  fdiv (i2f terminal_width) (fmul (i2f usable) TERMINAL_CHAR_HEIGHT_TO_WIDTH_RATIO).

(** [(int)((w / aspect) / ratio)] and [(int)((h * ratio) * aspect)]. *)
Definition rows_for_width (cs : cvt_style) (aspect : float) (w : Z) : Z :=
  f2i cs (fdiv (fdiv (i2f w) aspect) TERMINAL_CHAR_HEIGHT_TO_WIDTH_RATIO).

Definition cols_for_height (cs : cvt_style) (aspect : float) (h : Z) : Z :=
  f2i cs (fmul (fmul (i2f h) TERMINAL_CHAR_HEIGHT_TO_WIDTH_RATIO) aspect).

(** [if (v <= 0) v = 1]. *)
Definition at_least_1 (v : Z) : Z := if v <=? 0 then 1 else v.

(** A float that is zero, negative or minus infinity. *)
Definition fnonpos (f : float) : Prop :=
  match f with
  | FFin q => (q <= 0)%Q
  | FInf s => s = true
  | FNaN => False
  end.

(** ** Pipeline: the source rectangle *)

(** The crop window [main] derives from the pan offsets and the zoom factor:
    [(src_x, src_y, src_w, src_h)]. *)
Definition source_rectangle (cs : cvt_style) (current_img_w current_img_h : Z)
  (offset_x offset_y : Z) (cli_zoom_factor : float) : Z * Z * Z * Z :=
  let src_x := offset_x in
  let src_y := offset_y in
  let src_w := f2i cs (fdiv (i2f current_img_w) cli_zoom_factor) in
  let src_h := f2i cs (fdiv (i2f current_img_h) cli_zoom_factor) in
  let src_w := if src_w <=? 0 then 1 else src_w in
  let src_h := if src_h <=? 0 then 1 else src_h in
  let src_w := if current_img_w <? src_w then current_img_w else src_w in
  let src_h := if current_img_h <? src_h then current_img_h else src_h in
  let src_x := if src_x <? 0 then 0 else src_x in
  let src_y := if src_y <? 0 then 0 else src_y in
  let src_x :=
    if current_img_w <? iadd src_x src_w then isub current_img_w src_w else src_x in
  let src_y :=
    if current_img_h <? iadd src_y src_h then isub current_img_h src_h else src_y in
  let src_x := if src_x <? 0 then 0 else src_x in
  let src_y := if src_y <? 0 then 0 else src_y in
  (src_x, src_y, src_w, src_h).

(** The clamping [main] applies along one axis, given the image size [n],
    the pan offset and the length [len] the zoom division produced:
    [(src_x, src_w)], or [(src_y, src_h)]. *)
Definition crop_axis (n offset len : Z) : Z * Z :=
  let len := if len <=? 0 then 1 else len in
  let len := if n <? len then n else len in
  let pos := if offset <? 0 then 0 else offset in
  let pos := if n <? iadd pos len then isub n len else pos in
  let pos := if pos <? 0 then 0 else pos in
  (pos, len).

(** ** Float comparison *)

(** [a <= b] on floats (false when either side is NaN). *)
Definition fle (a b : float) : bool :=
  match a, b with
  | FNaN, _ | _, FNaN => false
  | FInf s, FInf t => s || negb t
  | FInf s, FFin _ => s
  | FFin _, FInf t => negb t
  | FFin x, FFin y => Qle_bool x y
  end.

(** ** ColorDetector *)

(** The environment variables [detect_color_support] reads; an unset variable
    ([getenv] returns NULL) is [None]. *)
Record environment : Type := {
  COLORTERM : option string;
  TERM : option string;
  KONSOLE_PROFILE_NAME : option string;
  KONSOLE_VERSION : option string;
  TERM_PROGRAM : option string
}.

(** [strstr(haystack, needle) != NULL]. *)
Fixpoint strstr (haystack needle : string) : bool :=
  String.prefix needle haystack ||
  match haystack with
  | EmptyString => false
  | String _ rest => strstr rest needle
  end.

Definition terms_256 : list string :=
  [ "xterm-256color"; "screen-256color"; "tmux-256color";
    "rxvt-unicode-256color"; "linux-16color"; "eterm-256color" ]%string.

(** [detect_color_support] (the branch compiled outside Windows): the value
    it stores in [s_detected_color_mode]. *)
Definition detect_color_support (env : environment) : ColorMode :=
  if match COLORTERM env with
     | Some colorterm => strstr colorterm "truecolor" || strstr colorterm "24bit"
     | None => false
     end
  then COLOR_MODE_TRUE_COLOR
  else if match KONSOLE_PROFILE_NAME env, KONSOLE_VERSION env with
          | None, None => false
          | _, _ => true
          end
  then COLOR_MODE_TRUE_COLOR
  else if match TERM_PROGRAM env with
          | Some program => strstr program "iTerm"
          | None => false
          end
  then COLOR_MODE_TRUE_COLOR
  else
    match TERM env with
    | Some term =>
        if existsb (strstr term) terms_256 then COLOR_MODE_256
        else if strstr term "xterm" || strstr term "screen" || strstr term "vt100"
                || strstr term "ansi" || strstr term "linux"
        then COLOR_MODE_16
        else COLOR_MODE_16
    | None => COLOR_MODE_16
    end.

(** ** TerminalProbe *)

(** The cached terminal size: the statics [s_term_width], [s_term_height]. *)
Record term_cache : Type := { s_term_width : Z; s_term_height : Z }.

Definition initial_term_cache : term_cache :=
  {| s_term_width := 0; s_term_height := 0 |}.

(** What the three probes of [get_terminal_size] find:
    - [ioctl_winsize]: [(ws_col, ws_row)] when the [TIOCGWINSZ] ioctl succeeds;
    - [env_size]: [(atoi(COLUMNS), atoi(LINES))] when both variables are set;
    - [tput_cols], [tput_lines]: [None] when [popen] fails, [Some None] when
      [fscanf] reads no integer, [Some (Some n)] when it reads [n]. *)
Record terminal_probe : Type := {
  ioctl_winsize : option (Z * Z);
  env_size : option (Z * Z);
  tput_cols : option (option Z);
  tput_lines : option (option Z)
}.

(** [get_terminal_size]: the new cache and the values left in [*width] and
    [*height]. *)
Definition get_terminal_size (probe : terminal_probe) (st : term_cache)
  : term_cache * Z * Z :=
  if (0 <? s_term_width st) && (0 <? s_term_height st)
  then (st, s_term_width st, s_term_height st)
  else
    let '(detected_width, detected_height) :=
      match ioctl_winsize probe with
      | Some (ws_col, ws_row) => (ws_col, ws_row)
      | None => (0, 0)
      end in
    let '(detected_width, detected_height) :=
      if (detected_width <=? 0) || (detected_height <=? 0) then
        match env_size probe with
        | Some (c, r) =>
            if (0 <? c) && (0 <? r) then (c, r)
            else (detected_width, detected_height)
        | None => (detected_width, detected_height)
        end
      else (detected_width, detected_height) in
    let '(detected_width, detected_height) :=
      if (detected_width <=? 0) || (detected_height <=? 0) then
        let detected_width :=
          match tput_cols probe with
          | Some (Some n) => n
          | Some None => 0
          | None => detected_width
          end in
        let detected_height :=
          match tput_lines probe with
          | Some (Some n) => n
          | Some None => 0
          | None => detected_height
          end in
        (detected_width, detected_height)
      else (detected_width, detected_height) in
    let detected_width := if detected_width <=? 0 then 80 else detected_width in
    let detected_height := if detected_height <=? 0 then 24 else detected_height in
    ({| s_term_width := detected_width; s_term_height := detected_height |},
     detected_width, detected_height).

(** ** Command line *)

(** The option variables of [main]. *)
Record options : Type := {
  filename : option string;
  opt_target_width : Z;
  opt_target_height : Z;
  cli_zoom_factor : float;
  offset_x : Z;
  offset_y : Z;
  flip_h : bool;
  flip_v : bool;
  rotate_degrees : Z;
  bg_r : Z;
  bg_g : Z;
  bg_b : Z
}.

(** Their initial values. *)
Definition default_options : options :=
  {| filename := None;
     opt_target_width := 0; opt_target_height := 0;
     cli_zoom_factor := f_one;
     offset_x := 0; offset_y := 0;
     flip_h := false; flip_v := false;
     rotate_degrees := 0;
     bg_r := 0; bg_g := 0; bg_b := 0 |}.

(** The two statements that follow [--rotate]: round toward zero to a
    multiple of 90, then reduce into [0, 360).  [%] truncates ([Z.rem]). *)
Definition normalize_rotation (rotate_degrees : Z) : Z :=
  let rotate_degrees :=
    if negb (Z.rem rotate_degrees 90 =? 0)
    then isub rotate_degrees (Z.rem rotate_degrees 90)
    else rotate_degrees in
  Z.rem (iadd (Z.rem rotate_degrees 360) 360) 360.

(** Assignments to the option variables. *)
Definition set_filename (name : string) (o : options) : options :=
  {|
     filename := Some name;
     opt_target_width := opt_target_width o;
     opt_target_height := opt_target_height o;
     cli_zoom_factor := cli_zoom_factor o;
     offset_x := offset_x o;
     offset_y := offset_y o;
     flip_h := flip_h o;
     flip_v := flip_v o;
     rotate_degrees := rotate_degrees o;
     bg_r := bg_r o;
     bg_g := bg_g o;
     bg_b := bg_b o |}.

Definition set_opt_target_width (v : Z) (o : options) : options :=
  {|
     filename := filename o;
     opt_target_width := v;
     opt_target_height := opt_target_height o;
     cli_zoom_factor := cli_zoom_factor o;
     offset_x := offset_x o;
     offset_y := offset_y o;
     flip_h := flip_h o;
     flip_v := flip_v o;
     rotate_degrees := rotate_degrees o;
     bg_r := bg_r o;
     bg_g := bg_g o;
     bg_b := bg_b o |}.

Definition set_opt_target_height (v : Z) (o : options) : options :=
  {|
     filename := filename o;
     opt_target_width := opt_target_width o;
     opt_target_height := v;
     cli_zoom_factor := cli_zoom_factor o;
     offset_x := offset_x o;
     offset_y := offset_y o;
     flip_h := flip_h o;
     flip_v := flip_v o;
     rotate_degrees := rotate_degrees o;
     bg_r := bg_r o;
     bg_g := bg_g o;
     bg_b := bg_b o |}.

Definition set_cli_zoom_factor (z : float) (o : options) : options :=
  {|
     filename := filename o;
     opt_target_width := opt_target_width o;
     opt_target_height := opt_target_height o;
     cli_zoom_factor := z;
     offset_x := offset_x o;
     offset_y := offset_y o;
     flip_h := flip_h o;
     flip_v := flip_v o;
     rotate_degrees := rotate_degrees o;
     bg_r := bg_r o;
     bg_g := bg_g o;
     bg_b := bg_b o |}.

Definition set_offset_x (v : Z) (o : options) : options :=
  {|
     filename := filename o;
     opt_target_width := opt_target_width o;
     opt_target_height := opt_target_height o;
     cli_zoom_factor := cli_zoom_factor o;
     offset_x := v;
     offset_y := offset_y o;
     flip_h := flip_h o;
     flip_v := flip_v o;
     rotate_degrees := rotate_degrees o;
     bg_r := bg_r o;
     bg_g := bg_g o;
     bg_b := bg_b o |}.

Definition set_offset_y (v : Z) (o : options) : options :=
  {|
     filename := filename o;
     opt_target_width := opt_target_width o;
     opt_target_height := opt_target_height o;
     cli_zoom_factor := cli_zoom_factor o;
     offset_x := offset_x o;
     offset_y := v;
     flip_h := flip_h o;
     flip_v := flip_v o;
     rotate_degrees := rotate_degrees o;
     bg_r := bg_r o;
     bg_g := bg_g o;
     bg_b := bg_b o |}.

Definition set_flip_h (o : options) : options :=
  {|
     filename := filename o;
     opt_target_width := opt_target_width o;
     opt_target_height := opt_target_height o;
     cli_zoom_factor := cli_zoom_factor o;
     offset_x := offset_x o;
     offset_y := offset_y o;
     flip_h := true;
     flip_v := flip_v o;
     rotate_degrees := rotate_degrees o;
     bg_r := bg_r o;
     bg_g := bg_g o;
     bg_b := bg_b o |}.

Definition set_flip_v (o : options) : options :=
  {|
     filename := filename o;
     opt_target_width := opt_target_width o;
     opt_target_height := opt_target_height o;
     cli_zoom_factor := cli_zoom_factor o;
     offset_x := offset_x o;
     offset_y := offset_y o;
     flip_h := flip_h o;
     flip_v := true;
     rotate_degrees := rotate_degrees o;
     bg_r := bg_r o;
     bg_g := bg_g o;
     bg_b := bg_b o |}.

Definition set_rotate_degrees (v : Z) (o : options) : options :=
  {|
     filename := filename o;
     opt_target_width := opt_target_width o;
     opt_target_height := opt_target_height o;
     cli_zoom_factor := cli_zoom_factor o;
     offset_x := offset_x o;
     offset_y := offset_y o;
     flip_h := flip_h o;
     flip_v := flip_v o;
     rotate_degrees := v;
     bg_r := bg_r o;
     bg_g := bg_g o;
     bg_b := bg_b o |}.

Definition set_bg (r g b : Z) (o : options) : options :=
  {|
     filename := filename o;
     opt_target_width := opt_target_width o;
     opt_target_height := opt_target_height o;
     cli_zoom_factor := cli_zoom_factor o;
     offset_x := offset_x o;
     offset_y := offset_y o;
     flip_h := flip_h o;
     flip_v := flip_v o;
     rotate_degrees := rotate_degrees o;
     bg_r := r;
     bg_g := g;
     bg_b := b |}.

(** [if (cli_zoom_factor <= 0) cli_zoom_factor = 1.0f]. *)
Definition positive_zoom (z : float) : float := if fle z (FFin 0) then f_one else z.

(** How the argument loop of [main] ends: at [--help], at [--version], or
    with the options collected. *)
Inductive parse_result : Type :=
| ShowHelp
| ShowVersion
| Parsed (o : options).

Section CommandLine.

(** [atoi], and [atof] followed by the conversion to [float]. *)
Variable atoi : string -> Z.
Variable atof : string -> float.

(** The argument loop of [main], on [argv[i ..]].  An option that takes a
    value consumes the next argument when there is one ([i + 1 < argc]). *)
Fixpoint parse_args (args : list string) (o : options) : parse_result :=
  match args with
  | [] => Parsed o
  | arg :: rest =>
      if (arg =? "--help")%string || (arg =? "-h")%string then ShowHelp
      else if (arg =? "--version")%string || (arg =? "-v")%string then ShowVersion
      else if (arg =? "--width")%string || (arg =? "-w")%string then
        match rest with
        | value :: rest' => parse_args rest' (set_opt_target_width (atoi value) o)
        | [] => Parsed o
        end
      else if (arg =? "--height")%string || (arg =? "-H")%string then
        match rest with
        | value :: rest' => parse_args rest' (set_opt_target_height (atoi value) o)
        | [] => Parsed o
        end
      else if (arg =? "--zoom")%string then
        match rest with
        | value :: rest' =>
            parse_args rest' (set_cli_zoom_factor (positive_zoom (atof value)) o)
        | [] => Parsed (set_cli_zoom_factor (positive_zoom (cli_zoom_factor o)) o)
        end
      else if (arg =? "--offset-x")%string then
        match rest with
        | value :: rest' => parse_args rest' (set_offset_x (atoi value) o)
        | [] => Parsed o
        end
      else if (arg =? "--offset-y")%string then
        match rest with
        | value :: rest' => parse_args rest' (set_offset_y (atoi value) o)
        | [] => Parsed o
        end
      else if (arg =? "--flip-h")%string then parse_args rest (set_flip_h o)
      else if (arg =? "--flip-v")%string then parse_args rest (set_flip_v o)
      else if (arg =? "--rotate")%string then
        match rest with
        | value :: rest' =>
            parse_args rest' (set_rotate_degrees (normalize_rotation (atoi value)) o)
        | [] => Parsed (set_rotate_degrees (normalize_rotation (rotate_degrees o)) o)
        end
      else if (arg =? "--bg")%string then
        match rest with
        | value :: rest' =>
            if (value =? "black")%string then parse_args rest' (set_bg 0 0 0 o)
            else if (value =? "white")%string then parse_args rest' (set_bg 255 255 255 o)
            else parse_args rest' o
        | [] => Parsed o
        end
      else
        match filename o with
        | None => parse_args rest (set_filename arg o)
        | Some _ => parse_args rest o
        end
  end.

End CommandLine.

(** ** Pipeline: from the loaded image to the terminal *)

(** The calls to [malloc] that [main] and the functions it calls make, from
    [init_ansi_cache] to [render_image].  Every call site below is reached at
    most once in a run, and the two loops get one allocator per iteration, so
    a value of this record is one pattern of successes and failures: any call
    may fail while any other succeeds. *)
Record allocations : Type := {
  malloc_cache : nat -> allocator;     (* [init_ansi_cache], by call *)
  malloc_flip_h : allocator;           (* [flip_image_horizontal] *)
  malloc_flip_v : allocator;           (* [flip_image_vertical] *)
  malloc_rotate_90 : nat -> allocator; (* [rotate_image_90_cw], by iteration *)
  malloc_rotate_180 : allocator;       (* [rotate_image_180] *)
  malloc_resize : allocator;           (* [resize_image_bilinear] *)
  malloc_render : allocator            (* the line buffer of [render_image] *)
}.

Definition allocations_wf (a : allocations) : Prop :=
  (forall k, alloc_wf (malloc_cache a k)) /\
  alloc_wf (malloc_flip_h a) /\ alloc_wf (malloc_flip_v a) /\
  (forall k, alloc_wf (malloc_rotate_90 a k)) /\
  alloc_wf (malloc_rotate_180 a) /\
  alloc_wf (malloc_resize a) /\ alloc_wf (malloc_render a).

(** The flips and the rotation [main] applies, in that order; [None] when an
    allocation fails ([goto cleanup_and_exit]), otherwise the buffer and its
    dimensions. *)
Definition transform_image (dm : data_model) (a : allocations) (o : options)
  (img : list Z) (w h c : Z) : ub (option (list Z * Z * Z)) :=
  do flipped_h <-
    (if flip_h o then flip_image_horizontal dm (malloc_flip_h a) (Some img) w h c
     else Def (Some img));
  match flipped_h with
  | None => Def None
  | Some img1 =>
      do flipped_v <-
        (if flip_v o then flip_image_vertical dm (malloc_flip_v a) (Some img1) w h c
         else Def (Some img1));
      match flipped_v with
      | None => Def None
      | Some img2 =>
          if rotate_degrees o =? 0 then Def (Some (img2, w, h))
          else if (rotate_degrees o =? 90) || (rotate_degrees o =? 270) then
            let rotations := rotate_degrees o ÷ 90 in
            do rotated <- rotate_times dm (malloc_rotate_90 a) (Z.to_nat rotations)
                            img2 w h c;
            match rotated with
            | (Some img3, w', h') => Def (Some (img3, w', h'))
            | (None, _, _) => Def None
            end
          else if rotate_degrees o =? 180 then
            do rotated <- rotate_image_180 dm (malloc_rotate_180 a) (Some img2) w h c;
            match rotated with
            | Some img3 => Def (Some (img3, w, h))
            | None => Def None
            end
          else Def (Some (img2, w, h))
      end
  end.

(** The size [main] asks for before its final clamp: from [--width] /
    [--height] when either is positive, otherwise from
    [calculate_display_dimensions] with zoom [1.0f], which is the first to
    call [get_terminal_size].  The terminal cache is threaded through. *)
Definition requested_dimensions (cs : cvt_style) (probe : terminal_probe)
  (st : term_cache) (o : options) (src_w src_h : Z) : term_cache * Z * Z :=
  if (0 <? opt_target_width o) || (0 <? opt_target_height o) then
    let final_display_width :=
      if 0 <? opt_target_width o then opt_target_width o else 1 in
    let final_display_height :=
      if 0 <? opt_target_height o then opt_target_height o else 1 in
    let '(final_display_width, final_display_height) :=
      if (0 <? opt_target_width o) && (opt_target_height o <=? 0) then
        (final_display_width,
         f2i cs (fdiv (fmul (i2f src_h)
                            (fdiv (i2f final_display_width) (i2f src_w)))
                      TERMINAL_CHAR_HEIGHT_TO_WIDTH_RATIO))
      else if (0 <? opt_target_height o) && (opt_target_width o <=? 0) then
        (f2i cs (fmul (fmul (i2f src_w)
                            (fdiv (i2f final_display_height) (i2f src_h)))
                      TERMINAL_CHAR_HEIGHT_TO_WIDTH_RATIO),
         final_display_height)
      else (final_display_width, final_display_height) in
    (st,
     if final_display_width <=? 0 then 1 else final_display_width,
     if final_display_height <=? 0 then 1 else final_display_height)
  else
    let '(st', terminal_width, terminal_height) := get_terminal_size probe st in
    let '(final_display_width, final_display_height) :=
      calculate_display_dimensions cs terminal_width terminal_height
        src_w src_h f_one in
    (st', final_display_width, final_display_height).

(** The final clamp of [main] to the terminal size. *)
Definition clamp_to_terminal (terminal_width terminal_height : Z)
  (final_display_width final_display_height : Z) : Z * Z :=
  let usable_terminal_height := isub terminal_height 2 in
  let usable_terminal_height :=
    if usable_terminal_height <=? 0 then 1 else usable_terminal_height in
  let final_display_width :=
    if terminal_width <? final_display_width then terminal_width
    else final_display_width in
  let final_display_height :=
    if usable_terminal_height <? final_display_height then usable_terminal_height
    else final_display_height in
  (if final_display_width <=? 0 then 1 else final_display_width,
   if final_display_height <=? 0 then 1 else final_display_height).

(** The first two calls of [main]: [detect_color_support], then
    [init_ansi_cache]. *)
Definition startup (malloc : nat -> allocator) (env : environment) : globals :=
  init_ansi_cache malloc
    {| s_detected_color_mode := detect_color_support env;
       s_ansi_cache_16 := s_ansi_cache_16 initial_globals;
       s_ansi_cache_256 := s_ansi_cache_256 initial_globals |}.

(** [main] from the loaded image on: transform, crop, size, resize, render.
    The result is the list of blocks written to [stdout]: none when a step
    fails and [main] jumps to its cleanup. *)
Definition show_image (dm : data_model) (cs : cvt_style) (a : allocations)
  (env : environment) (probe : terminal_probe) (o : options)
  (img : list Z) (w h c : Z) : ub (list string) :=
  let g := startup (malloc_cache a) env in
  if (w <=? 0) || (h <=? 0) then Def []
  else
    do transformed <- transform_image dm a o img w h c;
    match transformed with
    | None => Def []
    | Some (current_img_data, current_img_w, current_img_h) =>
        let '(src_x, src_y, src_w, src_h) :=
          source_rectangle cs current_img_w current_img_h
            (offset_x o) (offset_y o) (cli_zoom_factor o) in
        let '(st, final_display_width, final_display_height) :=
          requested_dimensions cs probe initial_term_cache o src_w src_h in
        let '(_, terminal_width, terminal_height) := get_terminal_size probe st in
        let '(final_display_width, final_display_height) :=
          clamp_to_terminal terminal_width terminal_height
            final_display_width final_display_height in
        do resized <-
          resize_image_bilinear dm cs (malloc_resize a) (Some current_img_data)
            current_img_w current_img_h c src_x src_y src_w src_h
            final_display_width final_display_height;
        match resized with
        | (_, inl _) => Def []
        | (_, inr rendered_img_data) =>
            do rendered <-
              render_image dm cs (malloc_render a) (detect_color_support env) g
                rendered_img_data final_display_width final_display_height c
                (bg_r o) (bg_g o) (bg_b o);
            Def (snd rendered)
        end
    end.

(** ** Well-formed images *)

(** A [w] x [h] image with [c] interleaved samples per pixel: the buffer has
    exactly [w * h * c] bytes, and that count fits the [int] arithmetic the
    program indexes with. *)
Definition valid_image (img : list Z) (w h c : Z) : Prop :=
  0 <= w /\ 0 <= h /\ 0 <= c /\ w * h * c <= INT_MAX /\
  Z.of_nat (length img) = w * h * c.

(** The linear offset of a sample, as a mathematical integer. *)
Definition lin (w c row col channel : Z) : Z := (row * w + col) * c + channel.

(** What three nested loops that store one sample per iteration have
    established once every sample with offset below [K] is written: sample
    [(y, x, ch)] of the [W] x [H] destination holds the value [val y x ch]
    computed for it. *)
Definition filled (val : Z -> Z -> Z -> ub Z) (out : list Z) (W H c : Z) (K : Z)
  : Prop :=
  Z.of_nat (length out) = W * H * c /\
  forall y x ch, 0 <= y < H -> 0 <= x < W -> 0 <= ch < c ->
    lin W c y x ch < K -> load out (lin W c y x ch) = val y x ch.

(** A finite binary32 value: an integer significand of at most 24 bits times
    a power of two no smaller than the least subnormal. *)
Definition repr32 (x : Q) : Prop :=
  exists m c : Z, (x == inject_Z m * pow2 c)%Q /\ Z.abs m <= 2 ^ 24 /\ -149 <= c.

(** ** Fixtures used by the closed examples *)

(** An allocator that always succeeds and hands out zero-filled blocks. *)
Definition zeroed_malloc : allocator :=
  fun n => if n <? 0 then None else Some (replicate (Z.to_nat n) 0).

(** The globals as [main] leaves them before rendering, for a given mode. *)
Definition ready_globals (mode : ColorMode) : globals :=
  {| s_detected_color_mode := mode;
     s_ansi_cache_16 :=
       s_ansi_cache_16 (init_ansi_cache (fun _ => zeroed_malloc) initial_globals);
     s_ansi_cache_256 :=
       s_ansi_cache_256 (init_ansi_cache (fun _ => zeroed_malloc) initial_globals) |}.

(** The 4x4 uniform red image of the specification's scenario. *)
Definition red_4x4 : list Z := concat (replicate 16 [255; 0; 0]).
Definition red (ch : Z) : Z := if ch =? 0 then 255 else 0.

(** A white one-channel image of 2147483647 x 1 pixels. *)
Definition long_white_row : list Z := 255 :: replicate (Z.to_nat 2147483646) 255.

(** The line a white pixel produces in true-colour mode:
    [ESC[48;2;255;255;255m], a space, [ESC[0m], newline. *)
Definition white_line : string :=
  ESC +++ "[48;2;255;255;255m" +++ " " +++ ESC +++ "[0m" +++ NL.

(* ================================================================= *)
(** * Part II — properties *)
(* ================================================================= *)

(** ** Machine integers *)

Lemma wrap32_id z : in_int z -> wrap32 z = z.
Proof.
  unfold in_int, INT_MIN, INT_MAX, wrap32. intros H.
  rewrite Z.mod_small by lia. lia.
Qed.

Lemma wrap32_range z : in_int (wrap32 z).
Proof.
  unfold in_int, INT_MIN, INT_MAX, wrap32.
  pose proof (Z.mod_pos_bound (z + 2147483648) 4294967296). lia.
Qed.

(** ** ColorQuantizer *)

Lemma rgb_to_256_gray r :
  rgb_to_256 r r r =
    if r <? 3 then 16 else if 252 <? r then 231 else 232 + (r - 3) ÷ 10.
Proof. unfold rgb_to_256. now rewrite Z.eqb_refl. Qed.

(** C1, as stated, fails: the ramp formula leaves [232,255] at r = 243 (the
    value is 256), and the result drops from 256 at r = 252 to 231 at
    r = 253, so it is not monotone over all grey inputs. *)
Lemma rgb_to_256_gray_counterexample :
  rgb_to_256 243 243 243 = 256 /\
  ~ (232 <= rgb_to_256 243 243 243 <= 255) /\
  rgb_to_256 242 242 242 = 255 /\
  rgb_to_256 253 253 253 = 231 /\
  ~ (rgb_to_256 242 242 242 <= rgb_to_256 253 253 253).
Proof.
  assert (E1 : rgb_to_256 243 243 243 = 256) by reflexivity.
  assert (E2 : rgb_to_256 242 242 242 = 255) by reflexivity.
  assert (E3 : rgb_to_256 253 253 253 = 231) by reflexivity.
  rewrite E1, E2, E3. lia.
Qed.

(** C1 (amended): for a grey triple, [rgb_to_256] is 16 below 3, 231 above
    252, and on 3..242 it is [232 + (r-3)/10], a value in [232,255]; on
    0..242 it is monotonically non-decreasing in r. *)
Theorem rgb_to_256_gray_ramp r :
  is_uchar r ->
  (r < 3 -> rgb_to_256 r r r = 16) /\
  (252 < r -> rgb_to_256 r r r = 231) /\
  (3 <= r <= 242 ->
     rgb_to_256 r r r = 232 + (r - 3) ÷ 10 /\ 232 <= rgb_to_256 r r r <= 255) /\
  (forall r', r <= r' <= 242 -> rgb_to_256 r r r <= rgb_to_256 r' r' r').
Proof.
  unfold is_uchar. intros Hr. rewrite rgb_to_256_gray.
  repeat split.
  - intros H. destruct (Z.ltb_spec r 3); [reflexivity | lia].
  - intros H. destruct (Z.ltb_spec r 3); [lia |].
    destruct (Z.ltb_spec 252 r); [reflexivity | lia].
  - destruct (Z.ltb_spec r 3); [lia |]. destruct (Z.ltb_spec 252 r); [lia | reflexivity].
  - destruct (Z.ltb_spec r 3); [lia |]. destruct (Z.ltb_spec 252 r); [lia |].
    rewrite Z.quot_div_nonneg by lia.
    pose proof (Z.div_pos (r - 3) 10). lia.
  - destruct (Z.ltb_spec r 3); [lia |]. destruct (Z.ltb_spec 252 r); [lia |].
    rewrite Z.quot_div_nonneg by lia.
    assert ((r - 3) / 10 <= 239 / 10) by (apply Z.div_le_mono; lia).
    change (239 / 10) with 23 in *. lia.
  - intros r' Hr'. rewrite rgb_to_256_gray.
    destruct (Z.ltb_spec r 3), (Z.ltb_spec r' 3); try lia;
      destruct (Z.ltb_spec 252 r'); try lia.
    + rewrite Z.quot_div_nonneg by lia.
      pose proof (Z.div_pos (r' - 3) 10). lia.
    + destruct (Z.ltb_spec 252 r); try lia.
      rewrite !Z.quot_div_nonneg by lia.
      assert ((r - 3) / 10 <= (r' - 3) / 10) by (apply Z.div_le_mono; lia). lia.
Qed.

Lemma rgb_to_256_gray_ramp_witness :
  is_uchar 100 /\
  (3 <= 100 <= 242 ->
     rgb_to_256 100 100 100 = 232 + (100 - 3) ÷ 10 /\
     232 <= rgb_to_256 100 100 100 <= 255).
Proof.
  assert (H : is_uchar 100) by (unfold is_uchar; lia).
  split; [exact H |].
  exact (proj1 (proj2 (proj2 (rgb_to_256_gray_ramp 100 H)))).
Defined.

Lemma rgb_to_16_range r g b : 0 <= rgb_to_16 r g b <= 15.
Proof.
  unfold rgb_to_16.
  destruct (128 <? r), (128 <? g), (128 <? b); simpl; lia.
Qed.

Lemma min_5_range v : 0 <= v -> 0 <= min 5 v <= 5.
Proof. unfold min. intros H. destruct (Z.ltb_spec 5 v); lia. Qed.

(** Off the grey diagonal the index is inside the colour cube. *)
Lemma rgb_to_256_cube_range r g b :
  is_uchar r -> is_uchar g -> is_uchar b -> ~ (r = g /\ g = b) ->
  16 <= rgb_to_256 r g b <= 231.
Proof.
  unfold is_uchar, rgb_to_256. intros Hr Hg Hb Hne.
  destruct (Z.eqb_spec r g) as [e1 | n1]; [destruct (Z.eqb_spec g b); [tauto |] |];
    simpl;
    pose proof (min_5_range ((r * 6) ÷ 256));
    pose proof (min_5_range ((g * 6) ÷ 256));
    pose proof (min_5_range ((b * 6) ÷ 256));
    rewrite !Z.quot_div_nonneg in * by lia;
    pose proof (Z.div_pos (r * 6) 256);
    pose proof (Z.div_pos (g * 6) 256);
    pose proof (Z.div_pos (b * 6) 256); lia.
Qed.

(** C10: the grey level 250 is mapped to 256, one past the last entry of
    [s_ansi_cache_256]; in 256-colour mode [format_ansi_color_code] then
    indexes the cache out of bounds. *)
Theorem rgb_to_256_gray_250_outside_cache :
  rgb_to_256 250 250 250 = 256 /\
  Z.of_nat (length (s_ansi_cache_256 (ready_globals COLOR_MODE_256))) = 256 /\
  format_ansi_color_code (ready_globals COLOR_MODE_256) 250 250 250 COLOR_MODE_256
    = UB.
Proof. vm_compute. repeat split. Qed.

(** ** FrameRenderer *)

(** Compositing an opaque white sample: [alpha_norm] is exactly 1, the
    background term is exactly 0, whatever the background. *)
Lemma blend_opaque_white cs bg :
  is_uchar bg ->
  f2uchar cs (fadd (fmul (i2f 255) (fdiv (i2f 255) f_255))
                   (fmul (i2f bg) (fsub f_one (fdiv (i2f 255) f_255)))) = 255.
Proof.
  unfold is_uchar. intros Hbg.
  assert (E : forallb (fun b : Z =>
             (f2uchar Indefinite
                (fadd (fmul (i2f 255) (fdiv (i2f 255) f_255))
                      (fmul (i2f b) (fsub f_one (fdiv (i2f 255) f_255)))) =? 255)
             && (f2uchar Saturating
                (fadd (fmul (i2f 255) (fdiv (i2f 255) f_255))
                      (fmul (i2f b) (fsub f_one (fdiv (i2f 255) f_255)))) =? 255))
            (List.map Z.of_nat (seq 0 256)) = true) by (vm_compute; reflexivity).
  rewrite forallb_forall in E.
  assert (Hin : In bg (List.map Z.of_nat (seq 0 256))).
  { apply in_map_iff. exists (Z.to_nat bg). split; [lia |]. apply in_seq. lia. }
  specialize (E bg Hin). apply andb_prop in E. destruct E as [E1 E2].
  destruct cs; lia.
Qed.

Lemma pixel_rgb_opaque_white cs bg_r bg_g bg_b :
  is_uchar bg_r -> is_uchar bg_g -> is_uchar bg_b ->
  pixel_rgb cs [255; 255; 255; 255] 0 4 bg_r bg_g bg_b = Def (255, 255, 255).
Proof.
  intros Hr Hg Hb. unfold pixel_rgb.
  change (4 =? 4) with true. cbv iota.
  change (load [255; 255; 255; 255] (iadd 0 3)) with (Def (A := Z) 255).
  change (load [255; 255; 255; 255] 0) with (Def (A := Z) 255).
  change (load [255; 255; 255; 255] (iadd 0 1)) with (Def (A := Z) 255).
  change (load [255; 255; 255; 255] (iadd 0 2)) with (Def (A := Z) 255).
  cbv beta iota delta [ub_bind].
  rewrite !blend_opaque_white by assumption. reflexivity.
Qed.

(** C8: a 1x1 opaque white image (3 samples, or 4 with alpha 255) rendered
    in true-colour mode is written as exactly one line: the escape sequence
    ESC[48;2;255;255;255m, a space, ESC[0m and a newline. *)
Theorem render_image_white_pixel_truecolor
  dm cs (malloc : allocator) detected g bg_r bg_g bg_b blk :
  s_detected_color_mode g = COLOR_MODE_TRUE_COLOR ->
  malloc 53 = Some blk ->
  is_uchar bg_r -> is_uchar bg_g -> is_uchar bg_b ->
  render_image dm cs malloc detected g [255; 255; 255] 1 1 3 bg_r bg_g bg_b
    = Def (g, [white_line]) /\
  render_image dm cs malloc detected g [255; 255; 255; 255] 1 1 4 bg_r bg_g bg_b
    = Def (g, [white_line]).
Proof.
  intros Hmode Hmalloc Hr Hg Hb.
  assert (Hsize : size_add dm (size_mul dm (to_size dm 1) 21) 32 = 53)
    by (destruct dm; reflexivity).
  split.
  - unfold render_image. rewrite Hmode. cbv beta iota zeta delta [max_pixel_size].
    rewrite Hsize.
    replace (to_size dm 1) with 1 by (destruct dm; reflexivity).
    change (53 / 21 <? 1) with false. cbv iota. rewrite Hmalloc, ?Hmode.
    reflexivity.
  - unfold render_image. rewrite Hmode. cbv beta iota zeta delta [max_pixel_size].
    rewrite Hsize.
    replace (to_size dm 1) with 1 by (destruct dm; reflexivity).
    change (53 / 21 <? 1) with false. cbv iota. rewrite Hmalloc, ?Hmode.
    unfold for_range. change (Z.to_nat (1 - 0)) with 1%nat.
    cbv beta iota delta [for_loop].
    change (imul (iadd (imul 0 1) 0) 4) with 0.
    rewrite pixel_rgb_opaque_white by assumption.
    reflexivity.
Qed.

Lemma render_image_white_pixel_truecolor_witness :
  render_image LP64 Indefinite zeroed_malloc COLOR_MODE_16
    (ready_globals COLOR_MODE_TRUE_COLOR) [255; 255; 255] 1 1 3 0 0 0
    = Def (ready_globals COLOR_MODE_TRUE_COLOR, [white_line]).
Proof.
  refine (proj1 (render_image_white_pixel_truecolor LP64 Indefinite zeroed_malloc
            COLOR_MODE_16 (ready_globals COLOR_MODE_TRUE_COLOR) 0 0 0
            (replicate 53 0) _ _ _ _ _));
    try reflexivity; unfold is_uchar; lia.
Defined.

(** C3: with one sample per pixel the renderer still reads three: for a
    1x1 grey image it reads [img_data[1]], past the one-byte buffer. *)
Theorem render_image_gray_reads_past_buffer :
  load [200] (iadd 0 1) = UB /\
  pixel_rgb Indefinite [200] 0 1 0 0 0 = UB /\
  render_image LP64 Indefinite zeroed_malloc COLOR_MODE_16
    (ready_globals COLOR_MODE_TRUE_COLOR) [200] 1 1 1 0 0 0 = UB /\
  render_image LP64 Indefinite zeroed_malloc COLOR_MODE_16
    (ready_globals COLOR_MODE_TRUE_COLOR) [200; 255] 1 1 2 0 0 0 = UB.
Proof. vm_compute. repeat split. Qed.

(** ** Loops and buffers *)

Lemma for_loop_inv {S : Type} (P : Z -> S -> Prop) (body : Z -> S -> ub S) n :
  forall lo s,
  P lo s ->
  (forall i s, lo <= i < lo + Z.of_nat n -> P i s ->
     exists s', body i s = Def s' /\ P (i + 1) s') ->
  exists s', for_loop n lo body s = Def s' /\ P (lo + Z.of_nat n) s'.
Proof.
  induction n as [| n IH]; intros lo s H0 Hstep.
  - exists s. split; [reflexivity |]. now rewrite Z.add_0_r.
  - destruct (Hstep lo s ltac:(lia) H0) as (s1 & E1 & H1).
    destruct (IH (lo + 1) s1 H1) as (s2 & E2 & H2).
    { intros i s' Hi. apply Hstep. lia. }
    exists s2. split.
    + cbn [for_loop]. rewrite E1. exact E2.
    + replace (lo + Z.of_nat (Datatypes.S n)) with (lo + 1 + Z.of_nat n) by lia.
      exact H2.
Qed.

Lemma for_range_inv {S : Type} (P : Z -> S -> Prop) (body : Z -> S -> ub S) hi s :
  0 <= hi ->
  P 0 s ->
  (forall i s, 0 <= i < hi -> P i s ->
     exists s', body i s = Def s' /\ P (i + 1) s') ->
  exists s', for_range 0 hi body s = Def s' /\ P hi s'.
Proof.
  intros Hhi H0 Hstep. unfold for_range.
  destruct (for_loop_inv P body (Z.to_nat (hi - 0)) 0 s H0) as (s' & E & H').
  - intros i s' Hi. apply Hstep. lia.
  - exists s'. split; [exact E |].
    replace (0 + Z.of_nat (Z.to_nat (hi - 0))) with hi in H' by lia. exact H'.
Qed.

(** A loop whose body is undefined at some iteration is undefined. *)
Lemma for_loop_UB {S : Type} (body : Z -> S -> ub S) k n :
  forall lo s,
  lo <= k < lo + Z.of_nat n -> (forall s, body k s = UB) ->
  for_loop n lo body s = UB.
Proof.
  induction n as [| n IH]; intros lo s Hk Hb; [lia |].
  cbn [for_loop].
  destruct (Z.eq_dec lo k) as [-> | Hne].
  - rewrite Hb. reflexivity.
  - destruct (body lo s) as [s' |]; [| reflexivity]. cbn [ub_bind].
    apply IH; [lia | exact Hb].
Qed.

Lemma for_range_UB {S : Type} (body : Z -> S -> ub S) k hi s :
  0 <= k < hi -> (forall s, body k s = UB) -> for_range 0 hi body s = UB.
Proof.
  intros Hk Hb. unfold for_range. apply (for_loop_UB body k); [lia | exact Hb].
Qed.

Lemma load_Def {A} (p : list A) i v :
  load p i = Def v <-> 0 <= i /\ p !! Z.to_nat i = Some v.
Proof.
  unfold load. destruct (Z.ltb_spec i 0).
  - split; [discriminate | lia].
  - destruct (p !! Z.to_nat i) eqn:E; split; intros H'; try discriminate.
    + inversion H'; subst. auto.
    + destruct H' as [_ H']. inversion H'; subst. reflexivity.
    + destruct H' as [_ H']. discriminate.
Qed.

Lemma load_in_bounds {A} (p : list A) i :
  0 <= i < Z.of_nat (length p) -> exists v, load p i = Def v.
Proof.
  intros Hi. destruct (lookup_lt_is_Some_2 p (Z.to_nat i)) as [v Hv]; [lia |].
  exists v. apply load_Def. split; [lia | exact Hv].
Qed.

Lemma load_out_of_bounds {A} (p : list A) i :
  Z.of_nat (length p) <= i -> load p i = UB.
Proof.
  intros Hi. unfold load. destruct (Z.ltb_spec i 0); [reflexivity |].
  rewrite lookup_ge_None_2 by lia. reflexivity.
Qed.

Lemma load_negative {A} (p : list A) i : i < 0 -> load p i = UB.
Proof. intros Hi. unfold load. destruct (Z.ltb_spec i 0); [reflexivity | lia]. Qed.

Lemma lin_bound w h c row col ch :
  0 <= row < h -> 0 <= col < w -> 0 <= ch < c ->
  0 <= lin w c row col ch < w * h * c.
Proof.
  unfold lin. intros Hr Hc Hch.
  assert (H1 : 0 <= row * w + col <= h * w - 1) by nia.
  assert (H2 : 0 <= (row * w + col) * c <= (h * w - 1) * c) by nia.
  nia.
Qed.

Lemma lin_inj w c row col ch row' col' ch' :
  0 <= col < w -> 0 <= ch < c -> 0 <= col' < w -> 0 <= ch' < c ->
  lin w c row col ch = lin w c row' col' ch' ->
  row = row' /\ col = col' /\ ch = ch'.
Proof.
  unfold lin. intros Hc Hch Hc' Hch' E.
  assert (U : forall a b n r r', 0 <= r < n -> 0 <= r' < n ->
            a * n + r = b * n + r' -> a = b /\ r = r').
  { intros a b n r r' Hr Hr' Eq.
    assert (a = b).
    { destruct (Z.lt_trichotomy a b) as [L | [Eab | G]]; [| exact Eab |].
      - assert (0 <= (b - a - 1) * n) by (apply Z.mul_nonneg_nonneg; lia). lia.
      - assert (0 <= (a - b - 1) * n) by (apply Z.mul_nonneg_nonneg; lia). lia. }
    subst. lia. }
  destruct (U _ _ _ _ _ Hch Hch' E) as [E1 E2].
  destruct (U _ _ _ _ _ Hc Hc' E1) as [E3 E4]. auto.
Qed.

Lemma lin_surj w h c k :
  0 <= w -> 0 <= h -> 0 <= c ->
  0 <= k < w * h * c ->
  exists row col ch,
    0 <= row < h /\ 0 <= col < w /\ 0 <= ch < c /\ k = lin w c row col ch.
Proof.
  intros Hw0 Hh0 Hc0 Hk.
  assert (Hc : 0 < c) by nia.
  assert (Hw : 0 < w) by nia.
  exists (k / c / w), ((k / c) mod w), (k mod c).
  pose proof (Z.mod_pos_bound k c Hc).
  pose proof (Z.mod_pos_bound (k / c) w Hw).
  pose proof (Z.div_mod k c ltac:(lia)).
  pose proof (Z.div_mod (k / c) w ltac:(lia)).
  assert (0 <= k / c) by (apply Z.div_pos; lia).
  assert (0 <= k / c / w) by (apply Z.div_pos; lia).
  unfold lin. repeat split; try lia.
  apply Z.div_lt_upper_bound; [lia |]. apply Z.div_lt_upper_bound; [lia |]. nia.
Qed.

Lemma sample_index_lin w h c row col ch :
  w * h * c <= INT_MAX ->
  0 <= row < h -> 0 <= col < w -> 0 <= ch < c ->
  sample_index w c row col ch = lin w c row col ch.
Proof.
  intros Hsz Hr Hc Hch. unfold sample_index, lin, iadd, imul.
  pose proof (lin_bound w h c row col ch Hr Hc Hch) as Hb. unfold lin in Hb.
  assert (P1 : 0 <= row * w) by (apply Z.mul_nonneg_nonneg; lia).
  assert (P2 : 0 <= (row * w + col) * (c - 1)) by (apply Z.mul_nonneg_nonneg; lia).
  unfold INT_MAX in Hsz.
  rewrite (wrap32_id (row * w)) by (unfold in_int, INT_MIN, INT_MAX; lia).
  rewrite (wrap32_id (row * w + col)) by (unfold in_int, INT_MIN, INT_MAX; lia).
  rewrite (wrap32_id ((row * w + col) * c)) by (unfold in_int, INT_MIN, INT_MAX; lia).
  apply wrap32_id. unfold in_int, INT_MIN, INT_MAX. lia.
Qed.

Lemma load_insert_eq (p : list Z) i v :
  0 <= i < Z.of_nat (length p) -> load (<[Z.to_nat i := v]> p) i = Def v.
Proof.
  intros Hi. apply load_Def. split; [lia |].
  apply list_lookup_insert_eq. lia.
Qed.

Lemma load_insert_ne (p : list Z) i j v :
  0 <= i -> 0 <= j -> i <> j -> load (<[Z.to_nat i := v]> p) j = load p j.
Proof.
  intros Hi Hj Hne. unfold load. destruct (Z.ltb_spec j 0); [reflexivity |].
  rewrite list_lookup_insert_ne by lia. reflexivity.
Qed.

Lemma fill_loop_spec (val : Z -> Z -> Z -> ub Z) (out0 : list Z) (W H c : Z) :
  0 <= W -> 0 <= H -> 0 <= c -> W * H * c <= INT_MAX ->
  Z.of_nat (length out0) = W * H * c ->
  (forall y x ch, 0 <= y < H -> 0 <= x < W -> 0 <= ch < c ->
     exists v, val y x ch = Def v) ->
  exists out,
    for_range 0 H (fun y =>
      for_range 0 W (fun x =>
        for_range 0 c (fun ch out =>
          do v <- val y x ch;
          store out (sample_index W c y x ch) v))) out0 = Def out /\
    filled val out W H c (W * H * c).
Proof.
  intros HW HH Hc Hsz Hlen Hval.
  destruct (for_range_inv (fun y out => filled val out W H c (lin W c y 0 0))
              (fun y => for_range 0 W (fun x => for_range 0 c (fun ch out =>
                 do v <- val y x ch;
                 store out (sample_index W c y x ch) v))) H out0 HH)
    as (out & E & Hout).
  - split; [exact Hlen |]. intros y x ch Hy Hx Hch Hlt. exfalso.
    pose proof (lin_bound W H c y x ch Hy Hx Hch). unfold lin in *. lia.
  - intros y s Hy Hs.
    destruct (for_range_inv (fun x out => filled val out W H c (lin W c y x 0))
                (fun x => for_range 0 c (fun ch out =>
                   do v <- val y x ch;
                   store out (sample_index W c y x ch) v)) W s HW)
      as (s1 & E1 & Hs1).
    + exact Hs.
    + intros x t Hx Ht.
      destruct (for_range_inv (fun ch out => filled val out W H c (lin W c y x ch))
                  (fun ch out =>
                     do v <- val y x ch;
                     store out (sample_index W c y x ch) v) c t Hc)
        as (t1 & E2 & Ht1).
      * exact Ht.
      * intros ch u Hch [Hulen Hu].
        destruct (Hval y x ch Hy Hx Hch) as [v Hv].
        pose proof (lin_bound W H c y x ch Hy Hx Hch) as Hb.
        exists (<[Z.to_nat (lin W c y x ch) := v]> u). split.
        { rewrite Hv. cbn [ub_bind].
          rewrite (sample_index_lin W H c y x ch Hsz Hy Hx Hch).
          unfold store.
          destruct (Z.ltb_spec (lin W c y x ch) 0); [lia |].
          destruct (Z.leb_spec (Z.of_nat (length u)) (lin W c y x ch)); [lia |].
          reflexivity. }
        split; [rewrite length_insert; exact Hulen |].
        intros y' x' ch' Hy' Hx' Hch' Hlt.
        pose proof (lin_bound W H c y' x' ch' Hy' Hx' Hch') as Hb'.
        destruct (Z.eq_dec (lin W c y' x' ch') (lin W c y x ch)) as [Eq | Ne].
        { destruct (lin_inj _ _ _ _ _ _ _ _ Hx' Hch' Hx Hch Eq) as (-> & -> & ->).
          rewrite load_insert_eq by lia. symmetry. exact Hv. }
        { rewrite load_insert_ne by lia. apply Hu; try assumption.
          unfold lin in *. lia. }
      * exists t1. split; [exact E2 |].
        replace (lin W c y (x + 1) 0) with (lin W c y x c) by (unfold lin; ring).
        exact Ht1.
    + exists s1. split; [exact E1 |].
      replace (lin W c (y + 1) 0 0) with (lin W c y W 0) by (unfold lin; ring).
      exact Hs1.
  - exists out. split; [exact E |].
    assert (Eq : lin W c H 0 0 = W * H * c) by (unfold lin; ring).
    rewrite Eq in Hout. exact Hout.
Qed.

Lemma data_size_valid dm w h c :
  0 <= w * h * c <= INT_MAX ->
  size_mul dm (size_mul dm (to_size dm w) h) c = w * h * c.
Proof.
  intros Hsz. unfold size_mul, to_size.
  assert (HM : 0 < SIZE_MAX dm + 1) by (destruct dm; reflexivity).
  rewrite Z.mul_mod_idemp_l by lia.
  rewrite <- Z.mul_assoc. rewrite Z.mul_mod_idemp_l by lia.
  rewrite Z.mul_assoc. apply Z.mod_small. unfold INT_MAX in Hsz. destruct dm; simpl; lia.
Qed.

Lemma isub_mirror n x :
  0 <= x < n -> n <= INT_MAX -> isub (isub n 1) x = n - 1 - x.
Proof.
  intros Hx Hn. unfold isub, INT_MAX in *.
  rewrite (wrap32_id (n - 1)) by (unfold in_int, INT_MIN, INT_MAX; lia).
  apply wrap32_id. unfold in_int, INT_MIN, INT_MAX. lia.
Qed.

Lemma dims_le_size w h c :
  1 <= w -> 1 <= h -> 1 <= c -> w <= w * h * c /\ h <= w * h * c.
Proof.
  intros Hw Hh Hc.
  assert (0 <= (w - 1) * h) by (apply Z.mul_nonneg_nonneg; lia).
  assert (0 <= w * (h - 1)) by (apply Z.mul_nonneg_nonneg; lia).
  assert (0 <= (w * h) * (c - 1)) by (apply Z.mul_nonneg_nonneg; nia).
  lia.
Qed.

(** Two buffers of the same geometry that agree sample by sample are equal. *)
Lemma buffer_ext (a b : list Z) w h c :
  0 <= w -> 0 <= h -> 0 <= c ->
  Z.of_nat (length a) = w * h * c -> Z.of_nat (length b) = w * h * c ->
  (forall y x ch, 0 <= y < h -> 0 <= x < w -> 0 <= ch < c ->
     load a (lin w c y x ch) = load b (lin w c y x ch)) ->
  a = b.
Proof.
  intros Hw Hh Hc Ha Hb Hall. apply list_eq. intros i.
  destruct (Nat.lt_ge_cases i (length a)) as [Hi | Hi].
  - destruct (lin_surj w h c (Z.of_nat i) Hw Hh Hc ltac:(lia))
      as (y & x & ch & Hy & Hx & Hch & Ek).
    specialize (Hall y x ch Hy Hx Hch). rewrite <- Ek in Hall.
    destruct (load_in_bounds a (Z.of_nat i) ltac:(lia)) as [va Hva].
    destruct (load_in_bounds b (Z.of_nat i) ltac:(lia)) as [vb Hvb].
    rewrite Hva, Hvb in Hall. inversion Hall; subst.
    apply load_Def in Hva, Hvb. rewrite Nat2Z.id in Hva, Hvb.
    destruct Hva as [_ ->]. destruct Hvb as [_ ->]. reflexivity.
  - rewrite !lookup_ge_None_2 by lia. reflexivity.
Qed.

Lemma flip_image_horizontal_spec dm (malloc : allocator) img w h c blk :
  valid_image img w h c -> alloc_wf malloc -> malloc (w * h * c) = Some blk ->
  exists out,
    flip_image_horizontal dm malloc (Some img) w h c = Def (Some out) /\
    valid_image out w h c /\
    forall y x ch, 0 <= y < h -> 0 <= x < w -> 0 <= ch < c ->
      load out (lin w c y x ch) = load img (lin w c y (w - 1 - x) ch).
Proof.
  intros (Hw & Hh & Hc & Hsz & Hlen) Hwf Hm.
  assert (Hnn : 0 <= w * h * c) by (rewrite <- Hlen; lia).
  unfold flip_image_horizontal. rewrite data_size_valid by lia. rewrite Hm.
  assert (Hsrc : forall y x ch, 0 <= y < h -> 0 <= x < w -> 0 <= ch < c ->
            sample_index w c y (isub (isub w 1) x) ch = lin w c y (w - 1 - x) ch).
  { intros y x ch Hy Hx Hch.
    destruct (dims_le_size w h c) as [Hwle _]; try lia.
    rewrite isub_mirror by lia. apply (sample_index_lin w h c); lia. }
  destruct (fill_loop_spec
              (fun y x ch => load img (sample_index w c y (isub (isub w 1) x) ch))
              blk w h c)
    as (out & E & Hlo & Hout); try assumption.
  - apply Hwf. exact Hm.
  - intros y x ch Hy Hx Hch. rewrite Hsrc by assumption.
    apply load_in_bounds. rewrite Hlen. apply (lin_bound w h c); lia.
  - exists out. rewrite E. split; [reflexivity |]. split.
    + unfold valid_image. auto.
    + intros y x ch Hy Hx Hch.
      pose proof (lin_bound w h c y x ch Hy Hx Hch).
      rewrite Hout by (try assumption; lia). cbv beta.
      rewrite Hsrc by assumption. reflexivity.
Qed.

Lemma flip_image_vertical_spec dm (malloc : allocator) img w h c blk :
  valid_image img w h c -> alloc_wf malloc -> malloc (w * h * c) = Some blk ->
  exists out,
    flip_image_vertical dm malloc (Some img) w h c = Def (Some out) /\
    valid_image out w h c /\
    forall y x ch, 0 <= y < h -> 0 <= x < w -> 0 <= ch < c ->
      load out (lin w c y x ch) = load img (lin w c (h - 1 - y) x ch).
Proof.
  intros (Hw & Hh & Hc & Hsz & Hlen) Hwf Hm.
  assert (Hnn : 0 <= w * h * c) by (rewrite <- Hlen; lia).
  unfold flip_image_vertical. rewrite data_size_valid by lia. rewrite Hm.
  assert (Hsrc : forall y x ch, 0 <= y < h -> 0 <= x < w -> 0 <= ch < c ->
            sample_index w c (isub (isub h 1) y) x ch = lin w c (h - 1 - y) x ch).
  { intros y x ch Hy Hx Hch.
    destruct (dims_le_size w h c) as [_ Hhle]; try lia.
    rewrite isub_mirror by lia. apply (sample_index_lin w h c); lia. }
  destruct (fill_loop_spec
              (fun y x ch => load img (sample_index w c (isub (isub h 1) y) x ch))
              blk w h c)
    as (out & E & Hlo & Hout); try assumption.
  - apply Hwf. exact Hm.
  - intros y x ch Hy Hx Hch. rewrite Hsrc by assumption.
    apply load_in_bounds. rewrite Hlen. apply (lin_bound w h c); lia.
  - exists out. rewrite E. split; [reflexivity |]. split.
    + unfold valid_image. auto.
    + intros y x ch Hy Hx Hch.
      pose proof (lin_bound w h c y x ch Hy Hx Hch).
      rewrite Hout by (try assumption; lia). cbv beta.
      rewrite Hsrc by assumption. reflexivity.
Qed.

(** C9: flipping twice, horizontally or vertically, gives back a buffer
    identical to the input. *)
Theorem flip_twice_is_identity dm (malloc : allocator) img w h c blk :
  valid_image img w h c -> alloc_wf malloc -> malloc (w * h * c) = Some blk ->
  (exists once,
     flip_image_horizontal dm malloc (Some img) w h c = Def (Some once) /\
     flip_image_horizontal dm malloc (Some once) w h c = Def (Some img)) /\
  (exists once,
     flip_image_vertical dm malloc (Some img) w h c = Def (Some once) /\
     flip_image_vertical dm malloc (Some once) w h c = Def (Some img)).
Proof.
  intros Hv Hwf Hm. pose proof Hv as (Hw & Hh & Hc & Hsz & Hlen). split.
  - destruct (flip_image_horizontal_spec dm malloc img w h c blk Hv Hwf Hm)
      as (o1 & E1 & Hv1 & S1).
    destruct (flip_image_horizontal_spec dm malloc o1 w h c blk Hv1 Hwf Hm)
      as (o2 & E2 & Hv2 & S2).
    exists o1. split; [exact E1 |]. rewrite E2. do 2 f_equal.
    apply (buffer_ext o2 img w h c); try assumption; [apply Hv2 |].
    intros y x ch Hy Hx Hch.
    rewrite S2 by assumption. rewrite S1 by lia.
    f_equal. f_equal. lia.
  - destruct (flip_image_vertical_spec dm malloc img w h c blk Hv Hwf Hm)
      as (o1 & E1 & Hv1 & S1).
    destruct (flip_image_vertical_spec dm malloc o1 w h c blk Hv1 Hwf Hm)
      as (o2 & E2 & Hv2 & S2).
    exists o1. split; [exact E1 |]. rewrite E2. do 2 f_equal.
    apply (buffer_ext o2 img w h c); try assumption; [apply Hv2 |].
    intros y x ch Hy Hx Hch.
    rewrite S2 by assumption. rewrite S1 by lia.
    f_equal. f_equal. lia.
Qed.

Lemma rotate_image_90_cw_square_spec dm (malloc : allocator) img n c blk :
  valid_image img n n c -> alloc_wf malloc -> malloc (n * n * c) = Some blk ->
  exists out,
    rotate_image_90_cw dm malloc (Some img) n n c = Def (Some out, n, n) /\
    valid_image out n n c /\
    forall y x ch, 0 <= y < n -> 0 <= x < n -> 0 <= ch < c ->
      load out (lin n c y x ch) = load img (lin n c (n - 1 - x) y ch).
Proof.
  intros (Hw & Hh & Hc & Hsz & Hlen) Hwf Hm.
  assert (Hnn : 0 <= n * n * c) by (rewrite <- Hlen; lia).
  unfold rotate_image_90_cw. cbv zeta. rewrite data_size_valid by lia. rewrite Hm.
  assert (Hsrc : forall y x ch, 0 <= y < n -> 0 <= x < n -> 0 <= ch < c ->
            sample_index n c (isub (isub n 1) x) y ch = lin n c (n - 1 - x) y ch).
  { intros y x ch Hy Hx Hch.
    destruct (dims_le_size n n c) as [Hwle _]; try lia.
    rewrite isub_mirror by lia. apply (sample_index_lin n n c); lia. }
  destruct (fill_loop_spec
              (fun y x ch => load img (sample_index n c (isub (isub n 1) x) y ch))
              blk n n c)
    as (out & E & Hlo & Hout); try assumption.
  - apply Hwf. exact Hm.
  - intros y x ch Hy Hx Hch. rewrite Hsrc by assumption.
    apply load_in_bounds. rewrite Hlen. apply (lin_bound n n c); lia.
  - exists out. rewrite E. split; [reflexivity |]. split.
    + unfold valid_image. auto.
    + intros y x ch Hy Hx Hch.
      pose proof (lin_bound n n c y x ch Hy Hx Hch).
      rewrite Hout by (try assumption; lia). cbv beta.
      rewrite Hsrc by assumption. reflexivity.
Qed.

(** X30: on a square image the rotation is a genuine quarter turn: four of
    them give the input back. *)
Lemma rotate_square_four_times dm (malloc : allocator) img n c blk :
  valid_image img n n c -> alloc_wf malloc -> malloc (n * n * c) = Some blk ->
  rotate_times dm (fun _ => malloc) 4 img n n c = Def (Some img, n, n).
Proof.
  intros Hv Hwf Hm. pose proof Hv as (Hw & _ & Hc & Hsz & Hlen).
  destruct (rotate_image_90_cw_square_spec dm malloc img n c blk Hv Hwf Hm)
    as (o1 & E1 & Hv1 & S1).
  destruct (rotate_image_90_cw_square_spec dm malloc o1 n c blk Hv1 Hwf Hm)
    as (o2 & E2 & Hv2 & S2).
  destruct (rotate_image_90_cw_square_spec dm malloc o2 n c blk Hv2 Hwf Hm)
    as (o3 & E3 & Hv3 & S3).
  destruct (rotate_image_90_cw_square_spec dm malloc o3 n c blk Hv3 Hwf Hm)
    as (o4 & E4 & Hv4 & S4).
  cbn [rotate_times ub_bind]. rewrite E1. cbn [ub_bind]. rewrite E2. cbn [ub_bind].
  rewrite E3. cbn [ub_bind]. rewrite E4. cbn [ub_bind].
  do 4 f_equal.
  apply (buffer_ext o4 img n n c); try assumption; [apply Hv4 |].
  intros y x ch Hy Hx Hch.
  rewrite S4 by assumption. rewrite S3 by lia. rewrite S2 by lia.
  rewrite S1 by lia. f_equal. f_equal; lia.
Qed.

(** An image wider than tall: the very first sample the rotation reads lies
    past the end of the source buffer. *)
Lemma rotate_image_90_cw_wide_reads_past_buffer dm (malloc : allocator) img w h c blk :
  valid_image img w h c -> 1 <= h < w -> 1 <= c ->
  (w - 1) * w * c <= INT_MAX ->
  malloc (w * h * c) = Some blk ->
  rotate_image_90_cw dm malloc (Some img) w h c = UB.
Proof.
  intros (Hw & Hh & Hc & Hsz & Hlen) Hhw Hc1 Hbig Hm.
  assert (Hnn : 0 <= w * h * c) by (rewrite <- Hlen; lia).
  unfold rotate_image_90_cw. cbv zeta.
  replace (size_mul dm (size_mul dm (to_size dm h) w) c) with (w * h * c).
  2:{ rewrite data_size_valid by lia. ring. }
  rewrite Hm.
  assert (E : load img (sample_index w c (isub (isub w 1) 0) 0 0) = UB).
  { assert (P1 : 0 <= (w - 1) * w) by (apply Z.mul_nonneg_nonneg; lia).
    assert (P2 : 0 <= (w - 1) * w * (c - 1)) by (apply Z.mul_nonneg_nonneg; lia).
    assert (P3 : 0 <= (w - 1 - h) * (w * c)) by (apply Z.mul_nonneg_nonneg; nia).
    unfold INT_MAX in *.
    rewrite isub_mirror by (unfold INT_MAX; lia).
    unfold sample_index, iadd, imul.
    replace (w - 1 - 0) with (w - 1) by lia.
    rewrite (wrap32_id ((w - 1) * w)) by (unfold in_int, INT_MIN, INT_MAX; lia).
    rewrite (wrap32_id ((w - 1) * w + 0)) by (unfold in_int, INT_MIN, INT_MAX; lia).
    rewrite (wrap32_id (((w - 1) * w + 0) * c)) by (unfold in_int, INT_MIN, INT_MAX; lia).
    rewrite wrap32_id by (unfold in_int, INT_MIN, INT_MAX; lia).
    apply load_out_of_bounds. rewrite Hlen. lia. }
  unfold for_range.
  destruct (Z.to_nat (w - 0)) as [| nw] eqn:Ew; [lia |].
  destruct (Z.to_nat (h - 0)) as [| nh] eqn:Eh; [lia |].
  destruct (Z.to_nat (c - 0)) as [| nc] eqn:Ec; [lia |].
  cbn [for_loop ub_bind]. rewrite E. reflexivity.
Qed.

Lemma zeroed_malloc_wf : alloc_wf zeroed_malloc.
Proof.
  intros n blk. unfold zeroed_malloc. destruct (Z.ltb_spec n 0); [discriminate |].
  intros E. inversion E; subst. rewrite length_replicate. lia.
Qed.

Lemma flip_twice_is_identity_witness :
  (exists once,
     flip_image_horizontal LP64 zeroed_malloc (Some [1; 2; 3; 4; 5; 6]) 3 2 1
       = Def (Some once) /\
     flip_image_horizontal LP64 zeroed_malloc (Some once) 3 2 1
       = Def (Some [1; 2; 3; 4; 5; 6])) /\
  (exists once,
     flip_image_vertical LP64 zeroed_malloc (Some [1; 2; 3; 4; 5; 6]) 3 2 1
       = Def (Some once) /\
     flip_image_vertical LP64 zeroed_malloc (Some once) 3 2 1
       = Def (Some [1; 2; 3; 4; 5; 6])).
Proof.
  apply (flip_twice_is_identity LP64 zeroed_malloc [1; 2; 3; 4; 5; 6] 3 2 1
           (replicate 6 0)).
  - unfold valid_image, INT_MAX. simpl. lia.
  - exact zeroed_malloc_wf.
  - reflexivity.
Defined.

(** C2: on a 2x1 image [rotate_image_90_cw] computes the source row as
    [original_w - 1 - x] = 1 although the image has a single row, and reads
    [img_data[2]] past the two-byte buffer; a 1x2 image is read at a negative
    offset.  Four rotations of a non-square image therefore do not give the
    input back. *)
Theorem rotate_image_90_cw_non_square_out_of_bounds :
  sample_index 2 1 (isub (isub 2 1) 0) 0 0 = 2 /\
  rotate_image_90_cw LP64 zeroed_malloc (Some [10; 20]) 2 1 1 = UB /\
  rotate_image_90_cw LP64 zeroed_malloc (Some [10; 20]) 1 2 1 = UB /\
  rotate_times LP64 (fun _ => zeroed_malloc) 4 [10; 20] 2 1 1 = UB.
Proof. vm_compute. repeat split. Qed.

(** ** Pipeline: the source rectangle *)

Lemma source_rectangle_axes cs w h offset_x offset_y zoom :
  source_rectangle cs w h offset_x offset_y zoom =
    let '(x, sw) := crop_axis w offset_x (f2i cs (fdiv (i2f w) zoom)) in
    let '(y, sh) := crop_axis h offset_y (f2i cs (fdiv (i2f h) zoom)) in
    (x, y, sw, sh).
Proof. reflexivity. Qed.

(** As long as [src_x + src_w] does not overflow [int], the clamping keeps
    the window inside the image, whatever length the zoom division gave. *)
Lemma crop_axis_in_bounds n offset len :
  1 <= n <= INT_MAX -> INT_MIN <= offset <= INT_MAX - n ->
  let '(pos, l) := crop_axis n offset len in
  0 <= pos /\ 1 <= l /\ pos + l <= n.
Proof.
  unfold crop_axis, INT_MIN, INT_MAX. intros Hn Ho.
  set (l1 := if len <=? 0 then 1 else len).
  assert (H1 : 1 <= l1) by (subst l1; destruct (Z.leb_spec len 0); lia).
  set (l2 := if n <? l1 then n else l1).
  assert (H2 : 1 <= l2 <= n) by (subst l2; destruct (Z.ltb_spec n l1); lia).
  set (p1 := if offset <? 0 then 0 else offset).
  assert (H3 : 0 <= p1 <= 2147483647 - n)
    by (subst p1; destruct (Z.ltb_spec offset 0); lia).
  unfold iadd, isub.
  rewrite (wrap32_id (p1 + l2)) by (unfold in_int, INT_MIN, INT_MAX; lia).
  rewrite (wrap32_id (n - l2)) by (unfold in_int, INT_MIN, INT_MAX; lia).
  destruct (Z.ltb_spec n (p1 + l2));
    [destruct (Z.ltb_spec (n - l2) 0) | destruct (Z.ltb_spec p1 0)]; lia.
Qed.

(** X29: when the pan offset plus the image size cannot overflow [int], the
    crop window [main] derives lies inside the image and is at least 1 x 1,
    whatever the zoom factor. *)
Lemma source_rectangle_in_bounds cs w h offset_x offset_y zoom :
  1 <= w <= INT_MAX -> 1 <= h <= INT_MAX ->
  INT_MIN <= offset_x <= INT_MAX - w -> INT_MIN <= offset_y <= INT_MAX - h ->
  let '(x, y, sw, sh) := source_rectangle cs w h offset_x offset_y zoom in
  0 <= x /\ 0 <= y /\ 1 <= sw /\ 1 <= sh /\ x + sw <= w /\ y + sh <= h.
Proof.
  intros Hw Hh Hx Hy. rewrite source_rectangle_axes.
  pose proof (crop_axis_in_bounds w offset_x (f2i cs (fdiv (i2f w) zoom)) Hw Hx) as A.
  pose proof (crop_axis_in_bounds h offset_y (f2i cs (fdiv (i2f h) zoom)) Hh Hy) as B.
  destruct (crop_axis w offset_x _) as [x sw].
  destruct (crop_axis h offset_y _) as [y sh]. lia.
Qed.

(** C6: with the pan offset [INT_MAX] on a 1x1 image, [src_x + src_w]
    overflows, the test [src_x + src_w > current_img_w] is false, and the
    window keeps [src_x = 2147483647]: it lies outside the image. *)
Theorem source_rectangle_offset_int_max_escapes :
  iadd 2147483647 1 = INT_MIN /\
  source_rectangle Indefinite 1 1 2147483647 0 (FFin 1) = (2147483647, 0, 1, 1) /\
  source_rectangle Saturating 1 1 2147483647 0 (FFin 1) = (2147483647, 0, 1, 1) /\
  ~ (2147483647 + 1 <= 1).
Proof. split; [reflexivity |]. split; [reflexivity |]. split; [reflexivity | lia]. Qed.

(* ----------------------------------------------------------------- *)
(** ** IEEE-754 binary32: the rounding model *)

(** [round32] against the Standard Library's bit-level binary32, on
    operands that exercise exact, inexact, subnormal and overflowing results. *)
Example round32_agrees_with_SpecFloat :
  forallb agrees_with_SpecFloat
    [ (1, 3, 2, 7); (16777219, 3, 5, 1); (1, 1000000007, -3, 19);
      (123456789, 1, 987654321, 7); (2147483647, 1, 1, 2147483647);
      (-5, 3, 1, 2 ^ 100); (1, 2 ^ 100, 1, 2 ^ 45); (3, 2 ^ 100, 5, 2 ^ 47);
      (2 ^ 100, 1, 2 ^ 30, 1); (2 ^ 127, 1, 2, 1); (255, 255, 1, 2);
      (2 ^ 128 - 2 ^ 103, 1, 1, 1); (2 ^ 128 - 2 ^ 103 - 1, 1, 1, 3);
      (16777217, 1, 16777219, 1); (1, 2 ^ 126, 1, 2 ^ 24); (7, 2 ^ 149, 3, 2 ^ 149) ]
  = true.
Proof. vm_compute. reflexivity. Qed.

(** *** Powers of two *)

Lemma pow2_pos e : (0 < pow2 e)%Q.
Proof. apply Qpower_0_lt. reflexivity. Qed.

Lemma pow2_add a b : (pow2 (a + b) == pow2 a * pow2 b)%Q.
Proof. unfold pow2. apply Qpower_plus. discriminate. Qed.

Lemma pow2_Z n : 0 <= n -> (pow2 n == inject_Z (2 ^ n))%Q.
Proof. intros Hn. unfold pow2. rewrite Zpower_Qpower by exact Hn. reflexivity. Qed.

Lemma pow2_le a b : a <= b -> (pow2 a <= pow2 b)%Q.
Proof. intros H. unfold pow2. apply Qpower_le_compat_l; [exact H | discriminate]. Qed.

Lemma pow2_lt a b : a < b -> (pow2 a < pow2 b)%Q.
Proof. intros H. unfold pow2. apply Qpower_lt_compat_l; [exact H | reflexivity]. Qed.

Lemma pow2_lt_inv a b : (pow2 a < pow2 b)%Q -> a < b.
Proof.
  intros H. destruct (Z.lt_ge_cases a b) as [L | G]; [exact L |].
  apply pow2_le in G. lra.
Qed.

Lemma pow2_succ e : (pow2 (e + 1) == 2 * pow2 e)%Q.
Proof. rewrite pow2_add. change (pow2 1) with 2%Q. ring. Qed.

Lemma pow2_pred e : (pow2 (e - 1) == (1 # 2) * pow2 e)%Q.
Proof.
  assert (H : (pow2 e == 2 * pow2 (e - 1))%Q).
  { replace e with (e - 1 + 1) at 1 by lia. apply pow2_succ. }
  rewrite H. ring.
Qed.

(** *** [ilog2] *)

Lemma Qnum_nonzero q : ~ (q == 0)%Q -> Qnum q <> 0.
Proof.
  destruct q as [n d]. unfold Qeq. simpl. lia.
Qed.

Lemma ilog2_spec q :
  ~ (q == 0)%Q -> (pow2 (ilog2 q) <= Qabs q < pow2 (ilog2 q + 1))%Q.
Proof.
  intros Hq. pose proof (Qnum_nonzero q Hq) as Hn.
  destruct q as [n d]. simpl in Hn.
  unfold ilog2. cbn [Qnum Qden Qabs].
  set (N := Z.abs n). assert (HN : 0 < N) by (subst N; lia).
  set (ln := Z.log2 N). set (ld := Z.log2 (Zpos d)).
  assert (Hln : 0 <= ln) by apply Z.log2_nonneg.
  assert (Hld : 0 <= ld) by apply Z.log2_nonneg.
  destruct (Z.log2_spec N HN) as [N1 N2]. fold ln in N1, N2.
  destruct (Z.log2_spec (Zpos d) ltac:(lia)) as [D1 D2]. fold ld in D1, D2.
  assert (A : (pow2 (ln - ld - 1) < N # d)%Q).
  { apply (Qmult_lt_r _ _ (pow2 (ld + 1))); [apply pow2_pos |].
    rewrite <- pow2_add. replace (ln - ld - 1 + (ld + 1)) with ln by lia.
    rewrite !pow2_Z by lia. unfold Qlt, Qmult, inject_Z. cbn [Qnum Qden].
    rewrite !Z.mul_1_r. rewrite Pos.mul_1_r.
    replace (Z.succ ld) with (ld + 1) in D2 by lia.
    apply Z.le_lt_trans with (N * Zpos d); [apply Z.mul_le_mono_nonneg_r; lia |].
    apply Z.mul_lt_mono_pos_l; lia. }
  assert (B : (N # d < pow2 (ln - ld + 1))%Q).
  { apply (Qmult_lt_r _ _ (pow2 ld)); [apply pow2_pos |].
    rewrite <- pow2_add. replace (ln - ld + 1 + ld) with (ln + 1) by lia.
    rewrite !pow2_Z by lia. unfold Qlt, Qmult, inject_Z. cbn [Qnum Qden].
    rewrite !Z.mul_1_r. rewrite Pos.mul_1_r.
    replace (Z.succ ln) with (ln + 1) in N2 by lia.
    apply Z.le_lt_trans with (N * Zpos d); [apply Z.mul_le_mono_nonneg_l; lia |].
    apply Z.mul_lt_mono_pos_r; lia. }
  destruct (Qle_bool (pow2 (ln - ld)) (N # d)) eqn:E.
  - apply Qle_bool_iff in E. split; [exact E | exact B].
  - assert (E' : ~ (pow2 (ln - ld) <= N # d)%Q).
    { intros H. apply Qle_bool_iff in H. congruence. }
    split; [apply Qlt_le_weak; exact A |].
    replace (ln - ld - 1 + 1) with (ln - ld) by lia. lra.
Qed.

Lemma ilog2_unique q e :
  (pow2 e <= Qabs q < pow2 (e + 1))%Q -> ilog2 q = e.
Proof.
  intros [H1 H2].
  assert (Hq : ~ (q == 0)%Q).
  { intros E. rewrite E in H1. pose proof (pow2_pos e). change (Qabs 0) with 0%Q in H1. lra. }
  destruct (ilog2_spec q Hq) as [S1 S2].
  assert (L1 : ilog2 q < e + 1) by (apply pow2_lt_inv; lra).
  assert (L2 : e < ilog2 q + 1) by (apply pow2_lt_inv; lra).
  lia.
Qed.

Lemma ilog2_proper q q' : (q == q')%Q -> ~ (q == 0)%Q -> ilog2 q = ilog2 q'.
Proof.
  intros E Hq. symmetry. apply ilog2_unique. rewrite <- E. apply ilog2_spec. exact Hq.
Qed.

Lemma ilog2_lt q k : ~ (q == 0)%Q -> (Qabs q < pow2 k)%Q -> ilog2 q < k.
Proof.
  intros Hq H. destruct (ilog2_spec q Hq) as [S1 _]. apply pow2_lt_inv. lra.
Qed.

Lemma ilog2_ge q k : (pow2 k <= Qabs q)%Q -> k <= ilog2 q.
Proof.
  intros H.
  assert (Hq : ~ (q == 0)%Q).
  { intros E. rewrite E in H. pose proof (pow2_pos k). change (Qabs 0) with 0%Q in H. lra. }
  destruct (ilog2_spec q Hq) as [_ S2].
  assert (k < ilog2 q + 1) by (apply pow2_lt_inv; lra). lia.
Qed.

(** *** Rounding to the nearest integer *)

Lemma rne_err x : (Qabs (inject_Z (rne x) - x) <= 1 # 2)%Q.
Proof.
  unfold rne. pose proof (Qfloor_le x) as F1. pose proof (Qlt_floor x) as F2.
  rewrite inject_Z_plus in F2. change (inject_Z 1) with 1%Q in F2.
  apply Qabs_Qle_condition.
  destruct (Qcompare_spec (x - inject_Z (Qfloor x)) (1 # 2)) as [E | L | G].
  - destruct (Z.even (Qfloor x)); [| rewrite inject_Z_plus; change (inject_Z 1) with 1%Q]; lra.
  - lra.
  - rewrite inject_Z_plus. change (inject_Z 1) with 1%Q. lra.
Qed.

Lemma rne_proper x y : (x == y)%Q -> rne x = rne y.
Proof.
  intros E. unfold rne. rewrite (Qfloor_comp _ _ E).
  assert (E' : (x - inject_Z (Qfloor y) == y - inject_Z (Qfloor y))%Q) by (rewrite E; reflexivity).
  rewrite (Qcompare_comp _ _ E' (1 # 2) (1 # 2) (Qeq_refl _)). reflexivity.
Qed.

Lemma rne_Z n : rne (inject_Z n) = n.
Proof.
  unfold rne. rewrite Qfloor_Z.
  assert (E : (inject_Z n - inject_Z n ?= 1 # 2)%Q = Lt).
  { rewrite <- Qlt_alt. lra. }
  rewrite E. reflexivity.
Qed.

Lemma rne_int x n : (x == inject_Z n)%Q -> rne x = n.
Proof. intros E. rewrite (rne_proper _ _ E). apply rne_Z. Qed.

Lemma rne_le x n : (x <= inject_Z n)%Q -> rne x <= n.
Proof.
  intros H. pose proof (rne_err x) as E. apply Qabs_Qle_condition in E.
  assert (L : (inject_Z (rne x) < inject_Z (n + 1))%Q).
  { rewrite inject_Z_plus. change (inject_Z 1) with 1%Q. lra. }
  rewrite <- Zlt_Qlt in L. lia.
Qed.

Lemma rne_ge x n : (inject_Z n <= x)%Q -> n <= rne x.
Proof.
  intros H. pose proof (rne_err x) as E. apply Qabs_Qle_condition in E.
  assert (L : (inject_Z (n - 1) < inject_Z (rne x))%Q).
  { unfold Z.sub. rewrite inject_Z_plus, inject_Z_opp. change (inject_Z 1) with 1%Q. lra. }
  rewrite <- Zlt_Qlt in L. lia.
Qed.

(** *** [round32] *)

Lemma Qabs_0 : Qabs 0 = 0%Q.
Proof. reflexivity. Qed.

Lemma round32_zero q : (q == 0)%Q -> round32 q = FFin 0.
Proof. intros E. unfold round32. rewrite (Qeq_eq_bool _ _ E). reflexivity. Qed.

Lemma ulp_exp_ge q : -149 <= ulp_exp q.
Proof. unfold ulp_exp. lia. Qed.

Lemma ulp_exp_proper q q' : (q == q')%Q -> ~ (q == 0)%Q -> ulp_exp q = ulp_exp q'.
Proof. intros E Hq. unfold ulp_exp. now rewrite (ilog2_proper q q' E Hq). Qed.

(** The half-ulp error of the integer significand, scaled back. *)
Lemma scaled_rne_err q c :
  (Qabs (inject_Z (rne (q / pow2 c)) * pow2 c - q) <= pow2 (c - 1))%Q.
Proof.
  pose proof (pow2_pos c) as Hc. pose proof (rne_err (q / pow2 c)) as E.
  assert (Eq : (inject_Z (rne (q / pow2 c)) * pow2 c - q
                == (inject_Z (rne (q / pow2 c)) - q / pow2 c) * pow2 c)%Q).
  { field. lra. }
  rewrite Eq, Qabs_Qmult, (Qabs_pos (pow2 c)) by lra.
  rewrite pow2_pred.
  apply Qmult_le_compat_r; [exact E | lra].
Qed.

Lemma round32_spec q :
  ~ (q == 0)%Q -> (Qabs q < pow2 127)%Q ->
  exists r, round32 q = FFin r /\
    (r == inject_Z (rne (q / pow2 (ulp_exp q))) * pow2 (ulp_exp q))%Q /\
    (Qabs (r - q) <= pow2 (ulp_exp q - 1))%Q.
Proof.
  intros Hq Hlt. unfold round32.
  destruct (Qeq_bool q 0) eqn:E0; [apply Qeq_bool_eq in E0; contradiction |].
  cbv zeta. set (c := ulp_exp q).
  set (r := (inject_Z (rne (q / pow2 c)) * pow2 c)%Q).
  pose proof (scaled_rne_err q c) as Herr. fold r in Herr.
  assert (Hc : c <= 103).
  { subst c. unfold ulp_exp. pose proof (ilog2_lt q 127 Hq Hlt). lia. }
  assert (Hhalf : (pow2 (c - 1) <= pow2 102)%Q) by (apply pow2_le; lia).
  assert (Hr : (Qabs r < pow2 128)%Q).
  { assert (T : (Qabs r <= Qabs (r - q) + Qabs q)%Q).
    { apply Qle_trans with (Qabs ((r - q) + q)); [| apply Qabs_triangle].
      apply Qle_lteq. right. apply Qabs_wd. ring. }
    assert (P : (pow2 127 + pow2 102 < pow2 128)%Q) by reflexivity.
    lra. }
  destruct (Qle_bool (pow2 128) (Qabs r)) eqn:E1.
  - apply Qle_bool_iff in E1. lra.
  - exists (Qred r). split; [reflexivity |]. split; [apply Qred_correct |].
    rewrite Qred_correct. exact Herr.
Qed.

Lemma round32_proper q q' : (q == q')%Q -> round32 q = round32 q'.
Proof.
  intros E. unfold round32. rewrite (Qeqb_comp q q' E 0%Q 0%Q (Qeq_refl _)).
  destruct (Qeq_bool q' 0) eqn:E0; [reflexivity |].
  assert (Hq : ~ (q == 0)%Q).
  { rewrite E. intros H. apply Qeq_eq_bool in H. congruence. }
  cbv zeta. rewrite (ulp_exp_proper q q' E Hq).
  set (c := ulp_exp q').
  assert (Em : rne (q / pow2 c) = rne (q' / pow2 c)).
  { apply rne_proper. rewrite E. reflexivity. }
  rewrite Em. rewrite (Qleb_comp 0%Q 0%Q (Qeq_refl _) q q' E). reflexivity.
Qed.

(** Absolute error: below [2^k] the rounding moves a value by at most half
    an ulp of that binade. *)
Lemma round32_abs q k :
  -125 <= k <= 127 -> (Qabs q < pow2 k)%Q ->
  exists r, round32 q = FFin r /\ (Qabs (r - q) <= pow2 (k - 25))%Q.
Proof.
  intros Hk Hlt.
  destruct (Qeq_dec q 0) as [E | Hq].
  - exists 0%Q. split; [apply round32_zero; exact E |].
    assert (Ez : (Qabs (0 - q) == 0)%Q).
    { rewrite (Qabs_wd (0 - q) 0) by (rewrite E; ring). reflexivity. }
    rewrite Ez. apply Qlt_le_weak, pow2_pos.
  - assert (H127 : (Qabs q < pow2 127)%Q).
    { apply Qlt_le_trans with (pow2 k); [exact Hlt | apply pow2_le; lia]. }
    destruct (round32_spec q Hq H127) as (r & E & _ & Herr).
    exists r. split; [exact E |].
    apply Qle_trans with (pow2 (ulp_exp q - 1)); [exact Herr |].
    apply pow2_le. unfold ulp_exp. pose proof (ilog2_lt q k Hq Hlt). lia.
Qed.

(** Relative error in the normal range. *)
Lemma round32_rel q :
  (pow2 (-126) <= Qabs q)%Q -> (Qabs q < pow2 127)%Q ->
  exists r, round32 q = FFin r /\ (Qabs (r - q) <= pow2 (-24) * Qabs q)%Q.
Proof.
  intros Hlo Hhi.
  assert (Hq : ~ (q == 0)%Q).
  { intros E. rewrite E, Qabs_0 in Hlo. pose proof (pow2_pos (-126)). lra. }
  destruct (round32_spec q Hq Hhi) as (r & E & _ & Herr).
  exists r. split; [exact E |].
  apply Qle_trans with (pow2 (ulp_exp q - 1)); [exact Herr |].
  pose proof (ilog2_ge q (-126) Hlo) as Hge.
  destruct (ilog2_spec q Hq) as [S1 _].
  unfold ulp_exp. rewrite Z.max_l by lia.
  replace (ilog2 q - 23 - 1) with (-24 + ilog2 q) by lia.
  rewrite pow2_add. apply Qmult_le_l; [apply pow2_pos | exact S1].
Qed.

Lemma round32_nonneg q r : (0 <= q)%Q -> round32 q = FFin r -> (0 <= r)%Q.
Proof.
  intros Hq. unfold round32. destruct (Qeq_bool q 0).
  - intros E. inversion E. lra.
  - cbv zeta. destruct (Qle_bool _ _); [discriminate |].
    intros E. inversion E. rewrite Qred_correct.
    pose proof (pow2_pos (ulp_exp q)) as Hc.
    apply Qmult_le_0_compat; [| lra].
    change 0%Q with (inject_Z 0). rewrite <- Zle_Qle. apply rne_ge.
    change (inject_Z 0) with 0%Q. apply Qle_shift_div_l; lra.
Qed.

Lemma round32_nonpos q r : (q <= 0)%Q -> round32 q = FFin r -> (r <= 0)%Q.
Proof.
  intros Hq. unfold round32. destruct (Qeq_bool q 0).
  - intros E. inversion E. lra.
  - cbv zeta. destruct (Qle_bool _ _); [discriminate |].
    intros E. inversion E. rewrite Qred_correct.
    pose proof (pow2_pos (ulp_exp q)) as Hc.
    assert (M : (inject_Z (rne (q / pow2 (ulp_exp q))) <= 0)%Q).
    { change 0%Q with (inject_Z 0). rewrite <- Zle_Qle. apply rne_le.
      change (inject_Z 0) with 0%Q. apply Qle_shift_div_r; lra. }
    nra.
Qed.

(** *** Representable values *)

Lemma Qabs_inject_Z n : Qabs (inject_Z n) = inject_Z (Z.abs n).
Proof. reflexivity. Qed.

Lemma round32_repr q r : round32 q = FFin r -> repr32 r.
Proof.
  unfold round32. destruct (Qeq_bool q 0) eqn:E0.
  - intros E. inversion E. exists 0, 0. split; [reflexivity | split; [simpl |]; lia].
  - apply Qeq_bool_neq in E0. cbv zeta.
    destruct (Qle_bool _ _); [discriminate |]. intros E. inversion E.
    exists (rne (q / pow2 (ulp_exp q))), (ulp_exp q).
    split; [apply Qred_correct |]. split; [| apply ulp_exp_ge].
    destruct (ilog2_spec q E0) as [_ S2].
    pose proof (pow2_pos (ulp_exp q)) as Hc.
    assert (Hb : (Qabs q <= pow2 24 * pow2 (ulp_exp q))%Q).
    { rewrite <- pow2_add. apply Qle_trans with (pow2 (ilog2 q + 1)); [lra |].
      apply pow2_le. unfold ulp_exp. lia. }
    assert (Hd : (Qabs (q / pow2 (ulp_exp q)) <= pow2 24)%Q).
    { unfold Qdiv. rewrite Qabs_Qmult, Qabs_Qinv, (Qabs_pos (pow2 (ulp_exp q))) by lra.
      apply Qle_shift_div_r; [exact Hc | exact Hb]. }
    apply Qabs_Qle_condition in Hd. destruct Hd as [D1 D2].
    change (pow2 24) with (inject_Z (2 ^ 24)) in D1, D2.
    rewrite <- inject_Z_opp in D1.
    apply rne_ge in D1. apply rne_le in D2. lia.
Qed.

Lemma pow2_nonneg_int m c : 0 <= c -> (inject_Z m * pow2 c == inject_Z (m * 2 ^ c))%Q.
Proof. intros Hc. rewrite pow2_Z by exact Hc. rewrite inject_Z_mult. reflexivity. Qed.

Lemma round32_exact x :
  repr32 x -> (Qabs x < pow2 128)%Q -> exists r, round32 x = FFin r /\ (r == x)%Q.
Proof.
  intros (m & c & Ex & Hm & Hc) Hlt.
  destruct (Qeq_dec x 0) as [E0 | Hx].
  { exists 0%Q. split; [apply round32_zero; exact E0 | symmetry; exact E0]. }
  unfold round32. destruct (Qeq_bool x 0) eqn:B0; [apply Qeq_bool_eq in B0; contradiction |].
  cbv zeta.
  assert (Hint : exists k : Z, (x / pow2 (ulp_exp x) == inject_Z k)%Q).
  { set (c' := ulp_exp x).
    pose proof (pow2_pos c') as Hc'. pose proof (pow2_pos c) as Hpc.
    destruct (Z.le_gt_cases c' c) as [L | G].
    - exists (m * 2 ^ (c - c')).
      rewrite <- pow2_nonneg_int by lia. rewrite Ex.
      replace c with ((c - c') + c') at 1 by lia. rewrite pow2_add. field. lra.
    - (* the significand is a full 2^24 *)
      destruct (ilog2_spec x Hx) as [S1 S2].
      assert (Ec' : c' = ilog2 x - 23) by (subst c'; unfold ulp_exp in *; lia).
      assert (Habs : (Qabs x == inject_Z (Z.abs m) * pow2 c)%Q).
      { rewrite Ex, Qabs_Qmult, (Qabs_pos (pow2 c)) by lra. reflexivity. }
      assert (Hge : (pow2 24 * pow2 c <= Qabs x)%Q).
      { rewrite <- pow2_add. apply Qle_trans with (pow2 (ilog2 x)); [| exact S1].
        apply pow2_le. lia. }
      assert (Hm' : Z.abs m = 2 ^ 24).
      { rewrite Habs in Hge. change (pow2 24) with (inject_Z (2 ^ 24)) in Hge.
        apply Qmult_le_r in Hge; [| exact Hpc]. rewrite <- Zle_Qle in Hge. lia. }
      assert (Elog : ilog2 x = 24 + c).
      { apply ilog2_unique. rewrite Habs, Hm'.
        change (inject_Z (2 ^ 24)) with (pow2 24). rewrite <- pow2_add.
        split; [apply Qle_refl | apply pow2_lt; lia]. }
      exists (m / 2).
      assert (Em : m = 2 * (m / 2)).
      { destruct (Z.abs_eq_or_opp m) as [A | A]; rewrite Hm' in A.
        - rewrite <- A. reflexivity.
        - assert (m = - 2 ^ 24) by lia. subst m. reflexivity. }
      rewrite Ex. rewrite Em at 1. rewrite inject_Z_mult.
      replace c' with (c + 1) by lia. rewrite pow2_succ.
      change (inject_Z 2) with 2%Q. field. lra. }
  destruct Hint as [k Hk].
  rewrite (rne_int _ _ Hk).
  pose proof (pow2_pos (ulp_exp x)) as Hc'.
  assert (Er : (inject_Z k * pow2 (ulp_exp x) == x)%Q).
  { rewrite <- Hk. field. lra. }
  rewrite (Qleb_comp _ _ (Qeq_refl (pow2 128)) _ _ (Qabs_wd _ _ Er)).
  destruct (Qle_bool (pow2 128) (Qabs x)) eqn:B1.
  - apply Qle_bool_iff in B1. lra.
  - exists (Qred (inject_Z k * pow2 (ulp_exp x))). split; [reflexivity |].
    rewrite Qred_correct. exact Er.
Qed.

Lemma repr32_small_int n : Z.abs n <= 2 ^ 24 -> repr32 (inject_Z n).
Proof.
  intros Hn. exists n, 0. split; [| split; [exact Hn | lia]].
  change (pow2 0) with 1%Q. ring.
Qed.

Lemma i2f_small n :
  Z.abs n <= 2 ^ 24 -> exists r, i2f n = FFin r /\ (r == inject_Z n)%Q.
Proof.
  intros Hn. apply round32_exact; [apply repr32_small_int; exact Hn |].
  rewrite Qabs_inject_Z. change (pow2 128) with (inject_Z (2 ^ 128)).
  rewrite <- Zlt_Qlt. lia.
Qed.

(** *** Truncation *)

Lemma Qtrunc_proper x y : (x == y)%Q -> Qtrunc x = Qtrunc y.
Proof.
  intros E. unfold Qtrunc, Qceiling.
  rewrite (Qleb_comp _ _ (Qeq_refl 0%Q) _ _ E).
  rewrite (Qfloor_comp _ _ E).
  assert (E' : (- x == - y)%Q) by (rewrite E; reflexivity).
  rewrite (Qfloor_comp _ _ E'). reflexivity.
Qed.

Lemma Qtrunc_Z n : Qtrunc (inject_Z n) = n.
Proof.
  unfold Qtrunc. destruct (Qle_bool 0 (inject_Z n)); [apply Qfloor_Z | apply Qceiling_Z].
Qed.

Lemma Qtrunc_nonneg x :
  (0 <= x)%Q -> 0 <= Qtrunc x /\ (inject_Z (Qtrunc x) <= x < inject_Z (Qtrunc x) + 1)%Q.
Proof.
  intros Hx. unfold Qtrunc. rewrite (proj2 (Qle_bool_iff 0 x) Hx).
  pose proof (Qfloor_le x) as F1. pose proof (Qlt_floor x) as F2.
  rewrite inject_Z_plus in F2. change (inject_Z 1) with 1%Q in F2.
  split; [| split; assumption].
  change 0 with (Qfloor (inject_Z 0)). apply Qfloor_resp_le. exact Hx.
Qed.

Lemma Qtrunc_nonpos x :
  (x <= 0)%Q -> Qtrunc x <= 0 /\ (inject_Z (Qtrunc x) - 1 < x <= inject_Z (Qtrunc x))%Q.
Proof.
  intros Hx. pose proof (Qle_ceiling x) as C1. pose proof (Qceiling_lt x) as C2.
  unfold Z.sub in C2. rewrite inject_Z_plus, inject_Z_opp in C2.
  change (inject_Z 1) with 1%Q in C2.
  assert (Hc : Qceiling x <= 0).
  { change 0 with (Qceiling (inject_Z 0)). apply Qceiling_resp_le. exact Hx. }
  unfold Qtrunc. destruct (Qle_bool 0 x) eqn:B.
  - apply Qle_bool_iff in B. assert (E : (x == inject_Z 0)%Q) by (change (inject_Z 0) with 0%Q; lra).
    rewrite (Qfloor_comp _ _ E), Qfloor_Z.
    split; [lia |]. change (inject_Z 0) with 0%Q. lra.
  - split; [exact Hc |]. lra.
Qed.

Lemma Qtrunc_abs_le x : (Qabs (inject_Z (Qtrunc x)) <= Qabs x)%Q.
Proof.
  destruct (Qlt_le_dec x 0) as [L | G].
  - destruct (Qtrunc_nonpos x ltac:(lra)) as (T1 & T2 & T3).
    rewrite (Qabs_neg x) by lra. rewrite Qabs_neg; [lra |].
    change 0%Q with (inject_Z 0). rewrite <- Zle_Qle. exact T1.
  - destruct (Qtrunc_nonneg x G) as (T1 & T2 & T3).
    rewrite (Qabs_pos x) by lra. rewrite Qabs_pos; [lra |].
    change 0%Q with (inject_Z 0). rewrite <- Zle_Qle. exact T1.
Qed.

Lemma Qtrunc_frac x : (Qabs (x - inject_Z (Qtrunc x)) < 1)%Q.
Proof.
  apply Qabs_Qlt_condition.
  destruct (Qlt_le_dec x 0) as [L | G].
  - destruct (Qtrunc_nonpos x ltac:(lra)) as (T1 & T2 & T3). lra.
  - destruct (Qtrunc_nonneg x G) as (T1 & T2 & T3). lra.
Qed.

(** The truncation of a representable value is representable. *)
Lemma repr32_Qtrunc x : repr32 x -> repr32 (inject_Z (Qtrunc x)).
Proof.
  intros (m & c & Ex & Hm & Hc).
  destruct (Z.le_gt_cases 0 c) as [L | G].
  - exists m, c. split; [| split; assumption].
    assert (E2 : (x == inject_Z (m * 2 ^ c))%Q).
    { rewrite Ex. apply pow2_nonneg_int. exact L. }
    rewrite (Qtrunc_proper _ _ E2), Qtrunc_Z. symmetry.
    apply pow2_nonneg_int. exact L.
  - apply repr32_small_int.
    pose proof (Qtrunc_abs_le x) as T. rewrite Qabs_inject_Z in T.
    assert (Hx : (Qabs x <= inject_Z (2 ^ 24))%Q).
    { rewrite Ex, Qabs_Qmult, Qabs_inject_Z.
      pose proof (pow2_pos c) as Hpc. rewrite (Qabs_pos (pow2 c)) by lra.
      assert (P1 : (pow2 c <= 1)%Q) by (change 1%Q with (pow2 0); apply pow2_le; lia).
      assert (P2 : (0 <= inject_Z (Z.abs m) <= inject_Z (2 ^ 24))%Q).
      { split; [change 0%Q with (inject_Z 0) |]; rewrite <- Zle_Qle; lia. }
      nra. }
    assert (T' : (inject_Z (Z.abs (Qtrunc x)) <= inject_Z (2 ^ 24))%Q) by lra.
    rewrite <- Zle_Qle in T'. exact T'.
Qed.

Lemma f2i_in_range cs x :
  INT_MIN <= Qtrunc x <= INT_MAX -> f2i cs (FFin x) = Qtrunc x.
Proof.
  intros [H1 H2]. unfold f2i.
  destruct (Z.leb_spec INT_MIN (Qtrunc x)); [| lia].
  destruct (Z.leb_spec (Qtrunc x) INT_MAX); [| lia]. reflexivity.
Qed.

(** *** Error bounds for the operations *)

Lemma Qabs_mult_le x y X Y :
  (Qabs x <= X)%Q -> (Qabs y <= Y)%Q -> (Qabs (x * y) <= X * Y)%Q.
Proof.
  intros Hx Hy. rewrite Qabs_Qmult.
  pose proof (Qabs_nonneg x). pose proof (Qabs_nonneg y).
  apply Qmult_le_compat_nonneg; split; assumption.
Qed.

Lemma fadd_abs x y k :
  -125 <= k <= 127 -> (Qabs (x + y) < pow2 k)%Q ->
  exists r, fadd (FFin x) (FFin y) = FFin r /\ (Qabs (r - (x + y)) <= pow2 (k - 25))%Q.
Proof. intros Hk H. exact (round32_abs (x + y) k Hk H). Qed.

Lemma fsub_abs x y k :
  -125 <= k <= 127 -> (Qabs (x - y) < pow2 k)%Q ->
  exists r, fsub (FFin x) (FFin y) = FFin r /\ (Qabs (r - (x - y)) <= pow2 (k - 25))%Q.
Proof. intros Hk H. exact (round32_abs (x + - y) k Hk H). Qed.

Lemma fmul_abs x y k :
  -125 <= k <= 127 -> (Qabs (x * y) < pow2 k)%Q ->
  exists r, fmul (FFin x) (FFin y) = FFin r /\ (Qabs (r - x * y) <= pow2 (k - 25))%Q.
Proof. intros Hk H. exact (round32_abs (x * y) k Hk H). Qed.

(** Interpolating between two equal samples gives the sample back, up to
    rounding: [x * (1 - t) + x * t] for a weight [|t| <= 2]. *)
Lemma lerp_const x t :
  (Qabs x <= 300)%Q -> (Qabs t <= 2)%Q ->
  exists s, fadd (fmul (FFin x) (fsub f_one (FFin t))) (fmul (FFin x) (FFin t)) = FFin s /\
            (Qabs (s - x) <= 1 # 1024)%Q.
Proof.
  intros Hx Ht.
  destruct (fsub_abs 1 t 2) as (a & Ea & Ha); [lia | |].
  { apply Qabs_Qle_condition in Ht. apply Qabs_Qlt_condition.
    change (pow2 2) with 4%Q. lra. }
  change (pow2 (2 - 25)) with (1 # 8388608)%Q in Ha.
  unfold f_one. rewrite Ea.
  assert (Ba : (Qabs a <= 4)%Q).
  { apply Qabs_Qle_condition in Ht, Ha. apply Qabs_Qle_condition. lra. }
  pose proof (Qabs_mult_le x a 300 4 Hx Ba) as Bxa.
  pose proof (Qabs_mult_le x t 300 2 Hx Ht) as Bxt.
  destruct (fmul_abs x a 11) as (p1 & E1 & H1); [lia | |].
  { change (pow2 11) with 2048%Q. lra. }
  destruct (fmul_abs x t 11) as (p2 & E2 & H2); [lia | |].
  { change (pow2 11) with 2048%Q. lra. }
  change (pow2 (11 - 25)) with (1 # 16384)%Q in H1, H2.
  rewrite E1, E2.
  pose proof (Qabs_mult_le x (a - (1 - t)) 300 (1 # 8388608) Hx Ha) as Bd.
  apply Qabs_Qle_condition in Bxa, Bxt, H1, H2, Bd.
  destruct (fadd_abs p1 p2 12) as (s & Es & Hs); [lia | |].
  { apply Qabs_Qlt_condition. change (pow2 12) with 4096%Q. lra. }
  change (pow2 (12 - 25)) with (1 # 8192)%Q in Hs.
  exists s. split; [exact Es |].
  apply Qabs_Qle_condition in Hs. apply Qabs_Qle_condition.
  assert (Eq : (x * (a - (1 - t)) == x * a + x * t - x)%Q) by ring.
  rewrite Eq in Bd. lra.
Qed.

Lemma Qtrunc_unique g v :
  (inject_Z v <= g < inject_Z v + 1)%Q -> 0 <= v -> Qtrunc g = v.
Proof.
  intros [G1 G2] Hv.
  assert (Hg : (0 <= g)%Q).
  { apply Qle_trans with (inject_Z v); [| exact G1].
    change 0%Q with (inject_Z 0). rewrite <- Zle_Qle. exact Hv. }
  destruct (Qtrunc_nonneg g Hg) as (_ & T1 & T2).
  assert (L1 : (inject_Z (Qtrunc g) < inject_Z (v + 1))%Q).
  { rewrite inject_Z_plus. change (inject_Z 1) with 1%Q. lra. }
  assert (L2 : (inject_Z v < inject_Z (Qtrunc g + 1))%Q).
  { rewrite inject_Z_plus. change (inject_Z 1) with 1%Q. lra. }
  rewrite <- Zlt_Qlt in L1, L2. lia.
Qed.

Lemma f2uchar_of_sample cs g v :
  0 <= v <= 255 -> Qtrunc g = v -> f2uchar cs (FFin g) = v.
Proof.
  intros Hv Hg. destruct cs; unfold f2uchar.
  - rewrite f2i_in_range by (rewrite Hg; unfold INT_MIN, INT_MAX; lia).
    rewrite Hg. apply Z.mod_small. lia.
  - rewrite Hg. rewrite Z.min_l by lia. rewrite Z.max_r by lia.
    apply Z.mod_small. lia.
Qed.

(** The bilinear blend of four equal samples is that sample. *)
Lemma resize_sample_uniform cs img W C x1 y1 x2 y2 t t' c v :
  load img (sample_index W C y1 x1 c) = Def v ->
  load img (sample_index W C y1 x2 c) = Def v ->
  load img (sample_index W C y2 x1 c) = Def v ->
  load img (sample_index W C y2 x2 c) = Def v ->
  0 <= v <= 255 -> (Qabs t <= 2)%Q -> (Qabs t' <= 2)%Q ->
  resize_sample cs img W C x1 y1 x2 y2 (FFin t) (FFin t') c = Def v.
Proof.
  intros L11 L21 L12 L22 Hv Ht Ht'. unfold resize_sample.
  rewrite L11, L21, L12, L22. cbn [ub_bind].
  destruct (i2f_small v) as (r & Er & Hr); [lia |]. rewrite Er.
  assert (Br : (Qabs r <= 300)%Q).
  { rewrite Hr, Qabs_inject_Z. change 300%Q with (inject_Z 300).
    rewrite <- Zle_Qle. lia. }
  destruct (lerp_const r t Br Ht) as (s1 & E1 & H1). rewrite E1.
  assert (Bs1 : (Qabs s1 <= 300)%Q).
  { apply Qabs_Qle_condition in H1. apply Qabs_Qle_condition.
    assert (R1 : (0 <= r <= 255)%Q).
    { rewrite Hr. change 0%Q with (inject_Z 0). change 255%Q with (inject_Z 255).
      rewrite <- !Zle_Qle. lia. }
    lra. }
  destruct (lerp_const s1 t' Bs1 Ht') as (s2 & E2 & H2). rewrite E2.
  apply Qabs_Qle_condition in H1, H2.
  assert (R1 : (0 <= r <= 255)%Q).
  { rewrite Hr. change 0%Q with (inject_Z 0). change 255%Q with (inject_Z 255).
    rewrite <- !Zle_Qle. lia. }
  destruct (fadd_abs s2 (1 # 2) 9) as (g & Eg & Hg); [lia | |].
  { apply Qabs_Qlt_condition. change (pow2 9) with 512%Q. lra. }
  change (pow2 (9 - 25)) with (1 # 65536)%Q in Hg.
  unfold f_half. rewrite Eg. f_equal.
  apply f2uchar_of_sample; [exact Hv |].
  apply Qabs_Qle_condition in Hg.
  apply Qtrunc_unique; [| lia]. rewrite <- Hr. lra.
Qed.

(* ----------------------------------------------------------------- *)
(** ** Resampler *)

(** *** Conversions and the source coordinate *)

Lemma inject_Z_bounds n lo hi :
  lo <= n <= hi -> (inject_Z lo <= inject_Z n <= inject_Z hi)%Q.
Proof. intros [H1 H2]. rewrite <- !Zle_Qle. split; assumption. Qed.

(** [(float)n] for a positive [int]: relative error at most [2^-24]. *)
Lemma i2f_rel n :
  1 <= n <= INT_MAX ->
  exists r, i2f n = FFin r /\
    (inject_Z n * (1 - (1 # 16777216)) <= r <= inject_Z n * (1 + (1 # 16777216)))%Q.
Proof.
  unfold INT_MAX. intros Hn.
  pose proof (inject_Z_bounds n 1 2147483647 Hn) as [B1 B2].
  change (inject_Z 1) with 1%Q in B1. change (inject_Z 2147483647) with 2147483647%Q in B2.
  destruct (round32_rel (inject_Z n)) as (r & E & Hr).
  - rewrite Qabs_pos by lra. apply Qle_trans with 1%Q; [| exact B1]. discriminate.
  - rewrite Qabs_pos by lra. apply Qle_lt_trans with 2147483647%Q; [exact B2 | reflexivity].
  - exists r. split; [exact E |].
    rewrite (Qabs_pos (inject_Z n)) in Hr by lra.
    change (pow2 (-24)) with (1 # 16777216)%Q in Hr.
    apply Qabs_Qle_condition in Hr. lra.
Qed.

Lemma i2f_nonneg_rel n :
  0 <= n <= INT_MAX ->
  exists r, i2f n = FFin r /\
    (inject_Z n * (1 - (1 # 16777216)) <= r <= inject_Z n * (1 + (1 # 16777216)))%Q.
Proof.
  intros Hn. destruct (Z.eq_dec n 0) as [-> | Hne].
  - exists 0%Q. split; [reflexivity |]. change (inject_Z 0) with 0%Q. lra.
  - apply i2f_rel. lia.
Qed.

(** The quotient of two positive values in the range of [int] conversions. *)
Lemma fdiv_rel a b :
  ((1 # 2) <= a <= 4294967296)%Q -> ((1 # 2) <= b <= 4294967296)%Q ->
  exists r, fdiv (FFin a) (FFin b) = FFin r /\
    ((a / b) * (1 - (1 # 16777216)) <= r <= (a / b) * (1 + (1 # 16777216)))%Q.
Proof.
  intros Ha Hb. unfold fdiv.
  destruct (Qeq_bool b 0) eqn:E0; [apply Qeq_bool_eq in E0; lra |].
  assert (Hinv : (/ 4294967296 <= / b <= 2)%Q).
  { split.
    - apply Qle_shift_inv_l; [lra |]. 
      assert (X : (/ 4294967296 * b == b / 4294967296)%Q) by (field).
      rewrite X. apply Qle_shift_div_r; [reflexivity | lra].
    - apply Qle_shift_inv_r; lra. }
  assert (Hq : ((1 # 8589934592) <= a / b <= 8589934592)%Q).
  { unfold Qdiv. change (/ 4294967296)%Q with (1 # 4294967296)%Q in Hinv. nra. }
  destruct (round32_rel (a / b)) as (r & E & Hr).
  - rewrite Qabs_pos by lra. apply Qle_trans with (1 # 8589934592)%Q; [discriminate | lra].
  - rewrite Qabs_pos by lra. apply Qle_lt_trans with 8589934592%Q; [lra | reflexivity].
  - exists r. split; [exact E |].
    rewrite (Qabs_pos (a / b)) in Hr by lra.
    change (pow2 (-24)) with (1 # 16777216)%Q in Hr.
    apply Qabs_Qle_condition in Hr. lra.
Qed.

Lemma Qle_eq_l x x' y : (x == x')%Q -> (x' <= y)%Q -> (x <= y)%Q.
Proof. intros E H. rewrite E. exact H. Qed.

Lemma fmul_nonneg x y r :
  (0 <= x)%Q -> (0 <= y)%Q -> fmul (FFin x) (FFin y) = FFin r -> (0 <= r)%Q.
Proof.
  intros Hx Hy E. apply (round32_nonneg (x * y)); [| exact E].
  apply Qmult_le_0_compat; assumption.
Qed.

Lemma fadd_nonneg x y r :
  (0 <= x)%Q -> (0 <= y)%Q -> fadd (FFin x) (FFin y) = FFin r -> (0 <= r)%Q.
Proof. intros Hx Hy E. apply (round32_nonneg (x + y)); [lra | exact E]. Qed.

(** The source coordinate [src_x + x * x_scale] of a destination column,
    for a window that lies in an image of at most [2^30] pixels across: a
    finite, non-negative float well inside the range of [int]. *)
Lemma src_coord_bound s0 sw nw x :
  0 <= s0 -> 1 <= sw -> s0 + sw <= 2 ^ 30 -> 1 <= nw <= INT_MAX -> 0 <= x < nw ->
  exists r, fadd (i2f s0) (fmul (i2f x) (fdiv (i2f sw) (i2f nw))) = FFin r /\
            (0 <= r <= 1073743872)%Q.
Proof.
  intros Hs0 Hsw Hsum Hnw Hx. unfold INT_MAX in *.
  destruct (i2f_nonneg_rel s0) as (a & Ea & Ha); [unfold INT_MAX; lia |].
  destruct (i2f_rel sw) as (sw' & Esw & Hsw'); [unfold INT_MAX; lia |].
  destruct (i2f_rel nw) as (nw' & Enw & Hnw'); [unfold INT_MAX; lia |].
  destruct (i2f_nonneg_rel x) as (x' & Ex & Hx'); [unfold INT_MAX; lia |].
  pose proof (inject_Z_bounds s0 0 (2 ^ 30) ltac:(lia)) as [Bs0 Bs0'].
  pose proof (inject_Z_bounds sw 1 (2 ^ 30) ltac:(lia)) as [Bsw Bsw'].
  pose proof (inject_Z_bounds nw 1 2147483647 ltac:(lia)) as [Bnw Bnw'].
  pose proof (inject_Z_bounds x 0 nw ltac:(lia)) as [Bx Bx'].
  pose proof (inject_Z_bounds (s0 + sw) 1 (2 ^ 30) ltac:(lia)) as [_ Bsum].
  rewrite inject_Z_plus in Bsum.
  change (inject_Z 0) with 0%Q in *. change (inject_Z 1) with 1%Q in *.
  change (inject_Z (2 ^ 30)) with 1073741824%Q in *.
  change (inject_Z 2147483647) with 2147483647%Q in *.
  set (S0 := inject_Z s0) in *. set (S := inject_Z sw) in *.
  set (N := inject_Z nw) in *. set (X := inject_Z x) in *.
  destruct (fdiv_rel sw' nw') as (xs & Exs & Hxs); [lra | lra |].
  rewrite Ea, Esw, Enw, Ex, Exs.
  (* xs * nw' <= sw' * (1 + u) *)
  assert (S1 : (0 <= xs /\ xs * nw' <= sw' * (1 + (1 # 16777216)))%Q).
  { assert (Q0 : (0 <= sw' / nw')%Q) by (apply Qle_shift_div_l; lra).
    split; [nra |].
    apply Qle_trans with (sw' / nw' * (1 + (1 # 16777216)) * nw')%Q.
    - apply Qmult_le_compat_r; lra.
    - apply Qle_lteq. right. field. lra. }
  destruct S1 as [Xs0 S1].
  (* x' * (1 - u) <= nw' * (1 + u) *)
  assert (S2 : (x' * (1 - (1 # 16777216)) <= nw' * (1 + (1 # 16777216)))%Q) by nra.
  assert (X0 : (0 <= x')%Q) by nra.
  assert (S3 : (x' * xs * (1 - (1 # 16777216))
                <= S * (1 + (1 # 2097152)) * (1 - (1 # 16777216)))%Q).
  { apply Qle_trans with (nw' * (1 + (1 # 16777216)) * xs)%Q.
    - apply (Qle_eq_l _ (x' * (1 - (1 # 16777216)) * xs)%Q); [ring |].
      apply Qmult_le_compat_r; assumption.
    - apply Qle_trans with (sw' * (1 + (1 # 16777216)) * (1 + (1 # 16777216)))%Q.
      + apply (Qle_eq_l _ (xs * nw' * (1 + (1 # 16777216)))%Q); [ring |].
        apply Qmult_le_compat_r; [exact S1 | lra].
      + nra. }
  assert (P1 : (x' * xs <= S * (1 + (1 # 2097152)))%Q).
  { apply (Qmult_le_r _ _ (1 - (1 # 16777216))); [reflexivity | exact S3]. }
  assert (P0 : (0 <= x' * xs)%Q) by (apply Qmult_le_0_compat; assumption).
  destruct (fmul_abs x' xs 31) as (p & Ep & Hp); [lia | |].
  { rewrite Qabs_pos by exact P0. change (pow2 31) with 2147483648%Q. lra. }
  change (pow2 (31 - 25)) with 64%Q in Hp. apply Qabs_Qle_condition in Hp.
  pose proof (fmul_nonneg x' xs p X0 Xs0 Ep) as Pp.
  rewrite Ep.
  assert (A0 : (0 <= a)%Q) by lra.
  destruct (fadd_abs a p 31) as (r & Er & Hr); [lia | |].
  { rewrite Qabs_pos by lra. change (pow2 31) with 2147483648%Q. lra. }
  change (pow2 (31 - 25)) with 64%Q in Hr. apply Qabs_Qle_condition in Hr.
  exists r. split; [exact Er |].
  split; [exact (fadd_nonneg a p r A0 Pp Er) | lra].
Qed.

Lemma resize_image_bilinear_loop dm cs (malloc : allocator) img W H C
  src_x src_y src_w src_h new_w new_h blk :
  0 < new_w -> 0 < new_h -> 0 < src_w -> 0 < src_h ->
  u64_mul (u64_mul (to_u64 new_w) new_h) C <= SIZE_MAX dm ->
  malloc (to_size dm (u64_mul (u64_mul (to_u64 new_w) new_h) C)) = Some blk ->
  resize_image_bilinear dm cs malloc (Some img) W H C src_x src_y src_w src_h new_w new_h =
    do out <- for_range 0 new_h (fun y =>
                for_range 0 new_w (fun x =>
                  for_range 0 C (fun c out =>
                    do v <- resize_value cs img W H C src_x src_y src_w src_h
                              new_w new_h y x c;
                    store out (sample_index new_w C y x c) v))) blk;
    Def ([to_size dm (u64_mul (u64_mul (to_u64 new_w) new_h) C)], inr out).
Proof.
  intros Hnw Hnh Hsw Hsh Hsz Hm. unfold resize_image_bilinear.
  destruct (Z.leb_spec new_w 0); [lia |]. destruct (Z.leb_spec new_h 0); [lia |].
  destruct (Z.leb_spec src_w 0); [lia |]. destruct (Z.leb_spec src_h 0); [lia |].
  cbn [orb]. destruct (Z.ltb_spec (SIZE_MAX dm) (u64_mul (u64_mul (to_u64 new_w) new_h) C)); [lia |].
  rewrite Hm. reflexivity.
Qed.

Lemma clamp_coord_range v n : 1 <= n <= INT_MAX -> 0 <= clamp_coord v n < n.
Proof.
  intros Hn. unfold clamp_coord, isub.
  destruct (Z.ltb_spec v 0); [lia |]. destruct (Z.leb_spec n v); [| lia].
  rewrite wrap32_id by (unfold in_int, INT_MIN, INT_MAX in *; lia). lia.
Qed.

(** The weight [ox - (float)(int)ox] of a source coordinate: a float of
    magnitude at most 2 (it is below 1 up to rounding). *)
Lemma weight_bound cs r :
  repr32 r -> (0 <= r <= 1073743872)%Q ->
  exists t, fsub (FFin r) (i2f (f2i cs (FFin r))) = FFin t /\ (Qabs t <= 2)%Q.
Proof.
  intros Hrep Hr.
  destruct (Qtrunc_nonneg r (proj1 Hr)) as (T0 & T1 & T2).
  assert (Tmax : Qtrunc r <= 1073743872).
  { assert (L : (inject_Z (Qtrunc r) <= inject_Z 1073743872)%Q)
      by (change (inject_Z 1073743872) with 1073743872%Q; lra).
    rewrite <- Zle_Qle in L. exact L. }
  rewrite f2i_in_range by (unfold INT_MIN, INT_MAX; lia).
  destruct (round32_exact (inject_Z (Qtrunc r))) as (r' & Er' & Hr').
  - apply repr32_Qtrunc. exact Hrep.
  - rewrite Qabs_inject_Z. change (pow2 128) with (inject_Z (2 ^ 128)).
    rewrite <- Zlt_Qlt. lia.
  - unfold i2f. rewrite Er'.
    destruct (fsub_abs r r' 0) as (t & Et & Ht); [lia | |].
    { rewrite Hr'. change (pow2 0) with 1%Q. apply Qtrunc_frac. }
    exists t. split; [exact Et |].
    change (pow2 (0 - 25)) with (1 # 33554432)%Q in Ht.
    apply Qabs_Qle_condition in Ht. apply Qabs_Qle_condition.
    rewrite Hr' in Ht. lra.
Qed.

Lemma src_coord_spec cs s0 sw nw x :
  0 <= s0 -> 1 <= sw -> s0 + sw <= 2 ^ 30 -> 1 <= nw <= INT_MAX -> 0 <= x < nw ->
  exists t, fsub (src_coord s0 sw nw x)
                 (i2f (f2i cs (src_coord s0 sw nw x))) = FFin t /\
            (Qabs t <= 2)%Q.
Proof.
  intros Hs0 Hsw Hsum Hnw Hx.
  destruct (src_coord_bound s0 sw nw x Hs0 Hsw Hsum Hnw Hx) as (r & Er & Hr).
  fold (src_coord s0 sw nw x) in Er. rewrite Er.
  apply weight_bound; [| exact Hr].
  unfold src_coord in Er.
  destruct (i2f s0) as [a | |] eqn:Ea; try discriminate;
    destruct (fmul _ _) as [p | |] eqn:Ep; try discriminate;
    try (destruct neg; discriminate).
  - exact (round32_repr _ _ Er).
  - destruct neg, neg0; discriminate.
Qed.

Lemma u64_size_valid a b c :
  0 <= a * b * c <= INT_MAX -> u64_mul (u64_mul (to_u64 a) b) c = a * b * c.
Proof.
  intros H. unfold u64_mul, to_u64.
  rewrite Z.mul_mod_idemp_l by (unfold UINT64_MAX; lia).
  rewrite <- Z.mul_assoc. rewrite Z.mul_mod_idemp_l by (unfold UINT64_MAX; lia).
  rewrite Z.mul_assoc. apply Z.mod_small. unfold INT_MAX, UINT64_MAX in *. lia.
Qed.

Lemma to_size_small dm n : 0 <= n <= INT_MAX -> to_size dm n = n.
Proof.
  intros H. unfold to_size. apply Z.mod_small.
  unfold INT_MAX in H. destruct dm; simpl; lia.
Qed.

Lemma resize_value_uniform cs img W H C (color : Z -> Z)
  src_x src_y src_w src_h new_w new_h y x c :
  valid_image img W H C -> 1 <= W <= 2 ^ 30 -> 1 <= H <= 2 ^ 30 ->
  (forall row col ch, 0 <= row < H -> 0 <= col < W -> 0 <= ch < C ->
     load img (lin W C row col ch) = Def (color ch)) ->
  (forall ch, 0 <= ch < C -> 0 <= color ch <= 255) ->
  0 <= src_x -> 0 <= src_y -> 1 <= src_w -> 1 <= src_h ->
  src_x + src_w <= W -> src_y + src_h <= H ->
  1 <= new_w <= INT_MAX -> 1 <= new_h <= INT_MAX ->
  0 <= y < new_h -> 0 <= x < new_w -> 0 <= c < C ->
  resize_value cs img W H C src_x src_y src_w src_h new_w new_h y x c
    = Def (color c).
Proof.
  intros (_ & _ & _ & Hsz & Hlen) HW HH Huni Hcol Hsx Hsy Hsw Hsh Hxw Hyh
    Hnw Hnh Hy Hx Hc.
  unfold resize_value. cbv zeta.
  destruct (src_coord_spec cs src_x src_w new_w x) as (t & Et & Ht); try lia.
  destruct (src_coord_spec cs src_y src_h new_h y) as (t' & Et' & Ht'); try lia.
  rewrite Et, Et'.
  assert (HWi : 1 <= W <= INT_MAX) by (unfold INT_MAX; lia).
  assert (HHi : 1 <= H <= INT_MAX) by (unfold INT_MAX; lia).
  assert (Hload : forall row col, 0 <= row < H -> 0 <= col < W ->
            load img (sample_index W C row col c) = Def (color c)).
  { intros row col Hr Hcl. rewrite (sample_index_lin W H C) by assumption.
    apply Huni; assumption. }
  apply resize_sample_uniform; try assumption;
    try (apply Hload; apply clamp_coord_range; assumption).
  apply Hcol. exact Hc.
Qed.

Lemma filled_all (val : Z -> Z -> Z -> ub Z) out W H c y x ch :
  filled val out W H c (W * H * c) ->
  0 <= y < H -> 0 <= x < W -> 0 <= ch < c ->
  load out (lin W c y x ch) = val y x ch.
Proof.
  intros [_ Hf] Hy Hx Hch. apply Hf; try assumption.
  apply (lin_bound W H c); assumption.
Qed.

(** C7 (amended): a uniform image of at most 2^30 pixels in each direction,
    resized from a window inside the image to any positive size whose byte
    count fits [int], gives a buffer in which every pixel has exactly that
    colour. *)
Theorem resize_uniform_image dm cs (malloc : allocator) img W H C (color : Z -> Z)
  src_x src_y src_w src_h new_w new_h blk :
  valid_image img W H C -> 1 <= W <= 2 ^ 30 -> 1 <= H <= 2 ^ 30 ->
  (forall row col ch, 0 <= row < H -> 0 <= col < W -> 0 <= ch < C ->
     load img (lin W C row col ch) = Def (color ch)) ->
  (forall ch, 0 <= ch < C -> 0 <= color ch <= 255) ->
  0 <= src_x -> 0 <= src_y -> 1 <= src_w -> 1 <= src_h ->
  src_x + src_w <= W -> src_y + src_h <= H ->
  1 <= new_w -> 1 <= new_h -> new_w * new_h * C <= INT_MAX ->
  alloc_wf malloc -> malloc (new_w * new_h * C) = Some blk ->
  exists out,
    resize_image_bilinear dm cs malloc (Some img) W H C
      src_x src_y src_w src_h new_w new_h
      = Def ([new_w * new_h * C], inr out) /\
    valid_image out new_w new_h C /\
    forall y x ch, 0 <= y < new_h -> 0 <= x < new_w -> 0 <= ch < C ->
      load out (lin new_w C y x ch) = Def (color ch).
Proof.
  intros Hv HW HH Huni Hcol Hsx Hsy Hsw Hsh Hxw Hyh Hnw Hnh Hout Hwf Hm.
  pose proof Hv as (_ & _ & HC & _ & _).
  assert (Hnn : 0 <= new_w * new_h * C) by (apply Z.mul_nonneg_nonneg; nia).
  assert (E64 : u64_mul (u64_mul (to_u64 new_w) new_h) C = new_w * new_h * C)
    by (apply u64_size_valid; lia).
  rewrite (resize_image_bilinear_loop dm cs malloc img W H C src_x src_y src_w src_h
             new_w new_h blk); try lia.
  2:{ rewrite E64. unfold INT_MAX in Hout. destruct dm; simpl; lia. }
  2:{ rewrite E64, to_size_small by lia. exact Hm. }
  rewrite E64, to_size_small by lia.
  assert (Hval : forall y x ch, 0 <= y < new_h -> 0 <= x < new_w -> 0 <= ch < C ->
            resize_value cs img W H C src_x src_y src_w src_h new_w new_h y x ch
              = Def (color ch)).
  { intros y x ch Hy Hx Hch.
    destruct (dims_le_size new_w new_h C) as [D1 D2]; try lia.
    apply resize_value_uniform; try assumption; lia. }
  destruct (fill_loop_spec
              (resize_value cs img W H C src_x src_y src_w src_h new_w new_h)
              blk new_w new_h C) as (out & E & Hfill); try lia.
  - apply Hwf. exact Hm.
  - intros y x ch Hy Hx Hch. exists (color ch). apply Hval; assumption.
  - exists out. rewrite E. split; [reflexivity |]. split.
    + destruct Hfill as [Hlen _]. unfold valid_image. repeat split; try lia.
    + intros y x ch Hy Hx Hch.
      rewrite (filled_all _ _ _ _ _ _ _ _ Hfill Hy Hx Hch). apply Hval; assumption.
Qed.

Lemma resize_uniform_image_witness :
  exists out,
    resize_image_bilinear LP64 Indefinite zeroed_malloc (Some red_4x4) 4 4 3
      0 0 4 4 2 2 = Def ([2 * 2 * 3], inr out) /\
    valid_image out 2 2 3 /\
    forall y x ch, 0 <= y < 2 -> 0 <= x < 2 -> 0 <= ch < 3 ->
      load out (lin 2 3 y x ch) = Def (red ch).
Proof.
  apply (resize_uniform_image LP64 Indefinite zeroed_malloc red_4x4 4 4 3 red
           0 0 4 4 2 2 (replicate 12 0)); try lia; try reflexivity.
  - unfold valid_image, INT_MAX. simpl. lia.
  - intros row col ch Hr Hc Hch.
    assert (Er : row = 0 \/ row = 1 \/ row = 2 \/ row = 3) by lia.
    assert (Ec : col = 0 \/ col = 1 \/ col = 2 \/ col = 3) by lia.
    assert (Eh : ch = 0 \/ ch = 1 \/ ch = 2) by lia.
    destruct Er as [-> | [-> | [-> | ->]]];
      destruct Ec as [-> | [-> | [-> | ->]]];
      destruct Eh as [-> | [-> | ->]]; reflexivity.
  - intros ch Hch. unfold red. destruct (ch =? 0); lia.
  - unfold INT_MAX. lia.
  - exact zeroed_malloc_wf.
Defined.

Example resize_red_4x4_to_2x2 cs :
  resize_image_bilinear LP64 cs zeroed_malloc (Some red_4x4) 4 4 3 0 0 4 4 2 2
    = Def ([12], inr [255; 0; 0; 255; 0; 0; 255; 0; 0; 255; 0; 0]).
Proof. destruct cs; vm_compute; reflexivity. Qed.

Lemma long_white_row_valid : valid_image long_white_row 2147483647 1 1.
Proof.
  unfold valid_image, long_white_row, INT_MAX.
  generalize (Z2Nat.id 2147483646 ltac:(discriminate)).
  generalize (Z.to_nat 2147483646). intros n Hn.
  cbn [length]. rewrite length_replicate, Nat2Z.inj_succ, Hn.
  repeat split; discriminate.
Qed.

Lemma long_white_row_uniform i :
  0 <= i < 2147483647 -> load long_white_row i = Def 255.
Proof.
  intros Hi. apply load_Def. split; [apply Hi |]. unfold long_white_row.
  assert (Hlt : (Z.to_nat i < Datatypes.S (Z.to_nat 2147483646))%nat).
  { rewrite <- Z2Nat.inj_succ by discriminate.
    apply Z2Nat.inj_lt; [apply Hi | discriminate | apply Hi]. }
  revert Hlt. generalize (Z.to_nat 2147483646). generalize (Z.to_nat i).
  intros k n Hlt. destruct k as [| k]; [reflexivity |].
  cbn [lookup list_lookup]. apply lookup_replicate_2. lia.
Qed.

Lemma resize_far_right (tail : list Z) :
  resize_image_bilinear LP64 Indefinite zeroed_malloc (Some (255 :: tail))
    2147483647 1 1 2147483646 0 1 1 1 1 = Def ([1], inr [0]).
Proof. vm_compute. reflexivity. Qed.

Lemma resize_long_white_row :
  resize_image_bilinear LP64 Indefinite zeroed_malloc (Some long_white_row)
    2147483647 1 1 2147483646 0 1 1 1 1 = Def ([1], inr [0]).
Proof. exact (resize_far_right (replicate (Z.to_nat 2147483646) 255)). Qed.

Lemma resize_window_off_image :
  resize_image_bilinear LP64 Indefinite zeroed_malloc (Some [255]) 1 1 1
    2147483647 0 1 1 1 1 = Def ([1], inr [0]).
Proof. vm_compute. reflexivity. Qed.

(** C7, as stated, fails where the source coordinate leaves the range of
    [int]: on x86 the conversion [(int)ox] then yields [INT_MIN], the weight
    [dx] becomes 2^32 and the blend of two equal samples cancels to 0.  This
    happens for a window of positive size that lies off a 1x1 white image
    (at x = 2147483647), and for the last pixel of a uniform white
    2147483647 x 1 image: the "resized" pixel is 0, not 255. *)
Lemma resize_uniform_image_counterexample :
  resize_image_bilinear LP64 Indefinite zeroed_malloc (Some [255]) 1 1 1
    2147483647 0 1 1 1 1 = Def ([1], inr [0]) /\
  valid_image long_white_row 2147483647 1 1 /\
  (forall i, 0 <= i < 2147483647 -> load long_white_row i = Def 255) /\
  resize_image_bilinear LP64 Indefinite zeroed_malloc (Some long_white_row)
    2147483647 1 1 2147483646 0 1 1 1 1 = Def ([1], inr [0]).
Proof.
  split; [exact resize_window_off_image |].
  split; [exact long_white_row_valid |].
  split; [exact long_white_row_uniform |].
  exact resize_long_white_row.
Qed.

(** *** Failure modes of the resampler *)

Lemma u64_size_exact a b c :
  0 <= a * b * c <= UINT64_MAX -> u64_mul (u64_mul (to_u64 a) b) c = a * b * c.
Proof.
  intros H. unfold u64_mul, to_u64.
  rewrite Z.mul_mod_idemp_l by (unfold UINT64_MAX; lia).
  rewrite <- Z.mul_assoc. rewrite Z.mul_mod_idemp_l by (unfold UINT64_MAX; lia).
  rewrite Z.mul_assoc. apply Z.mod_small. lia.
Qed.

(** With at most four channels the 64-bit product of the destination size
    cannot wrap. *)
Lemma dest_size_fits_u64 new_w new_h c :
  0 < new_w <= INT_MAX -> 0 < new_h <= INT_MAX -> 1 <= c <= 4 ->
  0 <= new_w * new_h * c <= UINT64_MAX.
Proof.
  unfold INT_MAX, UINT64_MAX. intros Hw Hh Hc.
  assert (0 <= new_w * new_h <= 2147483647 * 2147483647) by nia.
  nia.
Qed.

(** Thanks to the clamping of the four neighbours, the value of a
    destination sample is always read inside a valid source buffer. *)
Lemma resize_value_defined cs img W H C src_x src_y src_w src_h new_w new_h y x c :
  valid_image img W H C -> 1 <= W -> 1 <= H -> 0 <= c < C ->
  exists v, resize_value cs img W H C src_x src_y src_w src_h new_w new_h y x c
            = Def v.
Proof.
  intros (_ & _ & _ & Hsz & Hlen) HW HH Hc.
  destruct (dims_le_size W H C) as [D1 D2]; try lia.
  assert (HWi : 1 <= W <= INT_MAX) by lia.
  assert (HHi : 1 <= H <= INT_MAX) by lia.
  assert (Hload : forall row col, 0 <= row < H -> 0 <= col < W ->
            exists v, load img (sample_index W C row col c) = Def v).
  { intros row col Hr Hcl. rewrite (sample_index_lin W H C) by assumption.
    apply load_in_bounds. rewrite Hlen. apply (lin_bound W H C); assumption. }
  unfold resize_value, resize_sample. cbv zeta.
  set (x1 := clamp_coord (f2i cs (src_coord src_x src_w new_w x)) W).
  set (y1 := clamp_coord (f2i cs (src_coord src_y src_h new_h y)) H).
  set (x2 := clamp_coord (iadd (f2i cs (src_coord src_x src_w new_w x)) 1) W).
  set (y2 := clamp_coord (iadd (f2i cs (src_coord src_y src_h new_h y)) 1) H).
  assert (Hx1 : 0 <= x1 < W) by (apply clamp_coord_range; exact HWi).
  assert (Hx2 : 0 <= x2 < W) by (apply clamp_coord_range; exact HWi).
  assert (Hy1 : 0 <= y1 < H) by (apply clamp_coord_range; exact HHi).
  assert (Hy2 : 0 <= y2 < H) by (apply clamp_coord_range; exact HHi).
  destruct (Hload y1 x1 Hy1 Hx1) as [v11 ->].
  destruct (Hload y1 x2 Hy1 Hx2) as [v21 ->].
  destruct (Hload y2 x1 Hy2 Hx1) as [v12 ->].
  destruct (Hload y2 x2 Hy2 Hx2) as [v22 ->].
  cbn [ub_bind]. eexists. reflexivity.
Qed.

(** The failures [resize_image_bilinear] reports: InvalidInput, without
    allocating, when a destination or source-window dimension is zero or
    negative; SizeOverflow, without allocating, when the destination byte
    count exceeds [SIZE_MAX]; AllocationError when [malloc] returns NULL, and
    no other; and on a valid buffer, for a destination whose byte count fits
    [int], the resized image. *)
Lemma resize_image_bilinear_failure_modes dm cs (malloc : allocator) img
  W H C src_x src_y src_w src_h new_w new_h :
  in_int new_w -> in_int new_h -> 1 <= C <= 4 ->
  let n := new_w * new_h * C in
  let run := resize_image_bilinear dm cs malloc (Some img) W H C
               src_x src_y src_w src_h new_w new_h in
  (new_w <= 0 \/ new_h <= 0 \/ src_w <= 0 \/ src_h <= 0 ->
     run = Def ([], inl InvalidInput)) /\
  (0 < new_w -> 0 < new_h -> 0 < src_w -> 0 < src_h ->
     (SIZE_MAX dm < n -> run = Def ([], inl SizeOverflow)) /\
     (n <= SIZE_MAX dm ->
        (malloc n = None -> run = Def ([n], inl AllocationError)) /\
        (forall allocs e, run = Def (allocs, inl e) ->
           e = AllocationError /\ malloc n = None) /\
        (forall blk, malloc n = Some blk -> alloc_wf malloc ->
           valid_image img W H C -> 1 <= W -> 1 <= H -> n <= INT_MAX ->
           exists out, run = Def ([n], inr out) /\ valid_image out new_w new_h C))).
Proof.
  intros Hiw Hih HC n run. split.
  - intros Hbad. subst run. unfold resize_image_bilinear.
    destruct (Z.leb_spec new_w 0); [reflexivity |].
    destruct (Z.leb_spec new_h 0); [reflexivity |].
    destruct (Z.leb_spec src_w 0); [reflexivity |].
    destruct (Z.leb_spec src_h 0); [reflexivity | lia].
  - intros Hnw Hnh Hsw Hsh.
    assert (Hfit : 0 <= n <= UINT64_MAX).
    { apply dest_size_fits_u64; unfold in_int in *; lia. }
    assert (E64 : u64_mul (u64_mul (to_u64 new_w) new_h) C = n)
      by (apply u64_size_exact; exact Hfit).
    assert (Erun : run =
              if SIZE_MAX dm <? n then Def ([], inl SizeOverflow)
              else match malloc (to_size dm n) with
                   | None => Def ([to_size dm n], inl AllocationError)
                   | Some blk =>
                       do out <- for_range 0 new_h (fun y =>
                                   for_range 0 new_w (fun x =>
                                     for_range 0 C (fun c out =>
                                       do v <- resize_value cs img W H C src_x src_y
                                                 src_w src_h new_w new_h y x c;
                                       store out (sample_index new_w C y x c) v))) blk;
                       Def ([to_size dm n], inr out)
                   end).
    { subst run. unfold resize_image_bilinear.
      destruct (Z.leb_spec new_w 0); [lia |]. destruct (Z.leb_spec new_h 0); [lia |].
      destruct (Z.leb_spec src_w 0); [lia |]. destruct (Z.leb_spec src_h 0); [lia |].
      cbn [orb]. rewrite E64. reflexivity. }
    rewrite Erun. split.
    + intros Hover. destruct (Z.ltb_spec (SIZE_MAX dm) n); [reflexivity | lia].
    + intros Hok. destruct (Z.ltb_spec (SIZE_MAX dm) n); [lia |].
      assert (Esz : to_size dm n = n).
      { unfold to_size. apply Z.mod_small. lia. }
      rewrite Esz. split; [| split].
      * intros Hm. rewrite Hm. reflexivity.
      * intros allocs e. destruct (malloc n) as [blk |].
        -- destruct (for_range 0 new_h _ blk); cbn [ub_bind]; intros Hr; inversion Hr.
        -- intros Hr. inversion Hr. auto.
      * intros blk Hm Hwf Hv HW HH Hint. rewrite Hm.
        destruct (fill_loop_spec
                    (resize_value cs img W H C src_x src_y src_w src_h new_w new_h)
                    blk new_w new_h C) as (out & E & Hfill); try lia.
        -- apply Hwf. exact Hm.
        -- intros y x ch Hy Hx Hch. apply resize_value_defined; assumption.
        -- exists out. rewrite E. split; [reflexivity |].
           destruct Hfill as [Hlen _]. unfold valid_image. repeat split; try lia.
Qed.

Lemma resize_image_bilinear_reported_failures :
  resize_image_bilinear ILP32 Indefinite zeroed_malloc (Some [1; 2; 3]) 1 1 3
    0 0 1 1 0 5 = Def ([], inl InvalidInput) /\
  resize_image_bilinear ILP32 Indefinite zeroed_malloc (Some [1; 2; 3]) 1 1 3
    0 0 1 1 65536 65536 = Def ([], inl SizeOverflow).
Proof.
  split.
  - apply (resize_image_bilinear_failure_modes ILP32 Indefinite zeroed_malloc
             [1; 2; 3] 1 1 3 0 0 1 1 0 5);
      unfold in_int, INT_MIN, INT_MAX; lia.
  - apply (resize_image_bilinear_failure_modes ILP32 Indefinite zeroed_malloc
             [1; 2; 3] 1 1 3 0 0 1 1 65536 65536);
      unfold in_int, INT_MIN, INT_MAX; simpl; lia.
Qed.

(** *** The destination is indexed with [int] *)

Lemma wrap32_add_l a b : wrap32 (wrap32 a + b) = wrap32 (a + b).
Proof.
  unfold wrap32. f_equal.
  replace ((a + 2147483648) mod 4294967296 - 2147483648 + b + 2147483648)
    with ((a + 2147483648) mod 4294967296 + b) by ring.
  rewrite Z.add_mod_idemp_l by lia. f_equal. ring.
Qed.

Lemma wrap32_mul_l a b : wrap32 (wrap32 a * b) = wrap32 (a * b).
Proof.
  unfold wrap32. f_equal.
  rewrite <- (Z.add_mod_idemp_l (((a + 2147483648) mod 4294967296 - 2147483648) * b))
    by lia.
  rewrite <- (Z.mul_mod_idemp_l ((a + 2147483648) mod 4294967296 - 2147483648)) by lia.
  rewrite Zminus_mod_idemp_l.
  replace (a + 2147483648 - 2147483648) with a by ring.
  rewrite Z.mul_mod_idemp_l by lia. rewrite Z.add_mod_idemp_l by lia. reflexivity.
Qed.

(** The [int] index of a sample is its offset, wrapped: where the offset
    leaves [int], the index is not the offset. *)
Lemma sample_index_wrap w c row col ch :
  sample_index w c row col ch = wrap32 (lin w c row col ch).
Proof.
  unfold sample_index, lin, iadd, imul.
  rewrite (wrap32_add_l (row * w) col).
  rewrite (wrap32_mul_l (row * w + col) c).
  now rewrite (wrap32_add_l ((row * w + col) * c) ch).
Qed.

(** C4: beyond InvalidInput, SizeOverflow and AllocationError the function
    has a failure it does not report.  The size check is made in 64 bits, but
    the destination is indexed with the [int] expression
    [(y * new_w + x) * orig_channels + c]: once the destination has more than
    [INT_MAX + 1] bytes (and [malloc] returned them), the index of the sample
    at offset 2^31 wraps to -2^31 and the store leaves the buffer. *)
Theorem resize_image_bilinear_large_destination_out_of_bounds dm cs (malloc : allocator)
  img W H C src_x src_y src_w src_h new_w new_h :
  0 < new_w <= INT_MAX -> 0 < new_h <= INT_MAX -> 0 < src_w -> 0 < src_h ->
  1 <= C <= 4 ->
  INT_MAX + 1 < new_w * new_h * C <= SIZE_MAX dm ->
  malloc (new_w * new_h * C) <> None ->
  resize_image_bilinear dm cs malloc (Some img) W H C src_x src_y src_w src_h
    new_w new_h = UB.
Proof.
  intros Hnw Hnh Hsw Hsh HC Hn Hm.
  set (n := new_w * new_h * C) in *.
  assert (Hfit : 0 <= n <= UINT64_MAX) by (apply dest_size_fits_u64; lia).
  assert (E64 : u64_mul (u64_mul (to_u64 new_w) new_h) C = n)
    by (apply u64_size_exact; exact Hfit).
  unfold resize_image_bilinear.
  destruct (Z.leb_spec new_w 0); [lia |]. destruct (Z.leb_spec new_h 0); [lia |].
  destruct (Z.leb_spec src_w 0); [lia |]. destruct (Z.leb_spec src_h 0); [lia |].
  cbn [orb]. rewrite E64.
  destruct (Z.ltb_spec (SIZE_MAX dm) n); [lia |].
  assert (Esz : to_size dm n = n) by (unfold to_size; apply Z.mod_small; lia).
  rewrite Esz.
  destruct (malloc n) as [blk |]; [| contradiction].
  (* the sample at offset 2^31 *)
  unfold INT_MAX in *.
  set (p := 2147483648 / C). set (c0 := 2147483648 mod C).
  set (y0 := p / new_w). set (x0 := p mod new_w).
  assert (Hp : 2147483648 = C * p + c0) by (apply Z.div_mod; lia).
  assert (Hc0 : 0 <= c0 < C) by (apply Z.mod_pos_bound; lia).
  assert (Hq : p = new_w * y0 + x0) by (apply Z.div_mod; lia).
  assert (Hx0 : 0 <= x0 < new_w) by (apply Z.mod_pos_bound; lia).
  assert (Hp0 : 0 <= p) by (apply Z.div_pos; lia).
  assert (Hpn : p < new_w * new_h).
  { apply Z.div_lt_upper_bound; [lia |]. unfold n in Hn. lia. }
  assert (Hy0 : 0 <= y0 < new_h).
  { split; [apply Z.div_pos; lia | apply Z.div_lt_upper_bound; lia]. }
  assert (Eidx : sample_index new_w C y0 x0 c0 = -2147483648).
  { rewrite sample_index_wrap. unfold lin.
    replace ((y0 * new_w + x0) * C + c0) with 2147483648 by lia. reflexivity. }
  match goal with
  | |- ub_bind ?m _ = UB => cut (m = UB); [intros ->; reflexivity |]
  end.
  apply (for_range_UB _ y0); [lia |]. intros s0.
  apply (for_range_UB _ x0); [lia |]. intros s1. cbv zeta.
  apply (for_range_UB _ c0); [lia |]. intros s2.
  rewrite Eidx.
  match goal with
  | |- ub_bind ?m _ = UB => destruct m; reflexivity
  end.
Qed.

(** A 1x1 RGBA image enlarged to 32768 x 16385 on a 64-bit machine:
    2147614720 bytes, which [malloc] grants. *)
Lemma resize_image_bilinear_large_destination_out_of_bounds_witness :
  resize_image_bilinear LP64 Indefinite zeroed_malloc (Some [10; 20; 30; 255]) 1 1 4
    0 0 1 1 32768 16385 = UB.
Proof.
  apply (resize_image_bilinear_large_destination_out_of_bounds LP64 Indefinite
           zeroed_malloc [10; 20; 30; 255] 1 1 4 0 0 1 1 32768 16385);
    unfold INT_MAX; try lia.
  - unfold SIZE_MAX. lia.
  - unfold zeroed_malloc.
    destruct (Z.ltb_spec (32768 * 16385 * 4) 0); [lia | discriminate].
Defined.

(* ----------------------------------------------------------------- *)
(** ** DisplaySizer *)

Lemma calculate_display_dimensions_eq cs tw th iw ih zoom :
  0 < iw -> 0 < ih ->
  calculate_display_dimensions cs tw th iw ih zoom =
    let U := usable_rows th in
    let A := image_aspect iw ih in
    let '(w0, h0) :=
      if fgt A (terminal_aspect tw U)
      then let cw := f2i cs (fmul (i2f tw) zoom) in (cw, rows_for_width cs A cw)
      else let ch := f2i cs (fmul (i2f U) zoom) in (cols_for_height cs A ch, ch) in
    let w1 := at_least_1 w0 in
    let h1 := at_least_1 h0 in
    let '(w2, h2) :=
      if tw <? w1 then (tw, at_least_1 (rows_for_width cs A tw)) else (w1, h1) in
    let '(w3, h3) :=
      if U <? h2 then (at_least_1 (cols_for_height cs A U), U) else (w2, h2) in
    (at_least_1 w3, at_least_1 h3).
Proof.
  intros Hw Hh. unfold calculate_display_dimensions.
  destruct (Z.leb_spec iw 0); [lia |]. destruct (Z.leb_spec ih 0); [lia |].
  cbn [orb]. reflexivity.
Qed.

(** C5, as stated, fails for very large terminals: with 16777219 columns
    and 8388611 rows, a 4x3 image and zoom 1, the width re-derived after the
    height clamp is 16777220, one more than the terminal has. *)
Lemma calculate_display_dimensions_counterexample :
  calculate_display_dimensions Indefinite 16777219 8388611 4 3 (FFin 1)
    = (16777220, 8388609) /\
  calculate_display_dimensions Saturating 16777219 8388611 4 3 (FFin 1)
    = (16777220, 8388609) /\
  ~ (16777220 <= 16777219).
Proof. split; [vm_compute; reflexivity |]. split; [vm_compute; reflexivity | lia]. Qed.

(** *** Signs through the conversions *)

Lemma f2i_range cs f : in_int (f2i cs f).
Proof.
  assert (O : in_int (f2i_out_of_range cs f)).
  { unfold f2i_out_of_range, in_int, INT_MIN, INT_MAX.
    destruct cs; [lia |]. destruct f as [q | [|] |]; try lia.
    destruct (Qle_bool 0 q); lia. }
  unfold f2i. destruct f as [q | s |]; try exact O.
  destruct (Z.leb_spec INT_MIN (Qtrunc q)); [| exact O].
  destruct (Z.leb_spec (Qtrunc q) INT_MAX); [| exact O].
  split; assumption.
Qed.

Lemma f2i_nonpos cs f : fnonpos f -> f2i cs f <= 0.
Proof.
  unfold fnonpos, f2i. destruct f as [q | s |]; [| | tauto].
  - intros Hq. destruct (Qtrunc_nonpos q Hq) as (T & _ & _).
    destruct ((INT_MIN <=? Qtrunc q) && (Qtrunc q <=? INT_MAX)) eqn:B; [exact T |].
    unfold f2i_out_of_range, INT_MIN, INT_MAX. destruct cs; [lia |].
    destruct (Qle_bool 0 q) eqn:B0; [| lia].
    apply Qle_bool_iff in B0.
    assert (E : (q == inject_Z 0)%Q) by (change (inject_Z 0) with 0%Q; lra).
    rewrite (Qtrunc_proper _ _ E), Qtrunc_Z in B. discriminate.
  - intros ->. unfold f2i_out_of_range, INT_MIN. destruct cs; lia.
Qed.

Lemma round32_nonpos_any q : (q <= 0)%Q -> fnonpos (round32 q).
Proof.
  intros Hq. destruct (round32 q) as [r | s |] eqn:E.
  - exact (round32_nonpos q r Hq E).
  - unfold round32 in E. destruct (Qeq_bool q 0) eqn:B0; [discriminate |].
    cbv zeta in E. destruct (Qle_bool _ _); [| discriminate].
    inversion E. apply Qeq_bool_neq in B0.
    destruct (Qle_bool 0 q) eqn:B1; [| reflexivity].
    apply Qle_bool_iff in B1. exfalso. apply B0. lra.
  - unfold round32 in E. destruct (Qeq_bool q 0); [discriminate |].
    cbv zeta in E. destruct (Qle_bool _ _); discriminate.
Qed.

Lemma fdiv_nonpos f a :
  fnonpos f -> (0 < a)%Q -> fnonpos (fdiv f (FFin a)).
Proof.
  intros Hf Ha. destruct f as [q | s |]; [| | contradiction].
  - cbn [fnonpos] in Hf. unfold fdiv.
    destruct (Qeq_bool a 0) eqn:B; [apply Qeq_bool_eq in B; lra |].
    apply round32_nonpos_any.
    assert (I : (0 < / a)%Q) by (apply Qinv_lt_0_compat; exact Ha).
    unfold Qdiv. nra.
  - cbn [fnonpos] in Hf. subst s. unfold fdiv.
    rewrite (proj2 (Qle_bool_iff 0 a)) by lra. reflexivity.
Qed.

Lemma i2f_nonpos n : n <= 0 -> fnonpos (i2f n).
Proof.
  intros Hn. apply round32_nonpos_any.
  change 0%Q with (inject_Z 0). rewrite <- Zle_Qle. exact Hn.
Qed.

(** *** The two aspect ratios *)

Lemma image_aspect_spec iw ih :
  1 <= iw <= INT_MAX -> 1 <= ih <= INT_MAX ->
  exists a, image_aspect iw ih = FFin a /\ (0 < a)%Q.
Proof.
  intros Hw Hh. unfold image_aspect.
  destruct (i2f_rel iw Hw) as (w' & Ew & Bw).
  destruct (i2f_rel ih Hh) as (h' & Eh & Bh).
  unfold INT_MAX in *.
  pose proof (inject_Z_bounds iw 1 2147483647 Hw) as [W1 W2].
  pose proof (inject_Z_bounds ih 1 2147483647 Hh) as [H1 H2].
  change (inject_Z 1) with 1%Q in *. change (inject_Z 2147483647) with 2147483647%Q in *.
  destruct (fdiv_rel w' h') as (a & Ea & Ba); [lra | lra |].
  rewrite Ew, Eh. exists a. split; [exact Ea |].
  assert (Q0 : (0 < w' / h')%Q).
  { apply Qlt_shift_div_l; lra. }
  nra.
Qed.

Lemma int_times_ratio U :
  1 <= U <= 2 ^ 22 ->
  exists d, fmul (i2f U) TERMINAL_CHAR_HEIGHT_TO_WIDTH_RATIO = FFin d /\
            (d == inject_Z U * (3 # 2))%Q.
Proof.
  intros HU. destruct (i2f_small U) as (u & Eu & Hu); [lia |].
  rewrite Eu. unfold TERMINAL_CHAR_HEIGHT_TO_WIDTH_RATIO, fmul.
  pose proof (inject_Z_bounds U 1 (2 ^ 22) HU) as [U1 U2].
  change (inject_Z 1) with 1%Q in U1. change (inject_Z (2 ^ 22)) with 4194304%Q in U2.
  destruct (round32_exact (u * (3 # 2))) as (d & Ed & Hd).
  - exists (3 * U), (-1). split; [| split; lia].
    rewrite Hu, inject_Z_mult. change (pow2 (-1)) with (1 # 2)%Q.
    change (inject_Z 3) with 3%Q. ring.
  - rewrite Hu. rewrite Qabs_pos by lra.
    apply Qle_lt_trans with 6291456%Q; [lra | reflexivity].
  - exists d. split; [exact Ed |]. rewrite Hd, Hu. reflexivity.
Qed.

Lemma terminal_aspect_spec tw U :
  1 <= tw <= 2 ^ 22 -> 1 <= U <= 2 ^ 22 ->
  exists e, terminal_aspect tw U = FFin e /\
    (inject_Z tw * (1 - (1 # 16777216)) <= e * (inject_Z U * (3 # 2))
       <= inject_Z tw * (1 + (1 # 16777216)))%Q.
Proof.
  intros Htw HU. unfold terminal_aspect.
  destruct (int_times_ratio U HU) as (d & Ed & Hd). rewrite Ed.
  destruct (i2f_small tw) as (t & Et & Ht); [lia |]. rewrite Et.
  pose proof (inject_Z_bounds tw 1 (2 ^ 22) Htw) as [T1 T2].
  pose proof (inject_Z_bounds U 1 (2 ^ 22) HU) as [U1 U2].
  change (inject_Z 1) with 1%Q in *. change (inject_Z (2 ^ 22)) with 4194304%Q in *.
  destruct (fdiv_rel t d) as (e & Ee & He); [lra | lra |].
  exists e. split; [exact Ee |].
  assert (Hd0 : (0 < d)%Q) by lra.
  rewrite <- Hd, <- Ht.
  split.
  - apply Qle_trans with (t / d * (1 - (1 # 16777216)) * d)%Q.
    + apply Qle_lteq. right. field. lra.
    + apply Qmult_le_compat_r; lra.
  - apply Qle_trans with (t / d * (1 + (1 # 16777216)) * d)%Q.
    + apply Qmult_le_compat_r; lra.
    + apply Qle_lteq. right. field. lra.
Qed.

(** *** The two re-derivations stay inside the terminal *)

Lemma Qtrunc_le x n : (0 <= x)%Q -> (x < inject_Z n + 1)%Q -> 0 <= Qtrunc x <= n.
Proof.
  intros H0 H1. destruct (Qtrunc_nonneg x H0) as (T0 & T1 & _).
  split; [exact T0 |].
  assert (L : (inject_Z (Qtrunc x) < inject_Z (n + 1))%Q).
  { rewrite inject_Z_plus. change (inject_Z 1) with 1%Q. lra. }
  rewrite <- Zlt_Qlt in L. lia.
Qed.

(** Scale-to-fit by height: when the image is no wider than the terminal
    ([aspect <= terminal aspect]) the width derived from the usable rows
    fits the terminal. *)
Lemma cols_for_height_bound cs tw U a e :
  1 <= tw <= 2 ^ 22 -> 1 <= U <= 2 ^ 22 -> (0 <= a)%Q ->
  (e * (inject_Z U * (3 # 2)) <= inject_Z tw * (1 + (1 # 16777216)))%Q ->
  (a <= e)%Q ->
  cols_for_height cs (FFin a) U <= tw.
Proof.
  intros Htw HU Ha He Hae. unfold cols_for_height.
  destruct (int_times_ratio U HU) as (d & Ed & Hd). rewrite Ed.
  pose proof (inject_Z_bounds tw 1 (2 ^ 22) Htw) as [T1 T2].
  pose proof (inject_Z_bounds U 1 (2 ^ 22) HU) as [U1 U2].
  change (inject_Z 1) with 1%Q in *. change (inject_Z (2 ^ 22)) with 4194304%Q in *.
  rewrite <- Hd in He.
  assert (Hd0 : (0 < d)%Q) by lra.
  assert (P1 : (0 <= d * a)%Q) by (apply Qmult_le_0_compat; lra).
  assert (P2 : (d * a <= e * d)%Q).
  { apply (Qle_eq_l _ (a * d)%Q); [ring |]. apply Qmult_le_compat_r; lra. }
  destruct (fmul_abs d a 23) as (r & Er & Hr); [lia | |].
  { rewrite Qabs_pos by exact P1. change (pow2 23) with 8388608%Q. lra. }
  change (pow2 (23 - 25)) with (1 # 4)%Q in Hr. apply Qabs_Qle_condition in Hr.
  pose proof (fmul_nonneg d a r ltac:(lra) Ha Er) as R0.
  rewrite Er.
  destruct (Qtrunc_le r tw R0) as [T0 T3]; [lra |].
  rewrite f2i_in_range by (unfold INT_MIN, INT_MAX; lia). exact T3.
Qed.

(** Scale-to-fit by width: when the image is wider than the terminal
    ([aspect > terminal aspect]) the height derived from any width that
    fits the terminal fits the usable rows. *)
Lemma rows_for_width_bound cs tw U a e w :
  1 <= tw <= 2 ^ 22 -> 1 <= U <= 2 ^ 22 ->
  (inject_Z tw * (1 - (1 # 16777216)) <= e * (inject_Z U * (3 # 2)))%Q ->
  (0 < e)%Q -> (e < a)%Q -> w <= tw ->
  rows_for_width cs (FFin a) w <= U.
Proof.
  intros Htw HU He He0 Hea Hw. unfold rows_for_width.
  destruct (Z.le_gt_cases w 0) as [Hneg | Hpos].
  - apply Z.le_trans with 0; [| lia]. apply f2i_nonpos.
    apply fdiv_nonpos; [| reflexivity]. apply fdiv_nonpos; [| lra].
    apply i2f_nonpos. exact Hneg.
  - destruct (i2f_small w) as (wq & Ewq & Hwq); [lia |]. rewrite Ewq.
    pose proof (inject_Z_bounds tw 1 (2 ^ 22) Htw) as [T1 T2].
    pose proof (inject_Z_bounds U 1 (2 ^ 22) HU) as [U1 U2].
    pose proof (inject_Z_bounds w 1 tw ltac:(lia)) as [W1 W2].
    change (inject_Z 1) with 1%Q in *. change (inject_Z (2 ^ 22)) with 4194304%Q in *.
    rewrite <- Hwq in W1, W2.
    set (d := (inject_Z U * (3 # 2))%Q) in *.
    assert (Ha0 : (0 < a)%Q) by lra.
    unfold fdiv at 2.
    destruct (Qeq_bool a 0) eqn:B; [apply Qeq_bool_eq in B; lra |].
    set (X := (wq / a)%Q).
    assert (X0 : (0 < X)%Q) by (apply Qlt_shift_div_l; lra).
    assert (EX : (X * a == wq)%Q) by (unfold X; field; lra).
    (* X * (1 - u) <= d *)
    assert (XB : (X * (1 - (1 # 16777216)) <= d)%Q).
    { apply (Qmult_le_l _ _ (inject_Z tw)); [lra |].
      apply Qle_trans with (X * (e * d))%Q.
      - apply (Qle_eq_l _ (X * (inject_Z tw * (1 - (1 # 16777216))))%Q); [ring |].
        apply Qmult_le_l; [exact X0 | exact He].
      - apply Qle_trans with (X * a * d)%Q.
        + apply (Qle_eq_l _ (X * e * d)%Q); [ring |].
          apply Qmult_le_compat_r; [| unfold d; lra].
          apply Qmult_le_l; [exact X0 | lra].
        + rewrite EX. apply Qmult_le_compat_r; [lra | unfold d; lra]. }
    assert (XU : (X <= d + (1 # 2))%Q) by (unfold d in *; lra).
    destruct (round32_abs X 23) as (bq & Ebq & Hbq); [lia | |].
    { rewrite Qabs_pos by lra. change (pow2 23) with 8388608%Q. unfold d in *. lra. }
    change (pow2 (23 - 25)) with (1 # 4)%Q in Hbq. apply Qabs_Qle_condition in Hbq.
    pose proof (round32_nonneg X bq ltac:(lra) Ebq) as bq0.
    rewrite Ebq. unfold TERMINAL_CHAR_HEIGHT_TO_WIDTH_RATIO, fdiv.
    change (Qeq_bool (3 # 2) 0) with false. cbv iota.
    assert (EY : (bq / (3 # 2) == bq * (2 # 3))%Q) by (field).
    rewrite (round32_proper _ _ EY).
    destruct (round32_abs (bq * (2 # 3)) 23) as (gq & Egq & Hgq); [lia | |].
    { rewrite Qabs_pos by lra. change (pow2 23) with 8388608%Q. unfold d in *. lra. }
    change (pow2 (23 - 25)) with (1 # 4)%Q in Hgq. apply Qabs_Qle_condition in Hgq.
    pose proof (round32_nonneg (bq * (2 # 3)) gq ltac:(lra) Egq) as gq0.
    rewrite Egq.
    destruct (Qtrunc_le gq U gq0) as [T0 T3]; [unfold d in *; lra |].
    rewrite f2i_in_range by (unfold INT_MIN, INT_MAX; lia). exact T3.
Qed.

Lemma at_least_1_ge v : 1 <= at_least_1 v.
Proof. unfold at_least_1. destruct (Z.leb_spec v 0); lia. Qed.

Lemma at_least_1_le v n : v <= n -> 1 <= n -> at_least_1 v <= n.
Proof. unfold at_least_1. destruct (Z.leb_spec v 0); lia. Qed.

Lemma at_least_1_id v : 1 <= v -> at_least_1 v = v.
Proof. unfold at_least_1. destruct (Z.leb_spec v 0); lia. Qed.

Lemma le_at_least_1 v : v <= at_least_1 v.
Proof. unfold at_least_1. destruct (Z.leb_spec v 0); lia. Qed.

Lemma usable_rows_spec th :
  1 <= th <= INT_MAX -> usable_rows th = Z.max 1 (th - 2).
Proof.
  intros Hth. unfold usable_rows, isub.
  rewrite wrap32_id by (unfold in_int, INT_MIN, INT_MAX in *; lia).
  destruct (Z.leb_spec (th - 2) 0); lia.
Qed.

(** C5 (amended): for a terminal of at most 2^22 columns and rows, any
    positive source size and any zoom factor, the computed width is in
    [1, terminalColumns] and the height in [1, max 1 (terminalRows - 2)]. *)
Theorem calculate_display_dimensions_in_terminal cs tw th iw ih zoom :
  1 <= tw <= 2 ^ 22 -> 1 <= th <= 2 ^ 22 ->
  1 <= iw <= INT_MAX -> 1 <= ih <= INT_MAX ->
  let '(w, h) := calculate_display_dimensions cs tw th iw ih zoom in
  1 <= w <= tw /\ 1 <= h <= Z.max 1 (th - 2).
Proof.
  intros Htw Hth Hiw Hih.
  rewrite calculate_display_dimensions_eq by lia.
  rewrite <- (usable_rows_spec th) by (unfold INT_MAX; lia).
  assert (HU : 1 <= usable_rows th <= 2 ^ 22).
  { rewrite usable_rows_spec by (unfold INT_MAX; lia). lia. }
  set (U := usable_rows th) in *. cbv zeta.
  destruct (image_aspect_spec iw ih Hiw Hih) as (a & Ea & Ha). rewrite Ea.
  destruct (terminal_aspect_spec tw U Htw HU) as (e & Ee & [He1 He2]). rewrite Ee.
  pose proof (inject_Z_bounds tw 1 (2 ^ 22) Htw) as [T1 T2].
  pose proof (inject_Z_bounds U 1 (2 ^ 22) HU) as [U1 U2].
  change (inject_Z 1) with 1%Q in *. change (inject_Z (2 ^ 22)) with 4194304%Q in *.
  assert (He0 : (0 < e)%Q).
  { destruct (Qlt_le_dec 0 e) as [P | N]; [exact P | exfalso].
    assert (e * (inject_Z U * (3 # 2)) <= 0)%Q by nra. lra. }
  unfold fgt. destruct (Qle_bool a e) eqn:B; cbn [negb].
  - (* scale to fit by height *)
    apply Qle_bool_iff in B.
    pose proof (cols_for_height_bound cs tw U a e Htw HU ltac:(lra) He2 B) as K.
    set (h0 := f2i cs (fmul (i2f U) zoom)).
    set (w0 := cols_for_height cs (FFin a) h0).
    destruct (Z.ltb_spec tw (at_least_1 w0)) as [C1 | C1].
    + set (h2 := at_least_1 (rows_for_width cs (FFin a) tw)).
      destruct (Z.ltb_spec U h2) as [C2 | C2].
      * rewrite (at_least_1_id U) by lia.
        pose proof (at_least_1_ge (at_least_1 (cols_for_height cs (FFin a) U))).
        pose proof (at_least_1_le _ tw (at_least_1_le _ tw K ltac:(lia)) ltac:(lia)).
        lia.
      * rewrite (at_least_1_id tw) by lia.
        pose proof (at_least_1_ge h2). pose proof (at_least_1_le h2 U C2 ltac:(lia)).
        lia.
    + set (h1 := at_least_1 h0).
      destruct (Z.ltb_spec U h1) as [C2 | C2].
      * rewrite (at_least_1_id U) by lia.
        pose proof (at_least_1_ge (at_least_1 (cols_for_height cs (FFin a) U))).
        pose proof (at_least_1_le _ tw (at_least_1_le _ tw K ltac:(lia)) ltac:(lia)).
        lia.
      * pose proof (at_least_1_ge (at_least_1 w0)).
        pose proof (at_least_1_le _ tw C1 ltac:(lia)).
        pose proof (at_least_1_ge h1). pose proof (at_least_1_le h1 U C2 ltac:(lia)).
        lia.
  - (* scale to fit by width *)
    assert (Hea : (e < a)%Q).
    { destruct (Qlt_le_dec e a) as [P | N]; [exact P |].
      apply Qle_bool_iff in N. congruence. }
    set (w0 := f2i cs (fmul (i2f tw) zoom)).
    set (h0 := rows_for_width cs (FFin a) w0).
    destruct (Z.ltb_spec tw (at_least_1 w0)) as [C1 | C1].
    + pose proof (rows_for_width_bound cs tw U a e tw Htw HU He1 He0 Hea ltac:(lia)) as K.
      set (h2 := at_least_1 (rows_for_width cs (FFin a) tw)).
      assert (Hh2 : 1 <= h2 <= U).
      { split; [apply at_least_1_ge | apply at_least_1_le; [exact K | lia]]. }
      destruct (Z.ltb_spec U h2) as [C2 | C2]; [lia |].
      rewrite (at_least_1_id tw), (at_least_1_id h2) by lia. lia.
    + assert (Hw0 : w0 <= tw).
      { apply Z.le_trans with (at_least_1 w0); [apply le_at_least_1 | exact C1]. }
      pose proof (rows_for_width_bound cs tw U a e w0 Htw HU He1 He0 Hea Hw0) as K.
      fold h0 in K.
      assert (Hh1 : 1 <= at_least_1 h0 <= U).
      { split; [apply at_least_1_ge | apply at_least_1_le; [exact K | lia]]. }
      destruct (Z.ltb_spec U (at_least_1 h0)) as [C2 | C2]; [lia |].
      pose proof (at_least_1_ge w0).
      rewrite (at_least_1_id (at_least_1 w0)), (at_least_1_id (at_least_1 h0)) by lia.
      lia.
Qed.

Lemma calculate_display_dimensions_in_terminal_witness :
  let '(w, h) := calculate_display_dimensions Indefinite 80 24 100 100 (FFin 1) in
  1 <= w <= 80 /\ 1 <= h <= Z.max 1 (24 - 2).
Proof.
  apply (calculate_display_dimensions_in_terminal Indefinite 80 24 100 100 (FFin 1));
    unfold INT_MAX; lia.
Defined.

(* ----------------------------------------------------------------- *)
(** ** FrameRenderer: reads of narrow images *)

(** With one or two samples per pixel, the colour extraction of the last
    pixel reads past the end of any image. *)
Lemma pixel_rgb_last_pixel_past_buffer cs img w h c bg_r bg_g bg_b :
  valid_image img w h c -> 1 <= w -> 1 <= h -> c = 1 \/ c = 2 ->
  pixel_rgb cs img (imul (iadd (imul (h - 1) w) (w - 1)) c) c bg_r bg_g bg_b = UB.
Proof.
  intros (_ & _ & _ & Hsz & Hlen) Hw Hh Hc.
  assert (Ec : (c =? 4) = false) by (destruct Hc; subst; reflexivity).
  assert (Hc1 : 1 <= c) by lia.
  destruct (dims_le_size w h c Hw Hh Hc1) as [D1 D2].
  assert (P : 0 <= (h - 1) * w) by (apply Z.mul_nonneg_nonneg; lia).
  assert (Q1 : (h - 1) * w + (w - 1) = w * h - 1) by ring.
  assert (Q2 : 0 <= w * h - 1) by nia.
  assert (Q3 : (w * h - 1) * c = w * h * c - c) by ring.
  unfold INT_MAX in *.
  assert (Eidx : imul (iadd (imul (h - 1) w) (w - 1)) c = w * h * c - c).
  { unfold imul, iadd.
    rewrite (wrap32_id ((h - 1) * w)) by (unfold in_int, INT_MIN, INT_MAX; nia).
    rewrite Q1. rewrite (wrap32_id (w * h - 1)) by (unfold in_int, INT_MIN, INT_MAX; nia).
    rewrite Q3. apply wrap32_id. unfold in_int, INT_MIN, INT_MAX. lia. }
  unfold pixel_rgb. rewrite Ec, Eidx. unfold iadd.
  destruct (load img (w * h * c - c)) as [r |]; [| reflexivity]. cbn [ub_bind].
  destruct Hc as [-> | ->].
  - rewrite (wrap32_id (w * h * 1 - 1 + 1)) by (unfold in_int, INT_MIN, INT_MAX; lia).
    rewrite (load_out_of_bounds img (w * h * 1 - 1 + 1)) by lia. reflexivity.
  - rewrite (wrap32_id (w * h * 2 - 2 + 1)) by (unfold in_int, INT_MIN, INT_MAX; lia).
    destruct (load img (w * h * 2 - 2 + 1)) as [g |]; [| reflexivity]. cbn [ub_bind].
    rewrite (wrap32_id (w * h * 2 - 2 + 2)) by (unfold in_int, INT_MIN, INT_MAX; lia).
    rewrite (load_out_of_bounds img (w * h * 2 - 2 + 2)) by lia. reflexivity.
Qed.

(* ================================================================= *)
(** * Part III — further properties of the code *)
(* ================================================================= *)

(** ** ColorQuantizer: the whole input domain *)

(** X1: [rgb_to_256] on bytes: the result lies in 16..256, and it is 256 --
    one past the last palette index -- exactly for the greys 243..252. *)
Theorem rgb_to_256_leaves_palette_iff r g b :
  is_uchar r -> is_uchar g -> is_uchar b ->
  16 <= rgb_to_256 r g b <= 256 /\
  (rgb_to_256 r g b = 256 <-> r = g /\ g = b /\ 243 <= r <= 252).
Proof.
  intros Hr Hg Hb. unfold is_uchar in *.
  destruct (Z.eq_dec r g) as [-> | Hrg].
  - destruct (Z.eq_dec g b) as [-> | Hgb].
    + rewrite rgb_to_256_gray.
      destruct (Z.ltb_spec b 3).
      { split; [lia |]. split; [intros ?; lia | intros (_ & _ & ?); lia]. }
      destruct (Z.ltb_spec 252 b).
      { split; [lia |]. split; [intros ?; lia | intros (_ & _ & ?); lia]. }
      rewrite Z.quot_div_nonneg by lia.
      assert (B1 : 0 <= (b - 3) / 10) by (apply Z.div_pos; lia).
      assert (B2 : (b - 3) / 10 < 25) by (apply Z.div_lt_upper_bound; lia).
      split; [lia |]. split.
      * intros E. assert (E' : (b - 3) / 10 = 24) by lia.
        assert (24 * 10 <= b - 3).
        { rewrite <- E'. rewrite Z.mul_comm. apply Z.mul_div_le. lia. }
        repeat split; lia.
      * intros (_ & _ & Hb').
        assert (24 <= (b - 3) / 10) by (apply Z.div_le_lower_bound; lia). lia.
    + pose proof (rgb_to_256_cube_range g g b Hg Hg Hb) as R.
      assert (R' : 16 <= rgb_to_256 g g b <= 231) by (apply R; intros [_ ?]; congruence).
      split; [lia |]. split; [lia | intros (_ & ? & _); congruence].
  - pose proof (rgb_to_256_cube_range r g b Hr Hg Hb) as R.
    assert (R' : 16 <= rgb_to_256 r g b <= 231) by (apply R; intros [? _]; congruence).
    split; [lia |]. split; [lia | intros (? & _); congruence].
Qed.

Lemma rgb_to_256_leaves_palette_iff_witness :
  rgb_to_256 250 250 250 = 256 <-> 250 = 250 /\ 250 = 250 /\ 243 <= 250 <= 252.
Proof.
  apply (rgb_to_256_leaves_palette_iff 250 250 250); unfold is_uchar; lia.
Defined.

Lemma cube_digit v : is_uchar v -> min 5 (v * 6 ÷ 256) = v * 6 / 256 /\ 0 <= v * 6 / 256 <= 5.
Proof.
  intros Hv. unfold is_uchar in Hv.
  rewrite Z.quot_div_nonneg by lia.
  assert (0 <= v * 6 / 256) by (apply Z.div_pos; lia).
  assert (v * 6 / 256 < 6) by (apply Z.div_lt_upper_bound; lia).
  unfold min. destruct (Z.ltb_spec 5 (v * 6 / 256)); lia.
Qed.

(** X2: a colour that is not a grey lands in the 6x6x6 cube (16..231), and
    the three base-6 digits of its index are the channels quantised to six
    levels: decoding the index gives [6v/256] for each channel [v]. *)
Theorem rgb_to_256_cube_digits r g b :
  is_uchar r -> is_uchar g -> is_uchar b -> ~ (r = g /\ g = b) ->
  let code := rgb_to_256 r g b - 16 in
  0 <= code < 216 /\
  code / 36 = r * 6 / 256 /\
  code / 6 mod 6 = g * 6 / 256 /\
  code mod 6 = b * 6 / 256.
Proof.
  intros Hr Hg Hb Hne. cbv zeta.
  destruct (cube_digit r Hr) as [Er Br].
  destruct (cube_digit g Hg) as [Eg Bg].
  destruct (cube_digit b Hb) as [Eb Bb].
  assert (E : rgb_to_256 r g b =
              16 + (r * 6 / 256) * 36 + (g * 6 / 256) * 6 + b * 6 / 256).
  { unfold rgb_to_256.
    destruct ((r =? g) && (g =? b)) eqn:Eg'.
    - apply andb_true_iff in Eg' as [E1 E2].
      apply Z.eqb_eq in E1, E2. tauto.
    - cbv zeta. rewrite Er, Eg, Eb. reflexivity. }
  rewrite E.
  set (ri := r * 6 / 256) in *. set (gi := g * 6 / 256) in *.
  set (bi := b * 6 / 256) in *.
  replace (16 + ri * 36 + gi * 6 + bi - 16) with (bi + (gi + ri * 6) * 6) by ring.
  split; [lia |].
  assert (D6 : (bi + (gi + ri * 6) * 6) / 6 = gi + ri * 6).
  { rewrite Z.div_add by lia. rewrite Z.div_small by lia. lia. }
  split.
  - replace 36 with (6 * 6) by reflexivity.
    rewrite <- Z.div_div by lia. rewrite D6.
    rewrite Z.div_add by lia. rewrite Z.div_small by lia. lia.
  - split.
    + rewrite D6. rewrite Z.mod_add by lia. apply Z.mod_small. lia.
    + rewrite Z.mod_add by lia. apply Z.mod_small. lia.
Qed.

Lemma rgb_to_256_cube_digits_witness :
  let code := rgb_to_256 255 128 0 - 16 in
  0 <= code < 216 /\
  code / 36 = 255 * 6 / 256 /\
  code / 6 mod 6 = 128 * 6 / 256 /\
  code mod 6 = 0 * 6 / 256.
Proof.
  apply (rgb_to_256_cube_digits 255 128 0); unfold is_uchar; lia.
Defined.

(** X3: [rgb_to_16] returns 0 (black) when no channel exceeds 128, and a
    bright colour 9..15 otherwise: the normal colours 1..7 and the value 8
    are never produced. *)
Theorem rgb_to_16_black_or_bright r g b :
  (rgb_to_16 r g b = 0 <-> r <= 128 /\ g <= 128 /\ b <= 128) /\
  (rgb_to_16 r g b = 0 \/ 9 <= rgb_to_16 r g b <= 15).
Proof.
  unfold rgb_to_16.
  destruct (Z.ltb_spec 128 r), (Z.ltb_spec 128 g), (Z.ltb_spec 128 b);
    cbn; (split; [split; [intros; lia | intros; lia] | lia]).
Qed.

(** ** Strings *)

Lemma append_assoc (a b c : string) : (a +++ b) +++ c = a +++ (b +++ c).
Proof. induction a as [| ch a IH]; cbn; [reflexivity | now rewrite IH]. Qed.

Lemma strlen_append (a b : string) : strlen (a +++ b) = strlen a + strlen b.
Proof.
  unfold strlen. induction a as [| ch a IH]; cbn [String.append String.length].
  - reflexivity.
  - rewrite !Nat2Z.inj_succ. lia.
Qed.

Lemma strlen_nonneg (a : string) : 0 <= strlen a.
Proof. unfold strlen. lia. Qed.

(** Every byte prints with one to three digits. *)
Lemma fmt_d_uchar_length n : is_uchar n -> 1 <= strlen (fmt_d n) <= 3.
Proof.
  intros Hn. unfold is_uchar in Hn.
  assert (A : forallb (fun k : nat =>
                         (1 <=? strlen (fmt_d (Z.of_nat k)))
                         && (strlen (fmt_d (Z.of_nat k)) <=? 3)) (seq 0 257) = true)
    by (vm_compute; reflexivity).
  rewrite forallb_forall in A.
  specialize (A (Z.to_nat n)).
  rewrite Z2Nat.id in A by lia.
  assert (I : In (Z.to_nat n) (seq 0 257)) by (apply in_seq; lia).
  apply A in I. apply andb_true_iff in I as [I1 I2].
  apply Z.leb_le in I1, I2. lia.
Qed.

(** ** EscapeCodeCache *)

Lemma lookup_map {A B : Type} (f : A -> B) (l : list A) (i : nat) :
  map f l !! i = option_map f (l !! i).
Proof.
  revert i. induction l as [| a l IH]; intros [| i]; cbn; try reflexivity.
  apply IH.
Qed.

Lemma load_map_seq {B : Type} (f : Z -> B) (n : nat) (i : Z) :
  0 <= i < Z.of_nat n ->
  load (map f (map Z.of_nat (seq 0 n))) i = Def (f i).
Proof.
  intros Hi. unfold load.
  destruct (Z.ltb_spec i 0); [lia |].
  rewrite !lookup_map, lookup_seq_lt by lia. cbn.
  now rewrite Z2Nat.id by lia.
Qed.

Lemma load_map_seq_out {B : Type} (f : Z -> B) (n : nat) (i : Z) :
  Z.of_nat n <= i -> load (map f (map Z.of_nat (seq 0 n))) i = UB.
Proof.
  intros Hi. apply load_out_of_bounds.
  now rewrite !length_map, length_seq.
Qed.

Lemma s_ansi_cache_256_entry (malloc : nat -> allocator) g i :
  0 <= i < 256 ->
  load (s_ansi_cache_256 (init_ansi_cache malloc g)) i
    = Def (cache_entry (malloc (16 + Z.to_nat i)%nat)
             (ESC +++ "[48;5;" +++ fmt_d i +++ "m")).
Proof.
  intros Hi. cbn [init_ansi_cache s_ansi_cache_256].
  exact (load_map_seq
           (fun i => cache_entry (malloc (16 + Z.to_nat i)%nat)
                       (ESC +++ "[48;5;" +++ fmt_d i +++ "m")) 256 i Hi).
Qed.

Lemma s_ansi_cache_16_entry (malloc : nat -> allocator) g i :
  0 <= i < 16 ->
  load (s_ansi_cache_16 (init_ansi_cache malloc g)) i
    = Def (cache_entry (malloc (Z.to_nat i))
             (if i <? 8 then ESC +++ "[4" +++ fmt_d i +++ "m"
              else ESC +++ "[10" +++ fmt_d (i - 8) +++ "m")).
Proof.
  intros Hi. cbn [init_ansi_cache s_ansi_cache_16].
  exact (load_map_seq
           (fun i => cache_entry (malloc (Z.to_nat i))
                       (if i <? 8 then ESC +++ "[4" +++ fmt_d i +++ "m"
                        else ESC +++ "[10" +++ fmt_d (i - 8) +++ "m")) 16 i Hi).
Qed.

(** The strings [init_ansi_cache] prints, with their terminator, take at
    most 12 bytes. *)
Lemma cache_16_text_length k :
  0 <= k < 16 ->
  strlen (if k <? 8 then ESC +++ "[4" +++ fmt_d k +++ "m"
          else ESC +++ "[10" +++ fmt_d (k - 8) +++ "m") + 1 <= 12.
Proof.
  intros Hk.
  assert (1 <= strlen (fmt_d k) <= 3) by (apply fmt_d_uchar_length; unfold is_uchar; lia).
  assert (1 <= strlen (fmt_d (k - 8)) <= 3 \/ k < 8).
  { destruct (Z.lt_ge_cases k 8); [now right | left].
    apply fmt_d_uchar_length; unfold is_uchar; lia. }
  destruct (Z.ltb_spec k 8); rewrite !strlen_append;
    change (strlen ESC) with 1; change (strlen "[4") with 2;
    change (strlen "[10") with 3; change (strlen "m") with 1; lia.
Qed.

Lemma cache_256_text_length k :
  0 <= k < 256 -> strlen (ESC +++ "[48;5;" +++ fmt_d k +++ "m") + 1 <= 12.
Proof.
  intros Hk.
  assert (1 <= strlen (fmt_d k) <= 3) by (apply fmt_d_uchar_length; unfold is_uchar; lia).
  rewrite !strlen_append.
  change (strlen ESC) with 1; change (strlen "[48;5;") with 6;
    change (strlen "m") with 1; lia.
Qed.

(** X4: [init_ansi_cache] fills the 16 and the 256 entries, each one
    allocated or left NULL on its own, and no string it prints overruns the
    16 bytes allocated for it: an entry is NULL, or its allocation succeeded
    and it holds at most 11 characters and the terminator. *)
Theorem init_ansi_cache_strings_fit (malloc : nat -> allocator) g :
  Z.of_nat (length (s_ansi_cache_16 (init_ansi_cache malloc g))) = 16 /\
  Z.of_nat (length (s_ansi_cache_256 (init_ansi_cache malloc g))) = 256 /\
  forall i text,
    (load (s_ansi_cache_16 (init_ansi_cache malloc g)) i = Def (Some text) ->
     malloc (Z.to_nat i) 16 <> None /\ strlen text + 1 <= 12) /\
    (load (s_ansi_cache_256 (init_ansi_cache malloc g)) i = Def (Some text) ->
     malloc (16 + Z.to_nat i)%nat 16 <> None /\ strlen text + 1 <= 12).
Proof.
  split; [reflexivity |]. split; [reflexivity |].
  intros i text. split; intros L.
  - destruct (Z.lt_ge_cases i 0) as [Hneg | Hpos];
      [rewrite load_negative in L by exact Hneg; discriminate |].
    destruct (Z.lt_ge_cases i 16) as [Hlt | Hge].
    + rewrite s_ansi_cache_16_entry in L by lia.
      unfold cache_entry in L.
      destruct (malloc (Z.to_nat i) 16); [| discriminate].
      injection L as <-. split; [discriminate | apply cache_16_text_length; lia].
    + cbn [init_ansi_cache s_ansi_cache_16] in L.
      rewrite load_map_seq_out in L by (cbn; lia). discriminate.
  - destruct (Z.lt_ge_cases i 0) as [Hneg | Hpos];
      [rewrite load_negative in L by exact Hneg; discriminate |].
    destruct (Z.lt_ge_cases i 256) as [Hlt | Hge].
    + rewrite s_ansi_cache_256_entry in L by lia.
      unfold cache_entry in L.
      destruct (malloc (16 + Z.to_nat i)%nat 16); [| discriminate].
      injection L as <-. split; [discriminate | apply cache_256_text_length; lia].
    + cbn [init_ansi_cache s_ansi_cache_256] in L.
      rewrite load_map_seq_out in L by (cbn; lia). discriminate.
Qed.

(** ** The text of one cell *)

Lemma format_256_cached_or_not (malloc : nat -> allocator) g r gr b :
  0 <= rgb_to_256 r gr b <= 255 ->
  format_ansi_color_code (init_ansi_cache malloc g) r gr b COLOR_MODE_256
    = Def {| em_text := ESC +++ "[48;5;" +++ fmt_d (rgb_to_256 r gr b) +++ "m ";
             em_nul := match malloc (16 + Z.to_nat (rgb_to_256 r gr b))%nat 16 with
                       | Some _ => false
                       | None => true
                       end |}.
Proof.
  intros Hc. cbn [format_ansi_color_code].
  rewrite s_ansi_cache_256_entry by lia. cbn [ub_bind].
  unfold cache_entry.
  destruct (malloc (16 + Z.to_nat (rgb_to_256 r gr b))%nat 16); [| reflexivity].
  f_equal. f_equal.
  rewrite !append_assoc. reflexivity.
Qed.

(** X5: in 256-colour mode the text written for a pixel does not depend on
    whether its cache entry could be allocated: the cached string followed by
    a space and the [sprintf] of the fallback are the same characters,
    whichever entries of the cache are NULL. *)
Theorem format_ansi_color_code_256_cache_agrees (malloc : nat -> allocator) g r gr b :
  0 <= rgb_to_256 r gr b <= 255 ->
  exists e,
    format_ansi_color_code (init_ansi_cache malloc g) r gr b COLOR_MODE_256 = Def e /\
    em_text e = ESC +++ "[48;5;" +++ fmt_d (rgb_to_256 r gr b) +++ "m ".
Proof.
  intros Hc. eexists. split; [apply format_256_cached_or_not; exact Hc | reflexivity].
Qed.

Lemma format_ansi_color_code_256_cache_agrees_witness :
  exists e,
    format_ansi_color_code
      (init_ansi_cache (fun k => if Nat.even k then zeroed_malloc else fun _ => None)
         initial_globals)
      10 200 30 COLOR_MODE_256 = Def e /\
    em_text e = ESC +++ "[48;5;" +++ fmt_d (rgb_to_256 10 200 30) +++ "m ".
Proof.
  apply (format_ansi_color_code_256_cache_agrees
           (fun k => if Nat.even k then zeroed_malloc else fun _ => None)
           initial_globals 10 200 30).
  vm_compute. split; discriminate.
Defined.

Lemma rgb_to_16_values r g b :
  In (rgb_to_16 r g b) [0; 9; 10; 11; 12; 13; 14; 15].
Proof.
  unfold rgb_to_16.
  destruct (128 <? r), (128 <? g), (128 <? b); cbn; tauto.
Qed.

Lemma format_16_cached (malloc : nat -> allocator) blk g r gr b :
  malloc (Z.to_nat (rgb_to_16 r gr b)) 16 = Some blk ->
  format_ansi_color_code (init_ansi_cache malloc g) r gr b COLOR_MODE_16
    = Def {| em_text :=
               (if rgb_to_16 r gr b <? 8
                then ESC +++ "[4" +++ fmt_d (rgb_to_16 r gr b) +++ "m"
                else ESC +++ "[10" +++ fmt_d (rgb_to_16 r gr b - 8) +++ "m") +++ " ";
             em_nul := false |}.
Proof.
  intros Hm. cbn [format_ansi_color_code].
  pose proof (rgb_to_16_range r gr b) as R.
  rewrite s_ansi_cache_16_entry by lia. cbn [ub_bind].
  unfold cache_entry. rewrite Hm. reflexivity.
Qed.

Lemma format_16_fallback (malloc : nat -> allocator) g r gr b :
  malloc (Z.to_nat (rgb_to_16 r gr b)) 16 = None ->
  format_ansi_color_code (init_ansi_cache malloc g) r gr b COLOR_MODE_16
    = Def {| em_text := ESC +++ "[4" +++ fmt_d (rgb_to_16 r gr b) +++ "m ";
             em_nul := true |}.
Proof.
  intros Hm. cbn [format_ansi_color_code].
  pose proof (rgb_to_16_range r gr b) as R.
  rewrite s_ansi_cache_16_entry by lia. cbn [ub_bind].
  unfold cache_entry. rewrite Hm. reflexivity.
Qed.

(** X6: in 16-colour mode the fallback taken when the cache entry of a colour
    is NULL prints [ESC[4<n>m] for every colour, while the cache holds
    [ESC[10<n-8>m] for the bright colours 8..15: the two paths write the
    same text only for black. *)
Theorem format_ansi_color_code_16_fallback_differs
  (malloc failing : nat -> allocator) blk g r gr b :
  malloc (Z.to_nat (rgb_to_16 r gr b)) 16 = Some blk ->
  failing (Z.to_nat (rgb_to_16 r gr b)) 16 = None ->
  exists hit miss,
    format_ansi_color_code (init_ansi_cache malloc g) r gr b COLOR_MODE_16 = Def hit /\
    format_ansi_color_code (init_ansi_cache failing g) r gr b COLOR_MODE_16 = Def miss /\
    (em_text hit = em_text miss <-> rgb_to_16 r gr b = 0).
Proof.
  intros Hok Hfail.
  rewrite (format_16_cached malloc blk g r gr b Hok).
  rewrite (format_16_fallback failing g r gr b Hfail).
  do 2 eexists. split; [reflexivity |]. split; [reflexivity |].
  cbn [em_text].
  pose proof (rgb_to_16_values r gr b) as V.
  cbn [In] in V.
  destruct V as [<- | [<- | [<- | [<- | [<- | [<- | [<- | [<- | []]]]]]]]];
    (split; [intros E; vm_compute in E; try discriminate E; reflexivity
            | intros E; try discriminate E; reflexivity]).
Qed.

Lemma format_ansi_color_code_16_fallback_differs_witness :
  exists hit miss,
    format_ansi_color_code (init_ansi_cache (fun _ => zeroed_malloc) initial_globals)
      255 0 0 COLOR_MODE_16 = Def hit /\
    format_ansi_color_code
      (init_ansi_cache (fun k => if Nat.eqb k 12 then fun _ => None else zeroed_malloc)
         initial_globals)
      255 0 0 COLOR_MODE_16 = Def miss /\
    (em_text hit = em_text miss <-> rgb_to_16 255 0 0 = 0).
Proof.
  apply (format_ansi_color_code_16_fallback_differs
           (fun _ => zeroed_malloc)
           (fun k => if Nat.eqb k 12 then fun _ => None else zeroed_malloc)
           (replicate 16 0)); reflexivity.
Defined.

(** ** Command line *)

Lemma normalize_rotation_spec d :
  in_int d -> normalize_rotation d = (90 * (d ÷ 90)) mod 360.
Proof.
  intros Hd. unfold in_int, INT_MIN, INT_MAX in Hd. unfold normalize_rotation.
  pose proof (Z.quot_rem' d 90) as E.
  pose proof (Z.rem_bound_abs d 90 ltac:(lia)) as B.
  assert (S : Z.abs (90 * (d ÷ 90)) <= Z.abs d).
  { pose proof (Z.rem_sign_mul d 90 ltac:(lia)) as Sg.
    destruct (Z.eq_dec (Z.rem d 90) 0) as [R0 | R0]; [lia |].
    pose proof (Z.rem_sign_nz d 90 ltac:(lia) R0) as Sn.
    destruct (Z.lt_trichotomy d 0) as [Hn | [Hz | Hp]].
    - rewrite (Z.sgn_neg d Hn) in Sn.
      assert (Z.rem d 90 < 0) by (apply Z.sgn_neg_iff; lia). lia.
    - subst d. cbn in R0. lia.
    - rewrite (Z.sgn_pos d Hp) in Sn.
      assert (0 < Z.rem d 90) by (apply Z.sgn_pos_iff; lia). lia. }
  set (d' := if negb (Z.rem d 90 =? 0) then isub d (Z.rem d 90) else d).
  assert (Ed : d' = 90 * (d ÷ 90)).
  { unfold d'. destruct (Z.eqb_spec (Z.rem d 90) 0) as [R0 | R0]; cbn [negb].
    - lia.
    - unfold isub. rewrite wrap32_id by (unfold in_int, INT_MIN, INT_MAX; lia). lia. }
  rewrite Ed.
  pose proof (Z.rem_bound_abs (90 * (d ÷ 90)) 360 ltac:(lia)) as B2.
  unfold iadd. rewrite wrap32_id by (unfold in_int, INT_MIN, INT_MAX; lia).
  rewrite Z.rem_mod_nonneg by lia.
  pose proof (Z.quot_rem' (90 * (d ÷ 90)) 360) as E2.
  replace (Z.rem (90 * (d ÷ 90)) 360 + 360)
    with (90 * (d ÷ 90) + (1 - (90 * (d ÷ 90)) ÷ 360) * 360) by lia.
  apply Z.mod_add. lia.
Qed.

(** X7: whatever integer follows [--rotate], the angle kept is 0, 90, 180 or
    270: the argument rounded toward zero to a multiple of 90, modulo 360. *)
Theorem normalize_rotation_quarter_turns d :
  in_int d ->
  In (normalize_rotation d) [0; 90; 180; 270] /\
  normalize_rotation d = (90 * (d ÷ 90)) mod 360.
Proof.
  intros Hd. rewrite (normalize_rotation_spec d Hd). split; [| reflexivity].
  set (q := d ÷ 90).
  pose proof (Z.mod_pos_bound q 4 ltac:(lia)) as B.
  assert (E : (90 * q) mod 360 = 90 * (q mod 4)).
  { replace 360 with (90 * 4) by reflexivity.
    rewrite Z.mul_mod_distr_l by lia. reflexivity. }
  rewrite E. cbn [In].
  assert (q mod 4 = 0 \/ q mod 4 = 1 \/ q mod 4 = 2 \/ q mod 4 = 3) as [-> | [-> | [-> | ->]]]
    by lia; cbn; tauto.
Qed.

Lemma normalize_rotation_quarter_turns_witness :
  In (normalize_rotation (-100)) [0; 90; 180; 270] /\
  normalize_rotation (-100) = (90 * (-100 ÷ 90)) mod 360.
Proof.
  apply (normalize_rotation_quarter_turns (-100)).
  unfold in_int, INT_MIN, INT_MAX. lia.
Defined.

Lemma normalize_rotation_values d :
  in_int d -> In (normalize_rotation d) [0; 90; 180; 270].
Proof.
  intros Hd. rewrite (normalize_rotation_spec d Hd).
  set (q := d ÷ 90).
  pose proof (Z.mod_pos_bound q 4 ltac:(lia)) as B.
  assert (E : (90 * q) mod 360 = 90 * (q mod 4)).
  { replace 360 with (90 * 4) by reflexivity.
    rewrite Z.mul_mod_distr_l by lia. reflexivity. }
  rewrite E. cbn [In].
  assert (q mod 4 = 0 \/ q mod 4 = 1 \/ q mod 4 = 2 \/ q mod 4 = 3) as [-> | [-> | [-> | ->]]]
    by lia; cbn; tauto.
Qed.

Lemma positive_zoom_not_le_0 z : fle (positive_zoom z) (FFin 0) = false.
Proof.
  unfold positive_zoom. destruct (fle z (FFin 0)) eqn:E; [reflexivity | exact E].
Qed.

Lemma parse_args_settled_from (atoi : string -> Z) (atof : string -> float) n :
  (forall s, in_int (atoi s)) ->
  forall args o0 o,
  (length args <= n)%nat ->
  In (rotate_degrees o0) [0; 90; 180; 270] ->
  (bg_r o0, bg_g o0, bg_b o0) = (0, 0, 0) \/
  (bg_r o0, bg_g o0, bg_b o0) = (255, 255, 255) ->
  fle (cli_zoom_factor o0) (FFin 0) = false ->
  parse_args atoi atof args o0 = Parsed o ->
  In (rotate_degrees o) [0; 90; 180; 270] /\
  ((bg_r o, bg_g o, bg_b o) = (0, 0, 0) \/ (bg_r o, bg_g o, bg_b o) = (255, 255, 255)) /\
  fle (cli_zoom_factor o) (FFin 0) = false.
Proof.
  intros atoi_int.
  induction n as [| n IH]; intros args o0 o Hlen Hr Hb Hz Hp.
  - destruct args; [| cbn in Hlen; lia]. cbn in Hp. injection Hp as <-. auto.
  - destruct args as [| arg rest]; [cbn in Hp; injection Hp as <-; auto |].
    cbn [length] in Hlen.
    assert (Hrest : (length rest <= n)%nat) by lia.
    assert (Hrest' : forall v rest', rest = v :: rest' -> (length rest' <= n)%nat).
    { intros v rest' ->. cbn [length] in Hrest. lia. }
    cbn [parse_args] in Hp.
    repeat match type of Hp with
    | (if ?c then _ else _) = _ => destruct c
    | match ?l with [] => _ | _ :: _ => _ end = _ =>
        let v := fresh "value" in let l' := fresh "rest'" in
        destruct l as [| v l'] eqn:?
    | match filename ?o with _ => _ end = _ => destruct (filename o)
    end;
    try discriminate Hp;
    try (injection Hp as <-);
    try (eapply IH; [| | | | exact Hp];
         [first [exact Hrest | eapply Hrest'; reflexivity] | | |]);
    cbn;
    repeat split;
    try exact Hr; try exact Hb; try exact Hz;
    try apply normalize_rotation_values; try apply atoi_int;
    try apply positive_zoom_not_le_0;
    try (now left); try (now right).
    all: destruct Hr as [<- | [<- | [<- | [<- | []]]]];
      unfold in_int, INT_MIN, INT_MAX; lia.
Qed.

Lemma parse_args_keeps_file (atoi : string -> Z) (atof : string -> float) n :
  forall args o0 o name,
  (length args <= n)%nat -> filename o0 = Some name ->
  parse_args atoi atof args o0 = Parsed o -> filename o = Some name.
Proof.
  induction n as [| n IH]; intros args o0 o name Hlen H0 Hp.
  - destruct args; [| cbn in Hlen; lia]. cbn in Hp. now injection Hp as <-.
  - destruct args as [| arg rest]; [cbn in Hp; now injection Hp as <- |].
    cbn [length] in Hlen.
    assert (Hrest : (length rest <= n)%nat) by lia.
    cbn [parse_args] in Hp. rewrite H0 in Hp.
    repeat match type of Hp with
    | (if ?c then _ else _) = _ => destruct c
    | match ?l with [] => _ | _ :: _ => _ end = _ =>
        let v := fresh "value" in let l' := fresh "rest'" in
        destruct l as [| v l']
    end;
    try discriminate Hp;
    try (injection Hp as <-; exact H0);
    try (eapply IH; [| | exact Hp]; [cbn [length] in Hrest; lia | exact H0]).
Qed.

(** X8: when the argument loop of [main] runs to its end, the rotation is one
    of 0, 90, 180, 270, the background is black or white, and the zoom factor
    is not [<= 0] -- whatever the arguments are. *)
Theorem parse_args_settles_options (atoi : string -> Z) (atof : string -> float) args o :
  (forall s, in_int (atoi s)) ->
  parse_args atoi atof args default_options = Parsed o ->
  In (rotate_degrees o) [0; 90; 180; 270] /\
  ((bg_r o, bg_g o, bg_b o) = (0, 0, 0) \/ (bg_r o, bg_g o, bg_b o) = (255, 255, 255)) /\
  fle (cli_zoom_factor o) (FFin 0) = false.
Proof.
  intros Hatoi Hp.
  apply (parse_args_settled_from atoi atof (length args) Hatoi args default_options o);
    [lia | cbn; auto | cbn; auto | reflexivity | exact Hp].
Qed.

Lemma parse_args_settles_options_witness :
  exists o,
    parse_args (fun _ => -450) (fun _ => FFin (-2))
      ["--rotate"; "-450"; "--zoom"; "-2"; "--bg"; "red"; "photo.png"]%string
      default_options = Parsed o /\
    In (rotate_degrees o) [0; 90; 180; 270] /\
    ((bg_r o, bg_g o, bg_b o) = (0, 0, 0) \/ (bg_r o, bg_g o, bg_b o) = (255, 255, 255)) /\
    fle (cli_zoom_factor o) (FFin 0) = false.
Proof.
  eexists. split; [reflexivity |].
  apply (parse_args_settles_options (fun _ => -450) (fun _ => FFin (-2))
           ["--rotate"; "-450"; "--zoom"; "-2"; "--bg"; "red"; "photo.png"]%string).
  - intros _. unfold in_int, INT_MIN, INT_MAX. lia.
  - reflexivity.
Defined.

(** X9: only the first image file named on the command line is used: once a
    file name is recorded, no later argument replaces it. *)
Theorem parse_args_first_file_wins (atoi : string -> Z) (atof : string -> float)
  args o0 o name :
  filename o0 = Some name ->
  parse_args atoi atof args o0 = Parsed o ->
  filename o = Some name.
Proof.
  intros H0 Hp.
  exact (parse_args_keeps_file atoi atof (length args) args o0 o name (le_n _) H0 Hp).
Qed.

Lemma parse_args_first_file_wins_witness :
  exists o,
    parse_args (fun _ => 0) (fun _ => f_one) ["--flip-h"; "b.png"]%string
      (set_filename "a.png" default_options) = Parsed o /\
    filename o = Some "a.png"%string.
Proof.
  eexists. split; [reflexivity |].
  apply (parse_args_first_file_wins (fun _ => 0) (fun _ => f_one)
           ["--flip-h"; "b.png"]%string (set_filename "a.png" default_options));
    reflexivity.
Defined.

(** ** TerminalProbe *)

(** X10: [get_terminal_size] always reports a positive width and height, and
    caches them: every later call returns the same size without looking at
    the terminal again. *)
Theorem get_terminal_size_positive_and_cached probe probe' st :
  let '(st1, w, h) := get_terminal_size probe st in
  0 < w /\ 0 < h /\ get_terminal_size probe' st1 = (st1, w, h).
Proof.
  unfold get_terminal_size at 1.
  destruct ((0 <? s_term_width st) && (0 <? s_term_height st)) eqn:C.
  - apply andb_true_iff in C as [C1 C2].
    pose proof C1 as C1'. pose proof C2 as C2'.
    apply Z.ltb_lt in C1', C2'.
    split; [exact C1' |]. split; [exact C2' |].
    unfold get_terminal_size. now rewrite C1, C2.
  - set (d1 := match ioctl_winsize probe with
               | Some (ws_col, ws_row) => (ws_col, ws_row)
               | None => (0, 0)
               end).
    destruct d1 as [w1 h1].
    set (d2 := if (w1 <=? 0) || (h1 <=? 0)
               then match env_size probe with
                    | Some (c, r) => if (0 <? c) && (0 <? r) then (c, r) else (w1, h1)
                    | None => (w1, h1)
                    end
               else (w1, h1)).
    destruct d2 as [w2 h2].
    set (d3 := if (w2 <=? 0) || (h2 <=? 0)
               then (match tput_cols probe with
                     | Some (Some n) => n
                     | Some None => 0
                     | None => w2
                     end,
                     match tput_lines probe with
                     | Some (Some n) => n
                     | Some None => 0
                     | None => h2
                     end)
               else (w2, h2)).
    destruct d3 as [w3 h3].
    set (w := if w3 <=? 0 then 80 else w3).
    set (h := if h3 <=? 0 then 24 else h3).
    assert (Hw : 0 < w) by (unfold w; destruct (Z.leb_spec w3 0); lia).
    assert (Hh : 0 < h) by (unfold h; destruct (Z.leb_spec h3 0); lia).
    split; [exact Hw |]. split; [exact Hh |].
    unfold get_terminal_size. cbn [s_term_width s_term_height].
    apply Z.ltb_lt in Hw, Hh. now rewrite Hw, Hh.
Qed.

(** ** ColorDetector *)

(** X11: [detect_color_support] always settles on a mode: it never leaves
    [COLOR_MODE_UNKNOWN], and it reports 256 colours only for a [TERM] that
    contains one of its six names. *)
Theorem detect_color_support_settles env :
  detect_color_support env <> COLOR_MODE_UNKNOWN /\
  (detect_color_support env = COLOR_MODE_256 ->
   exists term name, TERM env = Some term /\ In name terms_256 /\ strstr term name = true).
Proof.
  unfold detect_color_support.
  destruct (match COLORTERM env with
            | Some colorterm => strstr colorterm "truecolor" || strstr colorterm "24bit"
            | None => false
            end); [split; [discriminate | discriminate] |].
  destruct (match KONSOLE_PROFILE_NAME env, KONSOLE_VERSION env with
            | None, None => false
            | _, _ => true
            end); [split; [discriminate | discriminate] |].
  destruct (match TERM_PROGRAM env with
            | Some program => strstr program "iTerm"
            | None => false
            end); [split; [discriminate | discriminate] |].
  destruct (TERM env) as [term |]; [| split; discriminate].
  destruct (existsb (strstr term) terms_256) eqn:E.
  - split; [discriminate |]. intros _.
    apply existsb_exists in E as (name & Hin & Hs).
    exists term, name. auto.
  - destruct (strstr term "xterm" || strstr term "screen" || strstr term "vt100"
              || strstr term "ansi" || strstr term "linux"); split; discriminate.
Qed.

(** ** GeometryTransforms: how the transforms compose *)

Lemma rotate_image_180_spec dm (malloc : allocator) img w h c blk :
  valid_image img w h c -> alloc_wf malloc -> malloc (w * h * c) = Some blk ->
  exists out,
    rotate_image_180 dm malloc (Some img) w h c = Def (Some out) /\
    valid_image out w h c /\
    forall y x ch, 0 <= y < h -> 0 <= x < w -> 0 <= ch < c ->
      load out (lin w c y x ch) = load img (lin w c (h - 1 - y) (w - 1 - x) ch).
Proof.
  intros (Hw & Hh & Hc & Hsz & Hlen) Hwf Hm.
  assert (Hnn : 0 <= w * h * c) by (rewrite <- Hlen; lia).
  unfold rotate_image_180. rewrite data_size_valid by lia. rewrite Hm.
  assert (Hsrc : forall y x ch, 0 <= y < h -> 0 <= x < w -> 0 <= ch < c ->
            sample_index w c (isub (isub h 1) y) (isub (isub w 1) x) ch
              = lin w c (h - 1 - y) (w - 1 - x) ch).
  { intros y x ch Hy Hx Hch.
    destruct (dims_le_size w h c) as [Hwle Hhle]; try lia.
    rewrite !isub_mirror by lia. apply (sample_index_lin w h c); lia. }
  destruct (fill_loop_spec
              (fun y x ch => load img (sample_index w c (isub (isub h 1) y)
                                         (isub (isub w 1) x) ch))
              blk w h c)
    as (out & E & Hlo & Hout); try assumption.
  - apply Hwf. exact Hm.
  - intros y x ch Hy Hx Hch. rewrite Hsrc by assumption.
    apply load_in_bounds. rewrite Hlen. apply (lin_bound w h c); lia.
  - exists out. rewrite E. split; [reflexivity |]. split.
    + unfold valid_image. auto.
    + intros y x ch Hy Hx Hch.
      pose proof (lin_bound w h c y x ch Hy Hx Hch).
      rewrite Hout by (try assumption; lia). cbv beta.
      rewrite Hsrc by assumption. reflexivity.
Qed.

(** X12: [rotate_image_180] is the horizontal flip followed by the vertical
    flip: the two compositions give the same buffer. *)
Theorem rotate_image_180_is_both_flips dm (malloc : allocator) img w h c blk :
  valid_image img w h c -> alloc_wf malloc -> malloc (w * h * c) = Some blk ->
  exists mid out,
    flip_image_horizontal dm malloc (Some img) w h c = Def (Some mid) /\
    flip_image_vertical dm malloc (Some mid) w h c = Def (Some out) /\
    rotate_image_180 dm malloc (Some img) w h c = Def (Some out).
Proof.
  intros Hv Hwf Hm. pose proof Hv as (Hw & Hh & Hc & Hsz & Hlen).
  destruct (flip_image_horizontal_spec dm malloc img w h c blk Hv Hwf Hm)
    as (o1 & E1 & Hv1 & S1).
  destruct (flip_image_vertical_spec dm malloc o1 w h c blk Hv1 Hwf Hm)
    as (o2 & E2 & Hv2 & S2).
  destruct (rotate_image_180_spec dm malloc img w h c blk Hv Hwf Hm)
    as (r & Er & Hvr & Sr).
  exists o1, o2. split; [exact E1 |]. split; [exact E2 |].
  rewrite Er. do 2 f_equal.
  apply (buffer_ext r o2 w h c); try assumption; [apply Hvr | apply Hv2 |].
  intros y x ch Hy Hx Hch.
  rewrite Sr by assumption. rewrite S2 by assumption. rewrite S1 by lia.
  reflexivity.
Qed.

Lemma rotate_image_180_is_both_flips_witness :
  exists mid out,
    flip_image_horizontal LP64 zeroed_malloc (Some [1; 2; 3; 4; 5; 6]) 3 2 1
      = Def (Some mid) /\
    flip_image_vertical LP64 zeroed_malloc (Some mid) 3 2 1 = Def (Some out) /\
    rotate_image_180 LP64 zeroed_malloc (Some [1; 2; 3; 4; 5; 6]) 3 2 1
      = Def (Some out).
Proof.
  apply (rotate_image_180_is_both_flips LP64 zeroed_malloc [1; 2; 3; 4; 5; 6] 3 2 1
           (replicate 6 0)).
  - unfold valid_image, INT_MAX. cbn. lia.
  - exact zeroed_malloc_wf.
  - reflexivity.
Defined.

(** X13: a half turn applied twice gives the input back. *)
Theorem rotate_image_180_twice_is_identity dm (malloc : allocator) img w h c blk :
  valid_image img w h c -> alloc_wf malloc -> malloc (w * h * c) = Some blk ->
  exists once,
    rotate_image_180 dm malloc (Some img) w h c = Def (Some once) /\
    rotate_image_180 dm malloc (Some once) w h c = Def (Some img).
Proof.
  intros Hv Hwf Hm. pose proof Hv as (Hw & Hh & Hc & Hsz & Hlen).
  destruct (rotate_image_180_spec dm malloc img w h c blk Hv Hwf Hm)
    as (o1 & E1 & Hv1 & S1).
  destruct (rotate_image_180_spec dm malloc o1 w h c blk Hv1 Hwf Hm)
    as (o2 & E2 & Hv2 & S2).
  exists o1. split; [exact E1 |]. rewrite E2. do 2 f_equal.
  apply (buffer_ext o2 img w h c); try assumption; [apply Hv2 |].
  intros y x ch Hy Hx Hch.
  rewrite S2 by assumption. rewrite S1 by lia.
  f_equal. f_equal; lia.
Qed.

Lemma rotate_image_180_twice_is_identity_witness :
  exists once,
    rotate_image_180 LP64 zeroed_malloc (Some [1; 2; 3; 4; 5; 6]) 3 2 1
      = Def (Some once) /\
    rotate_image_180 LP64 zeroed_malloc (Some once) 3 2 1
      = Def (Some [1; 2; 3; 4; 5; 6]).
Proof.
  apply (rotate_image_180_twice_is_identity LP64 zeroed_malloc [1; 2; 3; 4; 5; 6] 3 2 1
           (replicate 6 0)).
  - unfold valid_image, INT_MAX. cbn. lia.
  - exact zeroed_malloc_wf.
  - reflexivity.
Defined.

(** X14: the two flips commute: flipping horizontally then vertically gives
    the same buffer as flipping vertically then horizontally. *)
Theorem flips_commute dm (malloc : allocator) img w h c blk :
  valid_image img w h c -> alloc_wf malloc -> malloc (w * h * c) = Some blk ->
  exists hfirst vfirst out,
    flip_image_horizontal dm malloc (Some img) w h c = Def (Some hfirst) /\
    flip_image_vertical dm malloc (Some hfirst) w h c = Def (Some out) /\
    flip_image_vertical dm malloc (Some img) w h c = Def (Some vfirst) /\
    flip_image_horizontal dm malloc (Some vfirst) w h c = Def (Some out).
Proof.
  intros Hv Hwf Hm. pose proof Hv as (Hw & Hh & Hc & Hsz & Hlen).
  destruct (flip_image_horizontal_spec dm malloc img w h c blk Hv Hwf Hm)
    as (a1 & Ea1 & Hva1 & Sa1).
  destruct (flip_image_vertical_spec dm malloc a1 w h c blk Hva1 Hwf Hm)
    as (a2 & Ea2 & Hva2 & Sa2).
  destruct (flip_image_vertical_spec dm malloc img w h c blk Hv Hwf Hm)
    as (b1 & Eb1 & Hvb1 & Sb1).
  destruct (flip_image_horizontal_spec dm malloc b1 w h c blk Hvb1 Hwf Hm)
    as (b2 & Eb2 & Hvb2 & Sb2).
  exists a1, b1, a2. split; [exact Ea1 |]. split; [exact Ea2 |]. split; [exact Eb1 |].
  rewrite Eb2. do 2 f_equal.
  apply (buffer_ext b2 a2 w h c); try assumption; [apply Hvb2 | apply Hva2 |].
  intros y x ch Hy Hx Hch.
  rewrite Sb2 by assumption. rewrite Sb1 by lia.
  rewrite Sa2 by assumption. rewrite Sa1 by lia. reflexivity.
Qed.

Lemma flips_commute_witness :
  exists hfirst vfirst out,
    flip_image_horizontal LP64 zeroed_malloc (Some [1; 2; 3; 4; 5; 6]) 3 2 1
      = Def (Some hfirst) /\
    flip_image_vertical LP64 zeroed_malloc (Some hfirst) 3 2 1 = Def (Some out) /\
    flip_image_vertical LP64 zeroed_malloc (Some [1; 2; 3; 4; 5; 6]) 3 2 1
      = Def (Some vfirst) /\
    flip_image_horizontal LP64 zeroed_malloc (Some vfirst) 3 2 1 = Def (Some out).
Proof.
  apply (flips_commute LP64 zeroed_malloc [1; 2; 3; 4; 5; 6] 3 2 1 (replicate 6 0)).
  - unfold valid_image, INT_MAX. cbn. lia.
  - exact zeroed_malloc_wf.
  - reflexivity.
Defined.

(** X15: on a square image two quarter turns are the half turn. *)
Theorem rotate_square_twice_is_rotate_180 dm (malloc : allocator) img n c blk :
  valid_image img n n c -> alloc_wf malloc -> malloc (n * n * c) = Some blk ->
  exists out,
    rotate_times dm (fun _ => malloc) 2 img n n c = Def (Some out, n, n) /\
    rotate_image_180 dm malloc (Some img) n n c = Def (Some out).
Proof.
  intros Hv Hwf Hm. pose proof Hv as (Hw & _ & Hc & Hsz & Hlen).
  destruct (rotate_image_90_cw_square_spec dm malloc img n c blk Hv Hwf Hm)
    as (o1 & E1 & Hv1 & S1).
  destruct (rotate_image_90_cw_square_spec dm malloc o1 n c blk Hv1 Hwf Hm)
    as (o2 & E2 & Hv2 & S2).
  destruct (rotate_image_180_spec dm malloc img n n c blk Hv Hwf Hm)
    as (r & Er & Hvr & Sr).
  exists o2. split.
  - cbn [rotate_times ub_bind]. rewrite E1. cbn [ub_bind]. rewrite E2. reflexivity.
  - rewrite Er. do 2 f_equal.
    apply (buffer_ext r o2 n n c); try assumption; [apply Hvr | apply Hv2 |].
    intros y x ch Hy Hx Hch.
    rewrite Sr by assumption. rewrite S2 by assumption. rewrite S1 by lia.
    reflexivity.
Qed.

Lemma rotate_square_twice_is_rotate_180_witness :
  exists out,
    rotate_times LP64 (fun _ => zeroed_malloc) 2 [1; 2; 3; 4] 2 2 1
      = Def (Some out, 2, 2) /\
    rotate_image_180 LP64 zeroed_malloc (Some [1; 2; 3; 4]) 2 2 1 = Def (Some out).
Proof.
  apply (rotate_square_twice_is_rotate_180 LP64 zeroed_malloc [1; 2; 3; 4] 2 1
           (replicate 4 0)).
  - unfold valid_image, INT_MAX. cbn. lia.
  - exact zeroed_malloc_wf.
  - reflexivity.
Defined.

(** An image taller than wide: the column [x = w] of the destination reads
    source row [-1]. *)
Lemma rotate_image_90_cw_tall_reads_before_buffer dm (malloc : allocator) img w h c blk :
  valid_image img w h c -> 1 <= w < h -> 1 <= c ->
  malloc (w * h * c) = Some blk ->
  rotate_image_90_cw dm malloc (Some img) w h c = UB.
Proof.
  intros (Hw & Hh & Hc & Hsz & Hlen) Hwh Hc1 Hm.
  assert (Hnn : 0 <= w * h * c) by (rewrite <- Hlen; lia).
  unfold rotate_image_90_cw. cbv zeta.
  replace (size_mul dm (size_mul dm (to_size dm h) w) c) with (w * h * c).
  2:{ rewrite data_size_valid by lia. ring. }
  rewrite Hm.
  assert (Hwc : 1 <= w * c <= INT_MAX).
  { assert (0 <= (w - 1) * (c - 1)) by (apply Z.mul_nonneg_nonneg; lia).
    assert (0 <= (w * c) * (h - 1)) by (apply Z.mul_nonneg_nonneg; nia).
    nia. }
  assert (E : load img (sample_index w c (isub (isub w 1) w) 0 0) = UB).
  { unfold INT_MAX in *.
    unfold isub. rewrite (wrap32_id (w - 1)) by (unfold in_int, INT_MIN, INT_MAX; lia).
    rewrite (wrap32_id (w - 1 - w)) by (unfold in_int, INT_MIN, INT_MAX; lia).
    replace (w - 1 - w) with (-1) by lia.
    unfold sample_index, iadd, imul.
    rewrite (wrap32_id (-1 * w)) by (unfold in_int, INT_MIN, INT_MAX; lia).
    rewrite (wrap32_id (-1 * w + 0)) by (unfold in_int, INT_MIN, INT_MAX; lia).
    rewrite (wrap32_id ((-1 * w + 0) * c)) by (unfold in_int, INT_MIN, INT_MAX; nia).
    rewrite wrap32_id by (unfold in_int, INT_MIN, INT_MAX; nia).
    apply load_negative. nia. }
  match goal with
  | |- ub_bind ?m _ = UB => cut (m = UB); [intros ->; reflexivity |]
  end.
  apply (for_range_UB _ 0); [lia |]. intros s0.
  apply (for_range_UB _ w); [lia |]. intros s1.
  apply (for_range_UB _ 0); [lia |]. intros s2.
  rewrite E. reflexivity.
Qed.

(** X16: [rotate_image_90_cw] stays inside the source buffer exactly on square
    images: with [oy = original_w - 1 - x] it indexes a [w] x [w] square, so
    a wider image is read past its end and a taller one before its start. *)
Theorem rotate_image_90_cw_defined_iff_square dm (malloc : allocator) img w h c blk :
  valid_image img w h c -> 1 <= w -> 1 <= h -> 1 <= c ->
  w * w * c <= INT_MAX ->
  alloc_wf malloc -> malloc (w * h * c) = Some blk ->
  (rotate_image_90_cw dm malloc (Some img) w h c <> UB <-> w = h).
Proof.
  intros Hv Hw Hh Hc Hsq Hwf Hm. split.
  - intros Hdef. destruct (Z.lt_trichotomy w h) as [Hlt | [Heq | Hgt]]; [| exact Heq |].
    + exfalso. apply Hdef.
      apply (rotate_image_90_cw_tall_reads_before_buffer dm malloc img w h c blk);
        try assumption; lia.
    + exfalso. apply Hdef.
      apply (rotate_image_90_cw_wide_reads_past_buffer dm malloc img w h c blk);
        try assumption; [lia |].
      assert (0 <= w * c) by (apply Z.mul_nonneg_nonneg; lia). nia.
  - intros <-.
    destruct (rotate_image_90_cw_square_spec dm malloc img w c blk Hv Hwf Hm)
      as (out & E & _). rewrite E. discriminate.
Qed.

Lemma rotate_image_90_cw_defined_iff_square_witness :
  rotate_image_90_cw LP64 zeroed_malloc (Some [1; 2; 3; 4; 5; 6]) 2 3 1 <> UB <-> 2 = 3.
Proof.
  apply (rotate_image_90_cw_defined_iff_square LP64 zeroed_malloc [1; 2; 3; 4; 5; 6]
           2 3 1 (replicate 6 0)); try lia.
  - unfold valid_image, INT_MAX. cbn. lia.
  - unfold INT_MAX. lia.
  - exact zeroed_malloc_wf.
  - reflexivity.
Defined.

(** ** FrameRenderer: the line buffer *)

Lemma f2uchar_range cs f : is_uchar (f2uchar cs f).
Proof.
  unfold is_uchar, f2uchar.
  destruct cs.
  - pose proof (Z.mod_pos_bound (f2i Indefinite f) 256 ltac:(lia)). lia.
  - destruct f as [q | [|] |]; try lia.
    pose proof (Z.mod_pos_bound (Z.max 0 (Z.min (Qtrunc q) 4294967295)) 256 ltac:(lia)).
    lia.
Qed.

Lemma load_nth (img : list Z) i :
  0 <= i < Z.of_nat (length img) -> load img i = Def (nth (Z.to_nat i) img 0).
Proof.
  intros Hi. destruct (load_in_bounds img i Hi) as [v Hv].
  rewrite Hv. f_equal. apply load_Def in Hv as [_ Hv].
  symmetry. apply nth_lookup_Some with (d := 0) in Hv. exact Hv.
Qed.

Lemma nth_uchar (img : list Z) i :
  Forall is_uchar img -> 0 <= i < Z.of_nat (length img) ->
  is_uchar (nth (Z.to_nat i) img 0).
Proof.
  intros Hall Hi. rewrite List.Forall_forall in Hall. apply Hall.
  apply nth_In. lia.
Qed.

Lemma wrap32_idem z : wrap32 (wrap32 z) = wrap32 z.
Proof. apply wrap32_id. apply wrap32_range. Qed.

(** The index [(y * width + x) * channels] of [render_image]. *)
Lemma pixel_index_lin w h c y x :
  w * h * c <= INT_MAX -> 0 <= y < h -> 0 <= x < w -> 1 <= c ->
  imul (iadd (imul y w) x) c = lin w c y x 0.
Proof.
  intros Hsz Hy Hx Hc.
  rewrite <- (sample_index_lin w h c y x 0 Hsz Hy Hx ltac:(lia)).
  unfold sample_index. generalize (iadd (imul y w) x) as t. intros t.
  unfold iadd, imul. now rewrite Z.add_0_r, wrap32_idem.
Qed.

Lemma pixel_index_offset w h c y x k :
  w * h * c <= INT_MAX -> 0 <= y < h -> 0 <= x < w -> 0 <= k < c ->
  iadd (imul (iadd (imul y w) x) c) k = lin w c y x k.
Proof.
  intros Hsz Hy Hx Hk.
  exact (sample_index_lin w h c y x k Hsz Hy Hx Hk).
Qed.

(** The colour [render_image] computes for a pixel of an image with at
    least three samples per pixel: defined, and three bytes. *)
Lemma pixel_rgb_defined cs img w h c bg_r bg_g bg_b y x :
  valid_image img w h c -> 3 <= c -> Forall is_uchar img ->
  0 <= y < h -> 0 <= x < w ->
  exists r g b,
    pixel_rgb cs img (imul (iadd (imul y w) x) c) c bg_r bg_g bg_b = Def (r, g, b) /\
    is_uchar r /\ is_uchar g /\ is_uchar b /\
    (c <> 4 ->
     r = nth (Z.to_nat (lin w c y x 0)) img 0 /\
     g = nth (Z.to_nat (lin w c y x 1)) img 0 /\
     b = nth (Z.to_nat (lin w c y x 2)) img 0).
Proof.
  intros (Hw & Hh & Hc & Hsz & Hlen) Hc3 Hall Hy Hx.
  pose proof (lin_bound w h c y x 0 Hy Hx ltac:(lia)) as B0.
  pose proof (lin_bound w h c y x 1 Hy Hx ltac:(lia)) as B1.
  pose proof (lin_bound w h c y x 2 Hy Hx ltac:(lia)) as B2.
  unfold pixel_rgb.
  destruct (Z.eqb_spec c 4) as [-> | Hne].
  - pose proof (lin_bound w h 4 y x 3 Hy Hx ltac:(lia)) as B3.
    rewrite (pixel_index_offset w h 4 y x 1), (pixel_index_offset w h 4 y x 2),
      (pixel_index_offset w h 4 y x 3), (pixel_index_lin w h 4 y x)
      by (try assumption; lia).
    rewrite !load_nth by lia. cbn [ub_bind].
    do 3 eexists. split; [reflexivity |].
    split; [apply f2uchar_range |]. split; [apply f2uchar_range |].
    split; [apply f2uchar_range |]. intros Hc4. now contradiction Hc4.
  - rewrite (pixel_index_offset w h c y x 1), (pixel_index_offset w h c y x 2),
      (pixel_index_lin w h c y x) by (try assumption; lia).
    rewrite !load_nth by lia.
    cbn [ub_bind]. do 3 eexists. split; [reflexivity |].
    split; [apply nth_uchar; [assumption | lia] |].
    split; [apply nth_uchar; [assumption | lia] |].
    split; [apply nth_uchar; [assumption | lia] |]. intros _. auto.
Qed.

Lemma foldr_append_tail (f : Z -> string) (l : list Z) (t : string) :
  fold_right (fun x acc => f x +++ acc) t l
    = fold_right (fun x acc => f x +++ acc) ""%string l +++ t.
Proof.
  induction l as [| a l IH]; cbn [fold_right].
  - reflexivity.
  - rewrite IH. now rewrite append_assoc.
Qed.

Lemma append_empty_r (s : string) : s +++ "" = s.
Proof. induction s as [| ch s IH]; cbn; [reflexivity | now rewrite IH]. Qed.

Lemma buffer_size_per_line_exact dm w mps :
  0 <= w -> 2 <= mps -> w * mps + 32 <= SIZE_MAX dm ->
  size_add dm (size_mul dm (to_size dm w) mps) 32 = w * mps + 32 /\
  to_size dm w = w.
Proof.
  intros Hw Hm Hfit. unfold size_add, size_mul, to_size.
  assert (0 <= w * mps) by (apply Z.mul_nonneg_nonneg; lia).
  assert (w <= w * mps) by nia.
  rewrite (Z.mod_small w) by lia.
  rewrite (Z.mod_small (w * mps)) by lia.
  rewrite Z.mod_small by lia. auto.
Qed.

Lemma max_pixel_size_ge mode : 2 <= max_pixel_size mode <= 21.
Proof. destruct mode; cbn; lia. Qed.

Lemma INT_MAX_le_SIZE_MAX dm : INT_MAX <= SIZE_MAX dm.
Proof. unfold INT_MAX, SIZE_MAX. destruct dm; lia. Qed.

(** One step of the write position: inside the buffer and inside [int]. *)
Lemma buf_append_fits cap text e :
  strlen text + strlen (em_text e) + 1 <= cap -> cap <= INT_MAX ->
  buf_append cap text e = Def (text +++ em_text e).
Proof.
  intros Hcap Hint. unfold buf_append.
  destruct (Z.leb_spec (strlen text + strlen (em_text e) + (if em_nul e then 1 else 0)) cap)
    as [_ | Hbad]; [| destruct (em_nul e); lia].
  destruct (Z.leb_spec (strlen text + strlen (em_text e)) INT_MAX); [reflexivity | lia].
Qed.

Lemma buf_append_Def cap text e s :
  buf_append cap text e = Def s ->
  s = text +++ em_text e /\
  strlen text + strlen (em_text e) + (if em_nul e then 1 else 0) <= cap /\
  strlen text + strlen (em_text e) <= INT_MAX.
Proof.
  unfold buf_append.
  destruct (Z.leb_spec (strlen text + strlen (em_text e) + (if em_nul e then 1 else 0)) cap);
    [| discriminate].
  destruct (Z.leb_spec (strlen text + strlen (em_text e)) INT_MAX); [| discriminate].
  cbn [andb]. intros [= <-]. auto.
Qed.

Lemma buf_append_overrun cap text e :
  cap < strlen text + strlen (em_text e) + (if em_nul e then 1 else 0) ->
  buf_append cap text e = UB.
Proof.
  intros Hbig. unfold buf_append.
  destruct (Z.leb_spec (strlen text + strlen (em_text e) + (if em_nul e then 1 else 0)) cap);
    [lia | reflexivity].
Qed.

(** The output of [render_image] when every cell can be formatted and the
    line buffer is no longer than [INT_MAX] bytes: one block per row, the
    cells in column order followed by the reset code. *)
Lemma render_image_rows dm cs (malloc : allocator) detected g img w h c
  bg_r bg_g bg_b blk (cell : Z -> Z -> string) :
  s_detected_color_mode g <> COLOR_MODE_UNKNOWN ->
  0 <= w -> 0 <= h ->
  w * max_pixel_size (s_detected_color_mode g) + 32 <= INT_MAX ->
  malloc (w * max_pixel_size (s_detected_color_mode g) + 32) = Some blk ->
  (forall y x, 0 <= y < h -> 0 <= x < w ->
     exists r gr b e,
       pixel_rgb cs img (imul (iadd (imul y w) x) c) c bg_r bg_g bg_b = Def (r, gr, b) /\
       format_ansi_color_code g r gr b (s_detected_color_mode g) = Def e /\
       em_text e = cell y x /\
       strlen (cell y x) + 1 <= max_pixel_size (s_detected_color_mode g)) ->
  render_image dm cs malloc detected g img w h c bg_r bg_g bg_b
    = Def (g, map (fun y =>
                     fold_right (fun x acc => cell y x +++ acc)
                       (ESC +++ "[0m" +++ NL) (seqZ 0 w))
                  (seqZ 0 h)).
Proof.
  intros Hmode Hw Hh Hint Hm Hcell.
  set (mps := max_pixel_size (s_detected_color_mode g)) in *.
  pose proof (max_pixel_size_ge (s_detected_color_mode g)) as Hmps. fold mps in Hmps.
  assert (Hfit : w * mps + 32 <= SIZE_MAX dm)
    by (pose proof (INT_MAX_le_SIZE_MAX dm); lia).
  unfold render_image. fold mps.
  destruct (buffer_size_per_line_exact dm w mps Hw ltac:(lia) Hfit) as [-> ->].
  assert (Hchk : ((w * mps + 32) / mps <? w) = false).
  { apply Z.ltb_ge. apply Z.div_le_lower_bound; lia. }
  rewrite Hchk, Hm.
  set (g' := match s_detected_color_mode g with
             | COLOR_MODE_UNKNOWN => _
             | _ => g
             end).
  assert (Eg : g' = g) by (unfold g'; destruct (s_detected_color_mode g); congruence).
  rewrite Eg. clear g' Eg.
  set (cells := fun y x => fold_right (fun i acc => cell y i +++ acc) ""%string (seqZ 0 x)).
  assert (Hrow : forall y, 0 <= y < h ->
            exists line,
              for_range 0 w (fun x line =>
                let idx := imul (iadd (imul y w) x) c in
                do rgb <- pixel_rgb cs img idx c bg_r bg_g bg_b;
                let '(r, gr, b) := rgb in
                do e <- format_ansi_color_code g r gr b (s_detected_color_mode g);
                buf_append (w * mps + 32) line e) ""%string = Def line /\
              (line = cells y w /\ strlen line <= (mps - 1) * w)).
  { intros y Hy.
    apply (for_range_inv (fun x line => line = cells y x /\ strlen line <= (mps - 1) * x)).
    - exact Hw.
    - split; [reflexivity | change (strlen "") with 0; lia].
    - intros x line Hx [-> Hlen].
      destruct (Hcell y x Hy Hx) as (r & gr & b & e & Ep & Ef & Et & Hl).
      cbv zeta. rewrite Ep. cbn [ub_bind]. rewrite Ef. cbn [ub_bind].
      rewrite buf_append_fits by (rewrite ?Et; nia). rewrite Et.
      eexists. split; [reflexivity |]. split.
      + unfold cells.
        replace (x + 1) with (Z.of_nat (S (Z.to_nat x))) by lia.
        rewrite seqZ_S. rewrite Z2Nat.id by lia.
        rewrite fold_right_app. cbn [fold_right].
        rewrite (foldr_append_tail (cell y) (seqZ 0 x) (cell y (0 + x) +++ "")).
        rewrite append_empty_r. reflexivity.
      + rewrite strlen_append. nia. }
  assert (Hout : exists out,
            for_range 0 h (fun y out =>
              do line <-
                for_range 0 w (fun x line =>
                  let idx := imul (iadd (imul y w) x) c in
                  do rgb <- pixel_rgb cs img idx c bg_r bg_g bg_b;
                  let '(r, gr, b) := rgb in
                  do e <- format_ansi_color_code g r gr b (s_detected_color_mode g);
                  buf_append (w * mps + 32) line e) ""%string;
              do line' <- buf_append (w * mps + 32) line
                            {| em_text := ESC +++ "[0m" +++ NL; em_nul := true |};
              Def (out ++ [line'])) [] = Def out /\
            out = map (fun y => cells y w +++ ESC +++ "[0m" +++ NL) (seqZ 0 h)).
  { apply (for_range_inv
             (fun y out => out = map (fun y => cells y w +++ ESC +++ "[0m" +++ NL) (seqZ 0 y))).
    - exact Hh.
    - reflexivity.
    - intros y out Hy ->.
      destruct (Hrow y Hy) as (line & El & -> & Hlen).
      rewrite El. cbn [ub_bind].
      rewrite buf_append_fits
        by (cbn [em_text]; change (strlen (ESC +++ "[0m" +++ NL)) with 5; nia).
      cbn [ub_bind em_text].
      eexists. split; [reflexivity |].
      replace (y + 1) with (Z.of_nat (S (Z.to_nat y))) by lia.
      rewrite seqZ_S. rewrite Z2Nat.id by lia.
      rewrite map_app. reflexivity. }
  destruct Hout as (out & Eo & ->). cbv zeta in Eo. rewrite Eo. cbn [ub_bind].
  do 2 f_equal. apply map_ext. intros y.
  unfold cells. symmetry. apply foldr_append_tail.
Qed.

Lemma true_color_cell_length r g b :
  is_uchar r -> is_uchar g -> is_uchar b ->
  strlen (ESC +++ "[48;2;" +++ fmt_d r +++ ";" +++ fmt_d g +++ ";" +++ fmt_d b +++ "m ")
    + 1 <= 21.
Proof.
  intros Hr Hg Hb.
  pose proof (fmt_d_uchar_length r Hr). pose proof (fmt_d_uchar_length g Hg).
  pose proof (fmt_d_uchar_length b Hb).
  rewrite !strlen_append.
  change (strlen ESC) with 1. change (strlen "[48;2;") with 6.
  change (strlen ";") with 1. change (strlen "m ") with 2. lia.
Qed.

(** X17: in true-colour mode a three-channel image whose line buffer of
    [21 * width + 32] bytes is no longer than [INT_MAX] (so that the [int]
    write position cannot overflow) is printed row by row: the block written
    for row [y] is, for each column in order, [ESC[48;2;R;G;Bm] and a space,
    then [ESC[0m] and a newline -- and the line buffer is never overrun. *)
Theorem render_image_true_color_rows dm cs (malloc : allocator) detected g img w h
  bg_r bg_g bg_b blk :
  s_detected_color_mode g = COLOR_MODE_TRUE_COLOR ->
  valid_image img w h 3 -> Forall is_uchar img ->
  w * 21 + 32 <= INT_MAX -> malloc (w * 21 + 32) = Some blk ->
  render_image dm cs malloc detected g img w h 3 bg_r bg_g bg_b
    = Def (g, map (fun y =>
                     fold_right (fun x acc =>
                         (ESC +++ "[48;2;"
                          +++ fmt_d (nth (Z.to_nat (lin w 3 y x 0)) img 0) +++ ";"
                          +++ fmt_d (nth (Z.to_nat (lin w 3 y x 1)) img 0) +++ ";"
                          +++ fmt_d (nth (Z.to_nat (lin w 3 y x 2)) img 0) +++ "m ")
                         +++ acc)
                       (ESC +++ "[0m" +++ NL) (seqZ 0 w))
                  (seqZ 0 h)).
Proof.
  intros Hmode Hv Hall Hfit Hm. pose proof Hv as (Hw & Hh & _).
  apply (render_image_rows dm cs malloc detected g img w h 3 bg_r bg_g bg_b blk
           (fun y x => ESC +++ "[48;2;"
                       +++ fmt_d (nth (Z.to_nat (lin w 3 y x 0)) img 0) +++ ";"
                       +++ fmt_d (nth (Z.to_nat (lin w 3 y x 1)) img 0) +++ ";"
                       +++ fmt_d (nth (Z.to_nat (lin w 3 y x 2)) img 0) +++ "m "));
    rewrite ?Hmode; try assumption; try discriminate.
  intros y x Hy Hx.
  destruct (pixel_rgb_defined cs img w h 3 bg_r bg_g bg_b y x Hv ltac:(lia) Hall Hy Hx)
    as (r & gr & b & Ep & Ur & Ug & Ub & Hval).
  destruct (Hval ltac:(lia)) as (Er & Eg & Eb).
  exists r, gr, b. eexists. split; [exact Ep |].
  split; [reflexivity |]. cbn [em_text]. subst r gr b.
  split; [reflexivity |]. cbn [max_pixel_size].
  apply true_color_cell_length; assumption.
Qed.

Lemma render_image_true_color_rows_witness :
  render_image LP64 Indefinite zeroed_malloc COLOR_MODE_16
    (ready_globals COLOR_MODE_TRUE_COLOR) [1; 2; 3; 40; 50; 60] 2 1 3 0 0 0
    = Def (ready_globals COLOR_MODE_TRUE_COLOR,
           [ESC +++ "[48;2;1;2;3m " +++ ESC +++ "[48;2;40;50;60m "
            +++ ESC +++ "[0m" +++ NL]).
Proof.
  apply (render_image_true_color_rows LP64 Indefinite zeroed_malloc COLOR_MODE_16
           (ready_globals COLOR_MODE_TRUE_COLOR) [1; 2; 3; 40; 50; 60] 2 1 0 0 0
           (replicate 74 0)).
  - reflexivity.
  - unfold valid_image, INT_MAX. cbn. lia.
  - repeat constructor; unfold is_uchar; lia.
  - unfold INT_MAX. lia.
  - reflexivity.
Defined.

Lemma sixteen_color_cell_length (m0 : nat -> allocator) g0 r gr b e :
  format_ansi_color_code (init_ansi_cache m0 g0) r gr b COLOR_MODE_16 = Def e ->
  strlen (em_text e) + 1 <= 9.
Proof.
  intros E.
  destruct (m0 (Z.to_nat (rgb_to_16 r gr b)) 16) as [blk |] eqn:Em.
  - rewrite (format_16_cached m0 blk g0 r gr b Em) in E. injection E as <-.
    cbn [em_text].
    pose proof (rgb_to_16_values r gr b) as V. cbn [In] in V.
    destruct V as [<- | [<- | [<- | [<- | [<- | [<- | [<- | [<- | []]]]]]]]];
      vm_compute; discriminate.
  - rewrite (format_16_fallback m0 g0 r gr b Em) in E. injection E as <-.
    cbn [em_text].
    pose proof (rgb_to_16_values r gr b) as V. cbn [In] in V.
    destruct V as [<- | [<- | [<- | [<- | [<- | [<- | [<- | [<- | []]]]]]]]];
      vm_compute; discriminate.
Qed.

Lemma format_16_defined (m0 : nat -> allocator) g0 r gr b :
  exists e, format_ansi_color_code (init_ansi_cache m0 g0) r gr b COLOR_MODE_16 = Def e.
Proof.
  destruct (m0 (Z.to_nat (rgb_to_16 r gr b)) 16) as [blk |] eqn:Em.
  - rewrite (format_16_cached m0 blk g0 r gr b Em). eauto.
  - rewrite (format_16_fallback m0 g0 r gr b Em). eauto.
Qed.

(** [render_image] is defined as soon as every cell can be formatted within
    [max_pixel_size] bytes and the line buffer is no longer than [INT_MAX]. *)
Lemma render_image_defined_from_cells dm cs (malloc : allocator) detected g img w h c
  bg_r bg_g bg_b blk :
  s_detected_color_mode g <> COLOR_MODE_UNKNOWN ->
  0 <= w -> 0 <= h ->
  w * max_pixel_size (s_detected_color_mode g) + 32 <= INT_MAX ->
  malloc (w * max_pixel_size (s_detected_color_mode g) + 32) = Some blk ->
  (forall y x, 0 <= y < h -> 0 <= x < w ->
     exists r gr b e,
       pixel_rgb cs img (imul (iadd (imul y w) x) c) c bg_r bg_g bg_b = Def (r, gr, b) /\
       format_ansi_color_code g r gr b (s_detected_color_mode g) = Def e /\
       strlen (em_text e) + 1 <= max_pixel_size (s_detected_color_mode g)) ->
  exists lines,
    render_image dm cs malloc detected g img w h c bg_r bg_g bg_b = Def (g, lines) /\
    length lines = Z.to_nat h.
Proof.
  intros Hmode Hw Hh Hfit Hm Hcell.
  set (cell_text := fun y x : Z =>
         match pixel_rgb cs img (imul (iadd (imul y w) x) c) c bg_r bg_g bg_b with
         | Def (r, gr, b) =>
             match format_ansi_color_code g r gr b (s_detected_color_mode g) with
             | Def e => em_text e
             | UB => ""%string
             end
         | UB => ""%string
         end).
  eexists. split.
  - apply (render_image_rows dm cs malloc detected g img w h c bg_r bg_g bg_b blk
             cell_text); try assumption.
    intros y x Hy Hx.
    destruct (Hcell y x Hy Hx) as (r & gr & b & e & Ep & Ee & Hl).
    exists r, gr, b, e. unfold cell_text. rewrite Ep, Ee. auto.
  - rewrite length_map, length_seqZ. reflexivity.
Qed.

(** In true-colour and in 16-colour mode every cell of an image with three
    or more channels fits. *)
Lemma render_cells_fit cs (m0 : nat -> allocator) g0 img w h c bg_r bg_g bg_b :
  s_detected_color_mode g0 = COLOR_MODE_TRUE_COLOR \/
  s_detected_color_mode g0 = COLOR_MODE_16 ->
  valid_image img w h c -> 3 <= c -> Forall is_uchar img ->
  forall y x, 0 <= y < h -> 0 <= x < w ->
    exists r gr b e,
      pixel_rgb cs img (imul (iadd (imul y w) x) c) c bg_r bg_g bg_b = Def (r, gr, b) /\
      format_ansi_color_code (init_ansi_cache m0 g0) r gr b (s_detected_color_mode g0)
        = Def e /\
      strlen (em_text e) + 1 <= max_pixel_size (s_detected_color_mode g0).
Proof.
  intros Hmode Hv Hc Hall y x Hy Hx.
  destruct (pixel_rgb_defined cs img w h c bg_r bg_g bg_b y x Hv Hc Hall Hy Hx)
    as (r & gr & b & Ep & Ur & Ug & Ub & _).
  exists r, gr, b.
  destruct Hmode as [Hmode | Hmode]; rewrite Hmode.
  - eexists. split; [exact Ep |]. split; [reflexivity |].
    cbn [em_text max_pixel_size]. apply true_color_cell_length; assumption.
  - destruct (format_16_defined m0 g0 r gr b) as [e Ee].
    exists e. split; [exact Ep |]. split; [exact Ee |].
    cbn [max_pixel_size]. apply (sixteen_color_cell_length m0 g0 r gr b e Ee).
Qed.

(** X18: in true-colour and in 16-colour mode, with the caches as
    [init_ansi_cache] leaves them -- whichever of its 272 allocations
    succeeded, so with any mix of filled and NULL entries -- rendering an
    image of three or more channels whose line buffer is no longer than
    [INT_MAX] bytes never leaves the line buffer or the image: it is defined
    and writes one block per row. *)
Theorem render_image_stays_in_bounds dm cs (malloc : allocator) (m0 : nat -> allocator)
  detected g0 img w h c bg_r bg_g bg_b blk :
  let g := init_ansi_cache m0 g0 in
  let mps := max_pixel_size (s_detected_color_mode g0) in
  s_detected_color_mode g0 = COLOR_MODE_TRUE_COLOR \/
  s_detected_color_mode g0 = COLOR_MODE_16 ->
  valid_image img w h c -> 3 <= c -> Forall is_uchar img ->
  w * mps + 32 <= INT_MAX -> malloc (w * mps + 32) = Some blk ->
  exists lines,
    render_image dm cs malloc detected g img w h c bg_r bg_g bg_b = Def (g, lines) /\
    length lines = Z.to_nat h.
Proof.
  intros g mps Hmode Hv Hc Hall Hfit Hm. pose proof Hv as (Hw & Hh & _).
  apply (render_image_defined_from_cells dm cs malloc detected g img w h c
           bg_r bg_g bg_b blk).
  - change (s_detected_color_mode g0 <> COLOR_MODE_UNKNOWN).
    destruct Hmode as [-> | ->]; discriminate.
  - exact Hw.
  - exact Hh.
  - exact Hfit.
  - exact Hm.
  - exact (render_cells_fit cs m0 g0 img w h c bg_r bg_g bg_b Hmode Hv Hc Hall).
Qed.

Lemma render_image_stays_in_bounds_witness :
  exists lines,
    render_image LP64 Indefinite zeroed_malloc COLOR_MODE_16
      (init_ansi_cache (fun k => if Nat.even k then zeroed_malloc else fun _ => None)
         {| s_detected_color_mode := COLOR_MODE_16;
            s_ansi_cache_16 := replicate 16 None;
            s_ansi_cache_256 := replicate 256 None |})
      [1; 2; 3; 255; 200; 50; 60; 128] 2 1 4 0 0 0
      = Def (init_ansi_cache
               (fun k => if Nat.even k then zeroed_malloc else fun _ => None)
               {| s_detected_color_mode := COLOR_MODE_16;
                  s_ansi_cache_16 := replicate 16 None;
                  s_ansi_cache_256 := replicate 256 None |}, lines) /\
    length lines = Z.to_nat 1.
Proof.
  apply (render_image_stays_in_bounds LP64 Indefinite zeroed_malloc
           (fun k => if Nat.even k then zeroed_malloc else fun _ => None)
           COLOR_MODE_16
           {| s_detected_color_mode := COLOR_MODE_16;
              s_ansi_cache_16 := replicate 16 None;
              s_ansi_cache_256 := replicate 256 None |}
           [1; 2; 3; 255; 200; 50; 60; 128] 2 1 4 0 0 0 (replicate 50 0)).
  - right. reflexivity.
  - unfold valid_image, INT_MAX. cbn. lia.
  - lia.
  - repeat constructor; unfold is_uchar; lia.
  - unfold INT_MAX. cbn. lia.
  - reflexivity.
Defined.

Lemma rgb_to_256_gray_high v : 243 <= v <= 252 -> rgb_to_256 v v v = 256.
Proof.
  intros Hv. rewrite rgb_to_256_gray.
  destruct (Z.ltb_spec v 3); [lia |]. destruct (Z.ltb_spec 252 v); [lia |].
  rewrite Z.quot_div_nonneg by lia.
  assert (24 <= (v - 3) / 10) by (apply Z.div_le_lower_bound; lia).
  assert ((v - 3) / 10 < 25) by (apply Z.div_lt_upper_bound; lia).
  lia.
Qed.

Lemma rgb_to_256_in_cache r g b :
  is_uchar r -> is_uchar g -> is_uchar b ->
  ~ (r = g /\ g = b /\ 243 <= r <= 252) ->
  16 <= rgb_to_256 r g b <= 255.
Proof.
  intros Hr Hg Hb Hn.
  destruct (Z.eq_dec r g) as [-> | Hrg];
    [destruct (Z.eq_dec g b) as [-> | Hgb] |].
  - rewrite rgb_to_256_gray. unfold is_uchar in Hb.
    destruct (Z.ltb_spec b 3); [lia |]. destruct (Z.ltb_spec 252 b); [lia |].
    rewrite Z.quot_div_nonneg by lia.
    assert (0 <= (b - 3) / 10) by (apply Z.div_pos; lia).
    assert ((b - 3) / 10 < 24) by (apply Z.div_lt_upper_bound; lia).
    lia.
  - pose proof (rgb_to_256_cube_range g g b Hg Hg Hb ltac:(intros [_ ?]; congruence)). lia.
  - pose proof (rgb_to_256_cube_range r g b Hr Hg Hb ltac:(intros [? _]; congruence)). lia.
Qed.

Lemma format_256_palette_overrun (m0 : nat -> allocator) g0 v :
  243 <= v <= 252 ->
  format_ansi_color_code (init_ansi_cache m0 g0) v v v COLOR_MODE_256 = UB.
Proof.
  intros Hv. cbn [format_ansi_color_code]. rewrite (rgb_to_256_gray_high v Hv).
  cbn [init_ansi_cache s_ansi_cache_256].
  rewrite load_map_seq_out by (cbn; lia). reflexivity.
Qed.

(** X19: in 256-colour mode, with any mix of filled and NULL cache entries, a
    three-channel image whose line buffer of [13 * width + 32] bytes is no
    longer than [INT_MAX] renders exactly when none of its pixels is a grey
    with samples 243..252: without such a pixel every row is printed with
    [ESC[48;5;<index>m]; with one, [render_image] indexes [s_ansi_cache_256]
    at 256, past its last entry. *)
Theorem render_image_256_defined_unless_light_grey dm cs (malloc : allocator)
  (m0 : nat -> allocator) detected g0 img w h bg_r bg_g bg_b blk :
  let g := init_ansi_cache m0 g0 in
  let px y x k := nth (Z.to_nat (lin w 3 y x k)) img 0 in
  let light_grey y x :=
    px y x 0 = px y x 1 /\ px y x 1 = px y x 2 /\ 243 <= px y x 0 <= 252 in
  s_detected_color_mode g0 = COLOR_MODE_256 ->
  valid_image img w h 3 -> Forall is_uchar img ->
  w * 13 + 32 <= INT_MAX -> malloc (w * 13 + 32) = Some blk ->
  ((forall y x, 0 <= y < h -> 0 <= x < w -> ~ light_grey y x) ->
   render_image dm cs malloc detected g img w h 3 bg_r bg_g bg_b
     = Def (g, map (fun y =>
                      fold_right (fun x acc =>
                          (ESC +++ "[48;5;"
                           +++ fmt_d (rgb_to_256 (px y x 0) (px y x 1) (px y x 2))
                           +++ "m ") +++ acc)
                        (ESC +++ "[0m" +++ NL) (seqZ 0 w))
                   (seqZ 0 h))) /\
  ((exists y x, 0 <= y < h /\ 0 <= x < w /\ light_grey y x) ->
   render_image dm cs malloc detected g img w h 3 bg_r bg_g bg_b = UB).
Proof.
  intros g px light_grey Hmode Hv Hall Hint Hm.
  pose proof Hv as (Hw & Hh & _ & Hsz & Hlen).
  assert (Hfit : w * 13 + 32 <= SIZE_MAX dm)
    by (pose proof (INT_MAX_le_SIZE_MAX dm); lia).
  assert (Eg : s_detected_color_mode g = COLOR_MODE_256) by exact Hmode.
  assert (Hpx : forall y x, 0 <= y < h -> 0 <= x < w ->
            pixel_rgb cs img (imul (iadd (imul y w) x) 3) 3 bg_r bg_g bg_b
              = Def (px y x 0, px y x 1, px y x 2) /\
            is_uchar (px y x 0) /\ is_uchar (px y x 1) /\ is_uchar (px y x 2)).
  { intros y x Hy Hx.
    destruct (pixel_rgb_defined cs img w h 3 bg_r bg_g bg_b y x Hv ltac:(lia) Hall Hy Hx)
      as (r & gr & b & Ep & Ur & Ug & Ub & Hval).
    destruct (Hval ltac:(lia)) as (Er & Egr & Eb). subst r gr b. auto. }
  split.
  - intros Hnone.
    apply (render_image_rows dm cs malloc detected g img w h 3 bg_r bg_g bg_b blk
             (fun y x => ESC +++ "[48;5;"
                         +++ fmt_d (rgb_to_256 (px y x 0) (px y x 1) (px y x 2))
                         +++ "m "));
      rewrite ?Eg; try assumption; try discriminate.
    intros y x Hy Hx.
    destruct (Hpx y x Hy Hx) as (Ep & U0 & U1 & U2).
    pose proof (rgb_to_256_in_cache _ _ _ U0 U1 U2 (Hnone y x Hy Hx)) as Hc.
    exists (px y x 0), (px y x 1), (px y x 2). eexists.
    split; [exact Ep |].
    split; [apply format_256_cached_or_not; lia |]. cbn [em_text].
    split; [reflexivity |]. cbn [max_pixel_size].
    assert (1 <= strlen (fmt_d (rgb_to_256 (px y x 0) (px y x 1) (px y x 2))) <= 3)
      by (apply fmt_d_uchar_length; unfold is_uchar; lia).
    rewrite !strlen_append.
    change (strlen ESC) with 1. change (strlen "[48;5;") with 6.
    change (strlen "m ") with 2. lia.
  - intros (y & x & Hy & Hx & E1 & E2 & Hgrey).
    destruct (Hpx y x Hy Hx) as (Ep & _).
    unfold render_image. rewrite Eg. cbn [max_pixel_size].
    destruct (buffer_size_per_line_exact dm w 13 Hw ltac:(lia) Hfit) as [-> ->].
    assert (Hchk : ((w * 13 + 32) / 13 <? w) = false).
    { apply Z.ltb_ge. apply Z.div_le_lower_bound; lia. }
    rewrite Hchk, Hm. cbv iota. rewrite ?Eg.
    match goal with
    | |- ub_bind ?m _ = UB => cut (m = UB); [intros ->; reflexivity |]
    end.
    apply (for_range_UB _ y); [lia |]. intros out.
    match goal with
    | |- ub_bind ?m _ = UB => cut (m = UB); [intros ->; reflexivity |]
    end.
    apply (for_range_UB _ x); [lia |]. intros line.
    cbv zeta. rewrite Ep. cbn [ub_bind].
    rewrite <- E2, <- E1.
    unfold g. rewrite (format_256_palette_overrun m0 g0 (px y x 0) Hgrey). reflexivity.
Qed.

Lemma render_image_256_defined_unless_light_grey_witness :
  render_image LP64 Indefinite zeroed_malloc COLOR_MODE_16
    (init_ansi_cache (fun k => if Nat.even k then zeroed_malloc else fun _ => None)
       {| s_detected_color_mode := COLOR_MODE_256;
          s_ansi_cache_16 := replicate 16 None;
          s_ansi_cache_256 := replicate 256 None |})
    [10; 20; 30; 250; 250; 250] 2 1 3 0 0 0 = UB.
Proof.
  apply (render_image_256_defined_unless_light_grey LP64 Indefinite zeroed_malloc
           (fun k => if Nat.even k then zeroed_malloc else fun _ => None) COLOR_MODE_16
           {| s_detected_color_mode := COLOR_MODE_256;
              s_ansi_cache_16 := replicate 16 None;
              s_ansi_cache_256 := replicate 256 None |}
           [10; 20; 30; 250; 250; 250] 2 1 0 0 0 (replicate 58 0)).
  - reflexivity.
  - unfold valid_image, INT_MAX. cbn. lia.
  - repeat constructor; unfold is_uchar; lia.
  - unfold INT_MAX. lia.
  - reflexivity.
  - exists 0, 1. split; [lia |]. split; [lia |].
    vm_compute. repeat split; discriminate.
Defined.



Lemma strlen_String ch (s : string) : strlen (String ch s) = 1 + strlen s.
Proof. unfold strlen. cbn [String.length]. lia. Qed.

(** What a loop that ran to its end has established. *)
Lemma for_loop_post {T : Type} (P : Z -> T -> Prop) (body : Z -> T -> ub T) n :
  forall lo s s',
  P lo s ->
  (forall i s s', lo <= i < lo + Z.of_nat n -> P i s -> body i s = Def s' -> P (i + 1) s') ->
  for_loop n lo body s = Def s' -> P (lo + Z.of_nat n) s'.
Proof.
  induction n as [| n IH]; intros lo s s' H0 Hstep E.
  - cbn in E. injection E as <-. now rewrite Z.add_0_r.
  - cbn [for_loop] in E.
    destruct (body lo s) as [s1 |] eqn:Eb; [| discriminate].
    cbn [ub_bind] in E.
    replace (lo + Z.of_nat (S n)) with (lo + 1 + Z.of_nat n) by lia.
    apply (IH (lo + 1) s1 s'); [| | exact E].
    + apply (Hstep lo s s1); [lia | exact H0 | exact Eb].
    + intros i t t' Hi. apply Hstep. lia.
Qed.

(** X21: [render_image] sizes its line buffer from the colour mode it finds on
    entry, and only then detects the mode.  Entered with the mode still
    unknown, it allocates [2 * width + 32] bytes; if detection then finds
    true colour, a row of three or more pixels overruns that buffer. *)
Theorem render_image_unknown_mode_overruns_buffer dm cs (malloc : allocator) g img w h
  bg_r bg_g bg_b blk :
  s_detected_color_mode g = COLOR_MODE_UNKNOWN ->
  valid_image img w h 3 -> Forall is_uchar img ->
  3 <= w -> 1 <= h ->
  malloc (w * 2 + 32) = Some blk ->
  render_image dm cs malloc COLOR_MODE_TRUE_COLOR g img w h 3 bg_r bg_g bg_b = UB.
Proof.
  intros Hmode Hv Hall Hw3 Hh1 Hm. pose proof Hv as (Hw & Hh & _ & Hsz & Hlen).
  assert (Hfit : w * 2 + 32 <= SIZE_MAX dm).
  { assert (w <= w * h) by nia. unfold INT_MAX in Hsz. destruct dm; cbn; lia. }
  unfold render_image. rewrite Hmode. cbn [max_pixel_size].
  destruct (buffer_size_per_line_exact dm w 2 Hw ltac:(lia) Hfit) as [-> ->].
  assert (Hchk : ((w * 2 + 32) / 2 <? w) = false).
  { apply Z.ltb_ge. apply Z.div_le_lower_bound; lia. }
  rewrite Hchk, Hm. cbn [s_detected_color_mode].
  match goal with
  | |- ub_bind ?m _ = UB => cut (m = UB); [intros ->; reflexivity |]
  end.
  apply (for_range_UB _ 0); [lia |]. intros out.
  match goal with
  | |- ub_bind ?m _ = UB => destruct m as [line |] eqn:Eline; [| reflexivity]
  end.
  cbn [ub_bind].
  assert (Hlong : 14 * w <= strlen line).
  { unfold for_range in Eline.
    rewrite Z.sub_0_r in Eline.
    replace w with (0 + Z.of_nat (Z.to_nat w)) at 1 by lia.
    refine (for_loop_post (fun x line => 14 * x <= strlen line) _ _ 0 ""%string line
              _ _ Eline); [change (strlen "") with 0; lia |].
    intros x l l' Hx Hl Eb. cbv beta zeta in Hl, Eb |- *.
    destruct (pixel_rgb_defined cs img w h 3 bg_r bg_g bg_b 0 x Hv ltac:(lia) Hall
                ltac:(lia) ltac:(lia))
      as (r & gr & b & Ep & Ur & Ug & Ub & _).
    rewrite Ep in Eb. cbn [ub_bind format_ansi_color_code] in Eb.
    unfold buf_append in Eb. cbn [em_text em_nul] in Eb.
    match type of Eb with
    | (if ?c then _ else _) = _ => destruct c; [| discriminate]
    end.
    injection Eb as <-.
    pose proof (fmt_d_uchar_length r Ur). pose proof (fmt_d_uchar_length gr Ug).
    pose proof (fmt_d_uchar_length b Ub).
    repeat (rewrite strlen_String || rewrite strlen_append).
    change (strlen "") with 0. lia. }
  unfold buf_append. cbn [em_text em_nul].
  change (strlen (ESC +++ "[0m" +++ NL)) with 5.
  destruct (Z.leb_spec (strlen line + 5 + 1) (w * 2 + 32)); [lia | reflexivity].
Qed.

Lemma render_image_unknown_mode_overruns_buffer_witness :
  render_image LP64 Indefinite zeroed_malloc COLOR_MODE_TRUE_COLOR initial_globals
    [1; 2; 3; 4; 5; 6; 7; 8; 9] 3 1 3 0 0 0 = UB.
Proof.
  apply (render_image_unknown_mode_overruns_buffer LP64 Indefinite zeroed_malloc
           initial_globals [1; 2; 3; 4; 5; 6; 7; 8; 9] 3 1 0 0 0 (replicate 38 0)).
  - reflexivity.
  - unfold valid_image, INT_MAX. cbn. lia.
  - repeat constructor; unfold is_uchar; lia.
  - lia.
  - lia.
  - reflexivity.
Defined.

(** ** Exact float operations on small integers *)

Lemma round32_int q n :
  (q == inject_Z n)%Q -> Z.abs n <= 2 ^ 24 ->
  exists r, round32 q = FFin r /\ (r == inject_Z n)%Q.
Proof.
  intros E Hn. rewrite (round32_proper q (inject_Z n) E).
  exact (i2f_small n Hn).
Qed.

Lemma inject_Z_nonzero n : n <> 0 -> ~ (inject_Z n == 0)%Q.
Proof.
  intros Hn E. apply Hn. unfold Qeq in E. cbn in E. lia.
Qed.

Lemma fmul_int a b m n :
  (a == inject_Z m)%Q -> (b == inject_Z n)%Q -> Z.abs (m * n) <= 2 ^ 24 ->
  exists r, fmul (FFin a) (FFin b) = FFin r /\ (r == inject_Z (m * n))%Q.
Proof.
  intros Ea Eb Hmn. cbn [fmul]. apply round32_int; [| exact Hmn].
  rewrite Ea, Eb, inject_Z_mult. reflexivity.
Qed.

Lemma fadd_int a b m n :
  (a == inject_Z m)%Q -> (b == inject_Z n)%Q -> Z.abs (m + n) <= 2 ^ 24 ->
  exists r, fadd (FFin a) (FFin b) = FFin r /\ (r == inject_Z (m + n))%Q.
Proof.
  intros Ea Eb Hmn. cbn [fadd]. apply round32_int; [| exact Hmn].
  rewrite Ea, Eb, inject_Z_plus. reflexivity.
Qed.

Lemma fdiv_int a b k n :
  (a == inject_Z (k * n))%Q -> (b == inject_Z n)%Q -> n <> 0 -> Z.abs k <= 2 ^ 24 ->
  exists r, fdiv (FFin a) (FFin b) = FFin r /\ (r == inject_Z k)%Q.
Proof.
  intros Ea Eb Hn Hk. cbn [fdiv].
  assert (Hb : ~ (b == 0)%Q) by (rewrite Eb; now apply inject_Z_nonzero).
  destruct (Qeq_bool b 0) eqn:Eq; [apply Qeq_bool_iff in Eq; contradiction |].
  apply round32_int; [| exact Hk].
  rewrite Ea, Eb, inject_Z_mult. field. now apply inject_Z_nonzero.
Qed.

Lemma fsub_same a b : (a == b)%Q -> fsub (FFin a) (FFin b) = FFin 0.
Proof.
  intros E. unfold fsub. cbn [fneg fadd]. apply round32_zero. rewrite E. ring.
Qed.

Lemma fsub_one_zero : fsub f_one (FFin 0) = FFin 1.
Proof. vm_compute. reflexivity. Qed.

Lemma fmul_zero_r a : fmul (FFin a) (FFin 0) = FFin 0.
Proof. cbn [fmul]. apply round32_zero. ring. Qed.

Lemma fmul_one_r a n :
  (a == inject_Z n)%Q -> Z.abs n <= 2 ^ 24 ->
  exists r, fmul (FFin a) (FFin 1) = FFin r /\ (r == inject_Z n)%Q.
Proof.
  intros Ea Hn. cbn [fmul]. apply round32_int; [| exact Hn]. rewrite Ea. ring.
Qed.

Lemma fadd_zero_r a n :
  (a == inject_Z n)%Q -> Z.abs n <= 2 ^ 24 ->
  exists r, fadd (FFin a) (FFin 0) = FFin r /\ (r == inject_Z n)%Q.
Proof.
  intros Ea Hn. cbn [fadd]. apply round32_int; [| exact Hn]. rewrite Ea. ring.
Qed.

Lemma fadd_zero_l a n :
  (a == inject_Z n)%Q -> Z.abs n <= 2 ^ 24 ->
  exists r, fadd (FFin 0) (FFin a) = FFin r /\ (r == inject_Z n)%Q.
Proof.
  intros Ea Hn. cbn [fadd]. apply round32_int; [| exact Hn]. rewrite Ea. ring.
Qed.

(** [p * (1 - 0) + q * 0] is [p], exactly. *)
Lemma lerp_at_zero a p q :
  (a == inject_Z p)%Q -> Z.abs p <= 2 ^ 24 ->
  exists r, fadd (fmul (FFin a) (fsub f_one (FFin 0))) (fmul (FFin q) (FFin 0)) = FFin r /\
            (r == inject_Z p)%Q.
Proof.
  intros Ea Hp. rewrite fsub_one_zero, fmul_zero_r.
  destruct (fmul_one_r a p Ea Hp) as (r & -> & Er).
  exact (fadd_zero_r r p Er Hp).
Qed.

(** Adding 0.5 to a byte and truncating gives the byte back. *)
Lemma round_half_up_byte cs a p :
  (a == inject_Z p)%Q -> is_uchar p ->
  f2uchar cs (fadd (FFin a) f_half) = p.
Proof.
  intros Ea Hp. unfold is_uchar in Hp. unfold f_half. cbn [fadd].
  assert (Eq : (a + (1 # 2) == inject_Z (2 * p + 1) * pow2 (-1))%Q).
  { rewrite Ea, inject_Z_plus, inject_Z_mult.
    change (pow2 (-1)) with (1 # 2)%Q.
    change (inject_Z 2) with 2%Q. change (inject_Z 1) with 1%Q. field. }
  assert (B : (0 <= inject_Z p <= 255)%Q).
  { change 0%Q with (inject_Z 0). change 255%Q with (inject_Z 255).
    rewrite <- !Zle_Qle. lia. }
  destruct (round32_exact (a + (1 # 2))) as (r & Er & Hr).
  - exists (2 * p + 1), (-1). split; [exact Eq |]. split; [| lia].
    change (2 ^ 24) with 16777216. lia.
  - apply Qabs_Qlt_condition. rewrite Ea.
    assert ((1024 <= pow2 128)%Q).
    { change 1024%Q with (pow2 10). apply pow2_le. lia. }
    lra.
  - rewrite Er. apply f2uchar_of_sample; [lia |].
    apply Qtrunc_unique; [| lia]. rewrite Hr, Ea. lra.
Qed.

(** The source coordinate when the scale is an integer: exact. *)
Lemma src_coord_integer_ratio s0 k nw x :
  0 <= s0 -> 1 <= k -> 1 <= nw -> 0 <= x < nw -> s0 + k * nw <= 2 ^ 24 ->
  exists o, src_coord s0 (k * nw) nw x = FFin o /\ (o == inject_Z (s0 + x * k))%Q.
Proof.
  intros Hs Hk Hnw Hx Hfit.
  assert (Hknw : nw <= k * nw) by nia.
  assert (Hxk : 0 <= x * k < k * nw) by nia.
  change (2 ^ 24) with 16777216 in *.
  unfold src_coord.
  destruct (i2f_small s0) as (a & -> & Ea); [change (2 ^ 24) with 16777216; lia |].
  destruct (i2f_small x) as (b & -> & Eb); [change (2 ^ 24) with 16777216; lia |].
  destruct (i2f_small (k * nw)) as (c & -> & Ec); [change (2 ^ 24) with 16777216; lia |].
  destruct (i2f_small nw) as (d & -> & Ed); [change (2 ^ 24) with 16777216; lia |].
  destruct (fdiv_int c d k nw Ec Ed ltac:(lia)) as (s & -> & Es);
    [change (2 ^ 24) with 16777216; nia |].
  destruct (fmul_int b s x k Eb Es) as (p & -> & Ep);
    [change (2 ^ 24) with 16777216; lia |].
  apply (fadd_int a p s0 (x * k) Ea Ep). change (2 ^ 24) with 16777216. lia.
Qed.

Lemma clamp_coord_inside v n : 0 <= v < n -> clamp_coord v n = v.
Proof.
  intros Hv. unfold clamp_coord.
  destruct (Z.ltb_spec v 0); [lia |]. destruct (Z.leb_spec n v); [lia | reflexivity].
Qed.

(** With integer scales every destination sample is a source sample: the
    interpolation weights are exactly zero. *)
Lemma resize_value_integer_ratio cs img W H C src_x src_y kx ky new_w new_h y x c :
  valid_image img W H C -> Forall is_uchar img ->
  1 <= W <= 2 ^ 24 -> 1 <= H <= 2 ^ 24 ->
  0 <= src_x -> 0 <= src_y -> 1 <= kx -> 1 <= ky -> 1 <= new_w -> 1 <= new_h ->
  src_x + kx * new_w <= W -> src_y + ky * new_h <= H ->
  0 <= y < new_h -> 0 <= x < new_w -> 0 <= c < C ->
  resize_value cs img W H C src_x src_y (kx * new_w) (ky * new_h) new_w new_h y x c
    = load img (lin W C (src_y + y * ky) (src_x + x * kx) c).
Proof.
  intros Hv Hall HW HH Hsx Hsy Hkx Hky Hnw Hnh Hxw Hyh Hy Hx Hc.
  pose proof Hv as (_ & _ & _ & Hsz & Hlen).
  change (2 ^ 24) with 16777216 in *.
  unfold resize_value. cbv zeta.
  destruct (src_coord_integer_ratio src_x kx new_w x) as (ox & -> & Eox);
    try (change (2 ^ 24) with 16777216; lia).
  destruct (src_coord_integer_ratio src_y ky new_h y) as (oy & -> & Eoy);
    try (change (2 ^ 24) with 16777216; lia).
  assert (Hxk : 0 <= x * kx < kx * new_w) by nia.
  assert (Hyk : 0 <= y * ky < ky * new_h) by nia.
  set (X := src_x + x * kx) in *. set (Y := src_y + y * ky) in *.
  assert (HX : 0 <= X < W) by (unfold X; lia).
  assert (HY : 0 <= Y < H) by (unfold Y; lia).
  assert (Tx : Qtrunc ox = X) by (rewrite (Qtrunc_proper _ _ Eox); apply Qtrunc_Z).
  assert (Ty : Qtrunc oy = Y) by (rewrite (Qtrunc_proper _ _ Eoy); apply Qtrunc_Z).
  rewrite !f2i_in_range by (rewrite ?Tx, ?Ty; unfold INT_MIN, INT_MAX; lia).
  rewrite Tx, Ty.
  destruct (i2f_small X) as (rx & -> & Erx); [change (2 ^ 24) with 16777216; lia |].
  destruct (i2f_small Y) as (ry & -> & Ery); [change (2 ^ 24) with 16777216; lia |].
  rewrite (fsub_same ox rx) by (rewrite Eox, Erx; reflexivity).
  rewrite (fsub_same oy ry) by (rewrite Eoy, Ery; reflexivity).
  rewrite (clamp_coord_inside X W HX), (clamp_coord_inside Y H HY).
  assert (HWi : 1 <= W <= INT_MAX) by (unfold INT_MAX; lia).
  assert (HHi : 1 <= H <= INT_MAX) by (unfold INT_MAX; lia).
  pose proof (clamp_coord_range (iadd X 1) W HWi) as HX2.
  pose proof (clamp_coord_range (iadd Y 1) H HHi) as HY2.
  set (X2 := clamp_coord (iadd X 1) W) in *.
  set (Y2 := clamp_coord (iadd Y 1) H) in *.
  assert (Hload : forall row col, 0 <= row < H -> 0 <= col < W ->
            load img (sample_index W C row col c)
              = Def (nth (Z.to_nat (lin W C row col c)) img 0) /\
            is_uchar (nth (Z.to_nat (lin W C row col c)) img 0)).
  { intros row col Hr Hcl. rewrite (sample_index_lin W H C) by assumption.
    pose proof (lin_bound W H C row col c Hr Hcl Hc) as B.
    split; [apply load_nth; lia | apply nth_uchar; [assumption | lia]]. }
  unfold resize_sample.
  destruct (Hload Y X HY HX) as [-> U11]. destruct (Hload Y X2 HY HX2) as [-> U21].
  destruct (Hload Y2 X HY2 HX) as [-> U12]. destruct (Hload Y2 X2 HY2 HX2) as [-> U22].
  cbn [ub_bind].
  set (p11 := nth (Z.to_nat (lin W C Y X c)) img 0) in *.
  set (p21 := nth (Z.to_nat (lin W C Y X2 c)) img 0) in *.
  set (p12 := nth (Z.to_nat (lin W C Y2 X c)) img 0) in *.
  set (p22 := nth (Z.to_nat (lin W C Y2 X2 c)) img 0) in *.
  unfold is_uchar in U11, U21, U12, U22.
  destruct (i2f_small p11) as (a11 & -> & E11); [change (2 ^ 24) with 16777216; lia |].
  destruct (i2f_small p21) as (a21 & -> & E21); [change (2 ^ 24) with 16777216; lia |].
  destruct (i2f_small p12) as (a12 & -> & E12); [change (2 ^ 24) with 16777216; lia |].
  destruct (i2f_small p22) as (a22 & -> & E22); [change (2 ^ 24) with 16777216; lia |].
  destruct (lerp_at_zero a11 p11 a21 E11) as (v1 & -> & Ev1);
    [change (2 ^ 24) with 16777216; lia |].
  destruct (lerp_at_zero a12 p12 a22 E12) as (v2 & -> & Ev2);
    [change (2 ^ 24) with 16777216; lia |].
  destruct (lerp_at_zero v1 p11 v2 Ev1) as (f & -> & Ef);
    [change (2 ^ 24) with 16777216; lia |].
  rewrite (round_half_up_byte cs f p11 Ef) by (unfold is_uchar; lia).
  rewrite load_nth; [reflexivity |].
  pose proof (lin_bound W H C Y X c HY HX Hc). lia.
Qed.

(** The buffer [resize_image_bilinear] returns, from the value computed for
    each destination sample. *)
Lemma resize_image_bilinear_by_value dm cs (malloc : allocator) img W H C
  src_x src_y src_w src_h new_w new_h blk (f : Z -> Z -> Z -> ub Z) :
  0 <= C -> 1 <= src_w -> 1 <= src_h -> 1 <= new_w -> 1 <= new_h ->
  new_w * new_h * C <= INT_MAX ->
  alloc_wf malloc -> malloc (new_w * new_h * C) = Some blk ->
  (forall y x ch, 0 <= y < new_h -> 0 <= x < new_w -> 0 <= ch < C ->
     resize_value cs img W H C src_x src_y src_w src_h new_w new_h y x ch = f y x ch /\
     exists v, f y x ch = Def v) ->
  exists out,
    resize_image_bilinear dm cs malloc (Some img) W H C
      src_x src_y src_w src_h new_w new_h
      = Def ([new_w * new_h * C], inr out) /\
    valid_image out new_w new_h C /\
    forall y x ch, 0 <= y < new_h -> 0 <= x < new_w -> 0 <= ch < C ->
      load out (lin new_w C y x ch) = f y x ch.
Proof.
  intros HC Hsw Hsh Hnw Hnh Hout Hwf Hm Hval.
  assert (Hnn : 0 <= new_w * new_h * C) by (apply Z.mul_nonneg_nonneg; nia).
  assert (E64 : u64_mul (u64_mul (to_u64 new_w) new_h) C = new_w * new_h * C)
    by (apply u64_size_valid; lia).
  rewrite (resize_image_bilinear_loop dm cs malloc img W H C src_x src_y src_w src_h
             new_w new_h blk); try lia.
  2:{ rewrite E64. unfold INT_MAX in Hout. destruct dm; simpl; lia. }
  2:{ rewrite E64, to_size_small by lia. exact Hm. }
  rewrite E64, to_size_small by lia.
  destruct (fill_loop_spec
              (resize_value cs img W H C src_x src_y src_w src_h new_w new_h)
              blk new_w new_h C) as (out & E & Hfill); try lia.
  - apply Hwf. exact Hm.
  - intros y x ch Hy Hx Hch.
    destruct (Hval y x ch Hy Hx Hch) as (-> & v & Ev). eauto.
  - exists out. rewrite E. split; [reflexivity |]. split.
    + destruct Hfill as [Hlen _]. unfold valid_image. repeat split; try lia.
    + intros y x ch Hy Hx Hch.
      rewrite (filled_all _ _ _ _ _ _ _ _ Hfill Hy Hx Hch).
      apply Hval; assumption.
Qed.

(** X22: when the source window is an integer multiple of the destination in
    each direction, [resize_image_bilinear] averages nothing: destination
    pixel [(x, y)] is source pixel [(src_x + kx * x, src_y + ky * y)], copied
    exactly. *)
Theorem resize_integer_ratio_is_subsampling dm cs (malloc : allocator) img W H C
  src_x src_y kx ky new_w new_h blk :
  valid_image img W H C -> Forall is_uchar img ->
  1 <= W <= 2 ^ 24 -> 1 <= H <= 2 ^ 24 ->
  0 <= src_x -> 0 <= src_y -> 1 <= kx -> 1 <= ky -> 1 <= new_w -> 1 <= new_h ->
  src_x + kx * new_w <= W -> src_y + ky * new_h <= H ->
  new_w * new_h * C <= INT_MAX ->
  alloc_wf malloc -> malloc (new_w * new_h * C) = Some blk ->
  exists out,
    resize_image_bilinear dm cs malloc (Some img) W H C
      src_x src_y (kx * new_w) (ky * new_h) new_w new_h
      = Def ([new_w * new_h * C], inr out) /\
    valid_image out new_w new_h C /\
    forall y x ch, 0 <= y < new_h -> 0 <= x < new_w -> 0 <= ch < C ->
      load out (lin new_w C y x ch)
        = load img (lin W C (src_y + y * ky) (src_x + x * kx) ch).
Proof.
  intros Hv Hall HW HH Hsx Hsy Hkx Hky Hnw Hnh Hxw Hyh Hout Hwf Hm.
  pose proof Hv as (_ & _ & HC & Hsz & Hlen).
  apply (resize_image_bilinear_by_value dm cs malloc img W H C src_x src_y
           (kx * new_w) (ky * new_h) new_w new_h blk
           (fun y x ch => load img (lin W C (src_y + y * ky) (src_x + x * kx) ch)));
    try assumption; try nia.
  intros y x ch Hy Hx Hch. split.
  - apply resize_value_integer_ratio; assumption.
  - apply load_in_bounds. rewrite Hlen. apply (lin_bound W H C); nia.
Qed.

Lemma resize_integer_ratio_is_subsampling_witness :
  exists out,
    resize_image_bilinear LP64 Indefinite zeroed_malloc
      (Some [10; 20; 30; 40; 50; 60; 70; 80]) 4 2 1 0 0 (2 * 2) (2 * 1) 2 1
      = Def ([2 * 1 * 1], inr out) /\
    valid_image out 2 1 1 /\
    forall y x ch, 0 <= y < 1 -> 0 <= x < 2 -> 0 <= ch < 1 ->
      load out (lin 2 1 y x ch)
        = load [10; 20; 30; 40; 50; 60; 70; 80] (lin 4 1 (0 + y * 2) (0 + x * 2) ch).
Proof.
  apply (resize_integer_ratio_is_subsampling LP64 Indefinite zeroed_malloc
           [10; 20; 30; 40; 50; 60; 70; 80] 4 2 1 0 0 2 2 2 1 (replicate 2 0));
    try lia.
  - unfold valid_image, INT_MAX. cbn. lia.
  - repeat constructor; unfold is_uchar; lia.
  - unfold INT_MAX. lia.
  - exact zeroed_malloc_wf.
  - reflexivity.
Defined.

(** X23: resizing a whole image to its own size returns the image unchanged. *)
Theorem resize_to_same_size_is_identity dm cs (malloc : allocator) img W H C blk :
  valid_image img W H C -> Forall is_uchar img ->
  1 <= W <= 2 ^ 24 -> 1 <= H <= 2 ^ 24 ->
  alloc_wf malloc -> malloc (W * H * C) = Some blk ->
  resize_image_bilinear dm cs malloc (Some img) W H C 0 0 W H W H
    = Def ([W * H * C], inr img).
Proof.
  intros Hv Hall HW HH Hwf Hm.
  pose proof Hv as (Hw0 & Hh0 & HC & Hsz & Hlen).
  destruct (resize_image_bilinear_by_value dm cs malloc img W H C 0 0 W H W H blk
              (fun y x ch => load img (lin W C y x ch)))
    as (out & E & Hvo & Hout); try assumption; try lia.
  - intros y x ch Hy Hx Hch. split.
    + pose proof (resize_value_integer_ratio cs img W H C 0 0 1 1 W H y x ch
                    Hv Hall HW HH) as R.
      rewrite !Z.mul_1_l in R. rewrite R by lia.
      do 2 f_equal; lia.
    + apply load_in_bounds. rewrite Hlen. apply (lin_bound W H C); lia.
  - rewrite E. do 3 f_equal.
    apply (buffer_ext out img W H C); try assumption. apply Hvo.
Qed.

Lemma resize_to_same_size_is_identity_witness :
  resize_image_bilinear LP64 Indefinite zeroed_malloc (Some [1; 2; 3; 4; 5; 6])
    3 2 1 0 0 3 2 3 2 = Def ([3 * 2 * 1], inr [1; 2; 3; 4; 5; 6]).
Proof.
  apply (resize_to_same_size_is_identity LP64 Indefinite zeroed_malloc
           [1; 2; 3; 4; 5; 6] 3 2 1 (replicate 6 0)); try lia.
  - unfold valid_image, INT_MAX. cbn. lia.
  - repeat constructor; unfold is_uchar; lia.
  - exact zeroed_malloc_wf.
  - reflexivity.
Defined.

(** ** Alpha blending *)

Lemma f2uchar_int cs a p : (a == inject_Z p)%Q -> is_uchar p -> f2uchar cs (FFin a) = p.
Proof.
  intros Ea Hp. apply f2uchar_of_sample; [exact Hp |].
  rewrite (Qtrunc_proper _ _ Ea). apply Qtrunc_Z.
Qed.

Lemma blend_opaque cs fg bg :
  is_uchar fg -> is_uchar bg ->
  f2uchar cs (fadd (fmul (i2f fg) (fdiv (i2f 255) f_255))
                   (fmul (i2f bg) (fsub f_one (fdiv (i2f 255) f_255)))) = fg.
Proof.
  intros Hf Hb. unfold is_uchar in *.
  change (fdiv (i2f 255) f_255) with (FFin 1).
  change (fsub f_one (FFin 1)) with (FFin 0).
  destruct (i2f_small fg) as (a & -> & Ea); [change (2 ^ 24) with 16777216; lia |].
  destruct (i2f_small bg) as (b & -> & Eb); [change (2 ^ 24) with 16777216; lia |].
  rewrite fmul_zero_r.
  destruct (fmul_one_r a fg Ea) as (r & -> & Er); [change (2 ^ 24) with 16777216; lia |].
  destruct (fadd_zero_r r fg Er) as (s & -> & Es); [change (2 ^ 24) with 16777216; lia |].
  apply f2uchar_int; [exact Es | exact Hf].
Qed.

Lemma blend_transparent cs fg bg :
  is_uchar fg -> is_uchar bg ->
  f2uchar cs (fadd (fmul (i2f fg) (fdiv (i2f 0) f_255))
                   (fmul (i2f bg) (fsub f_one (fdiv (i2f 0) f_255)))) = bg.
Proof.
  intros Hf Hb. unfold is_uchar in *.
  change (fdiv (i2f 0) f_255) with (FFin 0).
  rewrite fsub_one_zero.
  destruct (i2f_small fg) as (a & -> & Ea); [change (2 ^ 24) with 16777216; lia |].
  destruct (i2f_small bg) as (b & -> & Eb); [change (2 ^ 24) with 16777216; lia |].
  rewrite fmul_zero_r.
  destruct (fmul_one_r b bg Eb) as (r & -> & Er); [change (2 ^ 24) with 16777216; lia |].
  destruct (fadd_zero_l r bg Er) as (s & -> & Es); [change (2 ^ 24) with 16777216; lia |].
  apply f2uchar_int; [exact Es | exact Hb].
Qed.

(** X24: the alpha blend of [render_image] is exact at both ends: a pixel
    with alpha 255 is shown in its own colour, a pixel with alpha 0 in the
    background colour. *)
Theorem pixel_rgb_alpha_extremes cs img idx p0 p1 p2 bg_r bg_g bg_b :
  load img idx = Def p0 -> load img (iadd idx 1) = Def p1 ->
  load img (iadd idx 2) = Def p2 ->
  is_uchar p0 -> is_uchar p1 -> is_uchar p2 ->
  is_uchar bg_r -> is_uchar bg_g -> is_uchar bg_b ->
  (load img (iadd idx 3) = Def 255 ->
   pixel_rgb cs img idx 4 bg_r bg_g bg_b = Def (p0, p1, p2)) /\
  (load img (iadd idx 3) = Def 0 ->
   pixel_rgb cs img idx 4 bg_r bg_g bg_b = Def (bg_r, bg_g, bg_b)).
Proof.
  intros L0 L1 L2 U0 U1 U2 Ur Ug Ub. split; intros La.
  - unfold pixel_rgb. cbn [Z.eqb Pos.eqb]. rewrite La, L0, L1, L2. cbn [ub_bind].
    now rewrite !blend_opaque.
  - unfold pixel_rgb. cbn [Z.eqb Pos.eqb]. rewrite La, L0, L1, L2. cbn [ub_bind].
    now rewrite !blend_transparent.
Qed.

Lemma pixel_rgb_alpha_extremes_witness :
  pixel_rgb Indefinite [10; 20; 30; 0] 0 4 255 255 255 = Def (255, 255, 255).
Proof.
  apply (pixel_rgb_alpha_extremes Indefinite [10; 20; 30; 0] 0 10 20 30 255 255 255);
    try reflexivity; unfold is_uchar; lia.
Defined.

(** ** Pipeline *)

(** *** Each step is defined, whether or not its allocation succeeds *)

Lemma flip_image_horizontal_total dm (malloc : allocator) img w h c :
  valid_image img w h c -> alloc_wf malloc ->
  exists r, flip_image_horizontal dm malloc (Some img) w h c = Def r /\
            forall out, r = Some out -> valid_image out w h c.
Proof.
  intros Hv Hwf. destruct (malloc (w * h * c)) as [blk |] eqn:Hm.
  - destruct (flip_image_horizontal_spec dm malloc img w h c blk Hv Hwf Hm)
      as (out & E & Hvo & _).
    exists (Some out). split; [exact E |]. intros ? [= <-]. exact Hvo.
  - destruct Hv as (Hw & Hh & Hc & Hsz & Hlen).
    exists None. split; [| discriminate].
    unfold flip_image_horizontal. rewrite data_size_valid by lia. now rewrite Hm.
Qed.

Lemma flip_image_vertical_total dm (malloc : allocator) img w h c :
  valid_image img w h c -> alloc_wf malloc ->
  exists r, flip_image_vertical dm malloc (Some img) w h c = Def r /\
            forall out, r = Some out -> valid_image out w h c.
Proof.
  intros Hv Hwf. destruct (malloc (w * h * c)) as [blk |] eqn:Hm.
  - destruct (flip_image_vertical_spec dm malloc img w h c blk Hv Hwf Hm)
      as (out & E & Hvo & _).
    exists (Some out). split; [exact E |]. intros ? [= <-]. exact Hvo.
  - destruct Hv as (Hw & Hh & Hc & Hsz & Hlen).
    exists None. split; [| discriminate].
    unfold flip_image_vertical. rewrite data_size_valid by lia. now rewrite Hm.
Qed.

Lemma rotate_image_180_total dm (malloc : allocator) img w h c :
  valid_image img w h c -> alloc_wf malloc ->
  exists r, rotate_image_180 dm malloc (Some img) w h c = Def r /\
            forall out, r = Some out -> valid_image out w h c.
Proof.
  intros Hv Hwf. destruct (malloc (w * h * c)) as [blk |] eqn:Hm.
  - destruct (rotate_image_180_spec dm malloc img w h c blk Hv Hwf Hm)
      as (out & E & Hvo & _).
    exists (Some out). split; [exact E |]. intros ? [= <-]. exact Hvo.
  - destruct Hv as (Hw & Hh & Hc & Hsz & Hlen).
    exists None. split; [| discriminate].
    unfold rotate_image_180. rewrite data_size_valid by lia. now rewrite Hm.
Qed.

(** The loop of quarter turns on a square image, each iteration with its own
    allocation: defined, whichever allocations fail. *)
Lemma rotate_times_square_total dm k :
  forall (malloc : nat -> allocator) img n c,
  valid_image img n n c -> (forall i, alloc_wf (malloc i)) ->
  exists r w' h', rotate_times dm malloc k img n n c = Def (r, w', h') /\
                  forall out, r = Some out -> valid_image out n n c /\ w' = n /\ h' = n.
Proof.
  induction k as [| k IH]; intros malloc img n c Hv Hwf.
  - exists (Some img), n, n. split; [reflexivity |]. intros ? [= <-]. auto.
  - cbn [rotate_times].
    destruct (malloc O (n * n * c)) as [blk |] eqn:Hm.
    + destruct (rotate_image_90_cw_square_spec dm (malloc O) img n c blk Hv (Hwf O) Hm)
        as (o1 & E1 & Hv1 & _).
      rewrite E1. cbn [ub_bind]. apply IH; [assumption |]. intros i. apply Hwf.
    + assert (E : rotate_image_90_cw dm (malloc O) (Some img) n n c = Def (None, n, n)).
      { destruct Hv as (Hw & Hh & Hc & Hsz & Hlen).
        unfold rotate_image_90_cw. cbv zeta. rewrite data_size_valid by lia.
        now rewrite Hm. }
      rewrite E. cbn [ub_bind]. exists None, n, n. split; [reflexivity | discriminate].
Qed.

Lemma transform_image_total dm (a : allocations) o img w h c :
  valid_image img w h c -> allocations_wf a -> 1 <= w -> 1 <= h ->
  (rotate_degrees o = 90 \/ rotate_degrees o = 270 -> w = h) ->
  exists r, transform_image dm a o img w h c = Def r /\
            forall img' w' h', r = Some (img', w', h') ->
              valid_image img' w' h' c /\ 1 <= w' /\ 1 <= h'.
Proof.
  intros Hv (_ & Wfh & Wfv & Wr90 & Wr180 & _) Hw Hh Hsq. unfold transform_image.
  assert (S1 : exists r1,
            (if flip_h o then flip_image_horizontal dm (malloc_flip_h a) (Some img) w h c
             else Def (Some img)) = Def r1 /\
            forall out, r1 = Some out -> valid_image out w h c).
  { destruct (flip_h o).
    - apply flip_image_horizontal_total; assumption.
    - exists (Some img). split; [reflexivity |]. intros ? [= <-]. exact Hv. }
  destruct S1 as (r1 & -> & H1). cbn [ub_bind].
  destruct r1 as [img1 |]; [| exists None; split; [reflexivity | discriminate]].
  specialize (H1 img1 eq_refl).
  assert (S2 : exists r2,
            (if flip_v o then flip_image_vertical dm (malloc_flip_v a) (Some img1) w h c
             else Def (Some img1)) = Def r2 /\
            forall out, r2 = Some out -> valid_image out w h c).
  { destruct (flip_v o).
    - apply flip_image_vertical_total; assumption.
    - exists (Some img1). split; [reflexivity |]. intros ? [= <-]. exact H1. }
  destruct S2 as (r2 & -> & H2). cbn [ub_bind].
  destruct r2 as [img2 |]; [| exists None; split; [reflexivity | discriminate]].
  specialize (H2 img2 eq_refl).
  destruct (Z.eqb_spec (rotate_degrees o) 0) as [R0 | R0].
  { eexists. split; [reflexivity |]. intros ? ? ? [= <- <- <-]. auto. }
  destruct ((rotate_degrees o =? 90) || (rotate_degrees o =? 270)) eqn:R90.
  { assert (w = h).
    { apply Hsq. apply orb_true_iff in R90 as [R | R]; apply Z.eqb_eq in R; auto. }
    subst h.
    destruct (rotate_times_square_total dm (Z.to_nat (rotate_degrees o ÷ 90))
                (malloc_rotate_90 a) img2 w c H2 Wr90)
      as (r & w' & h' & -> & Hr).
    cbn [ub_bind]. destruct r as [img3 |].
    - destruct (Hr img3 eq_refl) as (Hv3 & -> & ->).
      eexists. split; [reflexivity |]. intros ? ? ? [= <- <- <-]. auto.
    - exists None. split; [reflexivity | discriminate]. }
  destruct (Z.eqb_spec (rotate_degrees o) 180) as [R180 | R180].
  { destruct (rotate_image_180_total dm (malloc_rotate_180 a) img2 w h c H2 Wr180)
      as (r & -> & Hr).
    cbn [ub_bind]. destruct r as [img3 |].
    - eexists. split; [reflexivity |]. intros ? ? ? [= <- <- <-]. auto.
    - exists None. split; [reflexivity | discriminate]. }
  eexists. split; [reflexivity |]. intros ? ? ? [= <- <- <-]. auto.
Qed.

Lemma source_rectangle_sizes cs w h offset_x offset_y zoom :
  1 <= w -> 1 <= h ->
  let '(x, y, sw, sh) := source_rectangle cs w h offset_x offset_y zoom in
  1 <= sw /\ 1 <= sh.
Proof.
  intros Hw Hh. unfold source_rectangle. cbv zeta.
  set (a := f2i cs (fdiv (i2f w) zoom)). set (b := f2i cs (fdiv (i2f h) zoom)).
  destruct (Z.leb_spec a 0), (Z.leb_spec b 0);
    repeat match goal with
    | |- context [?p <? ?q] => destruct (Z.ltb_spec p q)
    end; lia.
Qed.

Lemma clamp_to_terminal_range tw th a b :
  1 <= tw ->
  let '(fw, fh) := clamp_to_terminal tw th a b in
  1 <= fw <= tw /\ 1 <= fh <= usable_rows th.
Proof.
  intros Htw. unfold clamp_to_terminal, usable_rows. cbv zeta.
  set (u := if isub th 2 <=? 0 then 1 else isub th 2).
  assert (Hu : 1 <= u) by (unfold u; destruct (Z.leb_spec (isub th 2) 0); lia).
  destruct (Z.ltb_spec tw a), (Z.ltb_spec u b);
    repeat match goal with
    | |- context [?p <=? ?q] => destruct (Z.leb_spec p q)
    end; lia.
Qed.

Lemma resize_value_uchar cs img W H C src_x src_y src_w src_h new_w new_h y x c v :
  resize_value cs img W H C src_x src_y src_w src_h new_w new_h y x c = Def v ->
  is_uchar v.
Proof.
  unfold resize_value, resize_sample. cbv zeta. intros E.
  repeat match type of E with
  | ub_bind ?m _ = _ => destruct m; cbn [ub_bind] in E; [| discriminate]
  end.
  injection E as <-. apply f2uchar_range.
Qed.

Lemma Forall_uchar_from_samples out w h c :
  valid_image out w h c ->
  (forall y x ch, 0 <= y < h -> 0 <= x < w -> 0 <= ch < c ->
     exists v, load out (lin w c y x ch) = Def v /\ is_uchar v) ->
  Forall is_uchar out.
Proof.
  intros (Hw & Hh & Hc & Hsz & Hlen) Hs. apply List.Forall_forall. intros v Hin.
  destruct (In_nth out v 0 Hin) as (i & Hi & Hnth).
  destruct (lin_surj w h c (Z.of_nat i) Hw Hh Hc ltac:(lia))
    as (y & x & ch & Hy & Hx & Hch & Ek).
  destruct (Hs y x ch Hy Hx Hch) as (v' & Ev & Uv).
  rewrite <- Ek in Ev. rewrite load_nth in Ev by lia.
  rewrite Nat2Z.id in Ev. injection Ev as <-. now rewrite <- Hnth.
Qed.

Lemma resize_image_bilinear_total dm cs (malloc : allocator) img W H C
  src_x src_y src_w src_h new_w new_h :
  valid_image img W H C -> 1 <= W -> 1 <= H ->
  1 <= src_w -> 1 <= src_h -> 1 <= new_w -> 1 <= new_h ->
  new_w * new_h * C <= INT_MAX -> alloc_wf malloc ->
  exists allocs r,
    resize_image_bilinear dm cs malloc (Some img) W H C
      src_x src_y src_w src_h new_w new_h = Def (allocs, r) /\
    forall out, r = inr out -> valid_image out new_w new_h C /\ Forall is_uchar out.
Proof.
  intros Hv HW HH Hsw Hsh Hnw Hnh Hout Hwf.
  pose proof Hv as (_ & _ & HC & _ & _).
  destruct (malloc (new_w * new_h * C)) as [blk |] eqn:Hm.
  - destruct (resize_image_bilinear_by_value dm cs malloc img W H C src_x src_y
                src_w src_h new_w new_h blk
                (resize_value cs img W H C src_x src_y src_w src_h new_w new_h))
      as (out & E & Hvo & Hload); try assumption.
    { intros y x ch Hy Hx Hch. split; [reflexivity |].
      apply resize_value_defined; try assumption. }
    do 2 eexists. split; [exact E |]. intros ? [= <-]. split; [exact Hvo |].
    apply (Forall_uchar_from_samples out new_w new_h C Hvo).
    intros y x ch Hy Hx Hch.
    destruct (resize_value_defined cs img W H C src_x src_y src_w src_h new_w new_h
                y x ch Hv HW HH Hch) as [v Ev].
    exists v. split; [rewrite Hload by assumption; exact Ev |].
    exact (resize_value_uchar _ _ _ _ _ _ _ _ _ _ _ _ _ _ _ Ev).
  - assert (Hnn : 0 <= new_w * new_h * C) by (apply Z.mul_nonneg_nonneg; nia).
    assert (E64 : u64_mul (u64_mul (to_u64 new_w) new_h) C = new_w * new_h * C)
      by (apply u64_size_valid; lia).
    unfold resize_image_bilinear.
    destruct (Z.leb_spec new_w 0); [lia |]. destruct (Z.leb_spec new_h 0); [lia |].
    destruct (Z.leb_spec src_w 0); [lia |]. destruct (Z.leb_spec src_h 0); [lia |].
    cbn [orb]. rewrite E64.
    destruct (Z.ltb_spec (SIZE_MAX dm) (new_w * new_h * C)).
    + do 2 eexists. split; [reflexivity | discriminate].
    + rewrite to_size_small by lia. rewrite Hm.
      do 2 eexists. split; [reflexivity | discriminate].
Qed.


Lemma render_image_no_buffer dm cs (malloc : allocator) detected g img w h c
  bg_r bg_g bg_b :
  0 <= w ->
  w * max_pixel_size (s_detected_color_mode g) + 32 <= SIZE_MAX dm ->
  malloc (w * max_pixel_size (s_detected_color_mode g) + 32) = None ->
  render_image dm cs malloc detected g img w h c bg_r bg_g bg_b = Def (g, []).
Proof.
  intros Hw Hfit Hm.
  pose proof (max_pixel_size_ge (s_detected_color_mode g)) as Hmps.
  unfold render_image.
  destruct (buffer_size_per_line_exact dm w (max_pixel_size (s_detected_color_mode g))
              Hw ltac:(lia) Hfit) as [-> ->].
  assert (Hchk : ((w * max_pixel_size (s_detected_color_mode g) + 32)
                  / max_pixel_size (s_detected_color_mode g) <? w) = false).
  { apply Z.ltb_ge. apply Z.div_le_lower_bound; lia. }
  now rewrite Hchk, Hm.
Qed.

Lemma get_terminal_size_cached probe st :
  let '(st1, w, h) := get_terminal_size probe st in
  0 < w /\ 0 < h /\ forall probe', get_terminal_size probe' st1 = (st1, w, h).
Proof.
  unfold get_terminal_size at 1.
  destruct ((0 <? s_term_width st) && (0 <? s_term_height st)) eqn:C.
  - apply andb_true_iff in C as [C1 C2].
    pose proof C1 as C1'. pose proof C2 as C2'.
    apply Z.ltb_lt in C1', C2'.
    split; [exact C1' |]. split; [exact C2' |].
    intros probe'. unfold get_terminal_size. now rewrite C1, C2.
  - set (d1 := match ioctl_winsize probe with
               | Some (ws_col, ws_row) => (ws_col, ws_row)
               | None => (0, 0)
               end).
    destruct d1 as [w1 h1].
    set (d2 := if (w1 <=? 0) || (h1 <=? 0)
               then match env_size probe with
                    | Some (c, r) => if (0 <? c) && (0 <? r) then (c, r) else (w1, h1)
                    | None => (w1, h1)
                    end
               else (w1, h1)).
    destruct d2 as [w2 h2].
    set (d3 := if (w2 <=? 0) || (h2 <=? 0)
               then (match tput_cols probe with
                     | Some (Some n) => n
                     | Some None => 0
                     | None => w2
                     end,
                     match tput_lines probe with
                     | Some (Some n) => n
                     | Some None => 0
                     | None => h2
                     end)
               else (w2, h2)).
    destruct d3 as [w3 h3].
    set (w := if w3 <=? 0 then 80 else w3).
    set (h := if h3 <=? 0 then 24 else h3).
    assert (Hw : 0 < w) by (unfold w; destruct (Z.leb_spec w3 0); lia).
    assert (Hh : 0 < h) by (unfold h; destruct (Z.leb_spec h3 0); lia).
    split; [exact Hw |]. split; [exact Hh |].
    intros probe'. unfold get_terminal_size. cbn [s_term_width s_term_height].
    apply Z.ltb_lt in Hw, Hh. now rewrite Hw, Hh.
Qed.

(** Whichever way the size is requested, the terminal size [main] then reads
    is the one [get_terminal_size] reports on its first call. *)
Lemma requested_dimensions_terminal cs probe o src_w src_h tw th st1 :
  get_terminal_size probe initial_term_cache = (st1, tw, th) ->
  let '(st, rw, rh) := requested_dimensions cs probe initial_term_cache o src_w src_h in
  exists st2, get_terminal_size probe st = (st2, tw, th).
Proof.
  intros E. unfold requested_dimensions.
  destruct ((0 <? opt_target_width o) || (0 <? opt_target_height o)).
  - cbv zeta.
    destruct ((0 <? opt_target_width o) && (opt_target_height o <=? 0));
      [| destruct ((0 <? opt_target_height o) && (opt_target_width o <=? 0))];
      eauto.
  - pose proof (get_terminal_size_cached probe initial_term_cache) as Hc.
    rewrite E in *.
    destruct (calculate_display_dimensions cs tw th src_w src_h f_one) as [rw rh].
    destruct Hc as (_ & _ & Hc). exists st1. apply Hc.
Qed.

Lemma detect_color_support_cases env :
  detect_color_support env = COLOR_MODE_TRUE_COLOR \/
  detect_color_support env = COLOR_MODE_256 \/
  detect_color_support env = COLOR_MODE_16.
Proof.
  unfold detect_color_support.
  repeat match goal with
  | |- context [if ?c then _ else _] => destruct c
  | |- context [match TERM env with _ => _ end] => destruct (TERM env)
  end; auto.
Qed.

(** X25: whatever size is requested -- by [--width] and [--height], or by
    [calculate_display_dimensions] -- the size [main] hands to the resampler
    lies inside the terminal that [get_terminal_size] reported first:
    between 1 and its width, and between 1 and its usable rows. *)
Theorem final_dimensions_fit_terminal cs probe o src_w src_h :
  let '(_, tw, th) := get_terminal_size probe initial_term_cache in
  let '(st, rw, rh) := requested_dimensions cs probe initial_term_cache o src_w src_h in
  let '(_, tw', th') := get_terminal_size probe st in
  let '(fw, fh) := clamp_to_terminal tw' th' rw rh in
  tw' = tw /\ th' = th /\ 1 <= fw <= tw /\ 1 <= fh <= usable_rows th.
Proof.
  destruct (get_terminal_size probe initial_term_cache) as [[st1 tw] th] eqn:E.
  pose proof (requested_dimensions_terminal cs probe o src_w src_h tw th st1 E) as R.
  pose proof (get_terminal_size_cached probe initial_term_cache) as P.
  rewrite E in P. destruct P as (Htw & _ & _).
  destruct (requested_dimensions cs probe initial_term_cache o src_w src_h)
    as [[st rw] rh].
  destruct R as [st2 ->].
  pose proof (clamp_to_terminal_range tw th rw rh ltac:(lia)) as C.
  destruct (clamp_to_terminal tw th rw rh) as [fw fh]. tauto.
Qed.

(** X26: [main] from the loaded image to the last line printed never reads or
    writes outside a buffer -- whichever of its calls to [malloc] succeed and
    whichever fail, each on its own (any cache entry, either flip, any
    quarter turn, the half turn, the resized image, the line buffer), and
    whatever the offsets, the zoom and the requested size are -- as long as
    the image has three or four channels, is square when a quarter turn is
    asked for, the terminal has at most 10^8 cells, and the colour mode
    detected is not 256 colours.  It prints at most one line per usable row
    of the terminal. *)
Theorem show_image_stays_in_bounds dm cs (a : allocations) env probe o img w h c :
  valid_image img w h c -> 1 <= w -> 1 <= h -> 3 <= c <= 4 ->
  allocations_wf a ->
  detect_color_support env <> COLOR_MODE_256 ->
  (rotate_degrees o = 90 \/ rotate_degrees o = 270 -> w = h) ->
  let '(_, tw, th) := get_terminal_size probe initial_term_cache in
  tw * usable_rows th <= 100000000 ->
  exists lines,
    show_image dm cs a env probe o img w h c = Def lines /\
    (length lines <= Z.to_nat (usable_rows th))%nat.
Proof.
  intros Hv Hw Hh Hc Hwf Hmode Hsq.
  destruct (get_terminal_size probe initial_term_cache) as [[st1 tw] th] eqn:E.
  intros Harea.
  pose proof (get_terminal_size_cached probe initial_term_cache) as P.
  rewrite E in P. destruct P as (Htw & _ & _).
  unfold show_image. cbv zeta.
  destruct (Z.leb_spec w 0); [lia |]. destruct (Z.leb_spec h 0); [lia |]. cbn [orb].
  destruct (transform_image_total dm a o img w h c Hv Hwf Hw Hh Hsq)
    as (r & -> & Hr). cbn [ub_bind].
  destruct Hwf as (_ & _ & _ & _ & _ & Wresize & _).
  destruct r as [[[cur cw] ch] |]; [| exists []; split; [reflexivity | cbn; lia]].
  destruct (Hr cur cw ch eq_refl) as (Hvc & Hcw & Hch).
  pose proof (source_rectangle_sizes cs cw ch (offset_x o) (offset_y o)
                (cli_zoom_factor o) Hcw Hch) as Hsrc.
  destruct (source_rectangle cs cw ch (offset_x o) (offset_y o) (cli_zoom_factor o))
    as [[[sx sy] sw] sh].
  destruct Hsrc as [Hsw Hsh].
  pose proof (requested_dimensions_terminal cs probe o sw sh tw th st1 E) as R.
  destruct (requested_dimensions cs probe initial_term_cache o sw sh) as [[st rw] rh].
  destruct R as [st2 ->].
  pose proof (clamp_to_terminal_range tw th rw rh ltac:(lia)) as C.
  destruct (clamp_to_terminal tw th rw rh) as [fw fh].
  destruct C as (Hfw & Hfh).
  assert (Hu : 1 <= usable_rows th) by lia.
  assert (Hcells : fw * fh <= 100000000) by nia.
  assert (Hbytes : fw * fh * c <= INT_MAX) by (unfold INT_MAX; nia).
  destruct (resize_image_bilinear_total dm cs (malloc_resize a) cur cw ch c sx sy sw sh
              fw fh Hvc Hcw Hch Hsw Hsh ltac:(lia) ltac:(lia) Hbytes Wresize)
    as (allocs & res & -> & Hres). cbn [ub_bind].
  destruct res as [err | out]; [exists []; split; [reflexivity | cbn; lia] |].
  destruct (Hres out eq_refl) as (Hvo & Hall).
  set (g0 := {| s_detected_color_mode := detect_color_support env;
                s_ansi_cache_16 := s_ansi_cache_16 initial_globals;
                s_ansi_cache_256 := s_ansi_cache_256 initial_globals |}).
  change (startup (malloc_cache a) env) with (init_ansi_cache (malloc_cache a) g0).
  assert (Hm : s_detected_color_mode g0 = COLOR_MODE_TRUE_COLOR \/
               s_detected_color_mode g0 = COLOR_MODE_16).
  { cbn [g0 s_detected_color_mode].
    destruct (detect_color_support_cases env) as [? | [? | ?]]; auto. contradiction. }
  pose proof (max_pixel_size_ge (s_detected_color_mode g0)) as Hmps.
  assert (Hint : fw * max_pixel_size (s_detected_color_mode g0) + 32 <= INT_MAX).
  { assert (fw <= 100000000) by nia.
    assert (fw * max_pixel_size (s_detected_color_mode g0) <= 2100000000) by nia.
    unfold INT_MAX. lia. }
  assert (Hfit : fw * max_pixel_size (s_detected_color_mode g0) + 32 <= SIZE_MAX dm)
    by (pose proof (INT_MAX_le_SIZE_MAX dm); lia).
  assert (Hlines : exists lines,
            render_image dm cs (malloc_render a) (detect_color_support env)
              (init_ansi_cache (malloc_cache a) g0) out fw fh c (bg_r o) (bg_g o) (bg_b o)
              = Def (init_ansi_cache (malloc_cache a) g0, lines) /\
            (length lines <= Z.to_nat fh)%nat).
  { destruct (malloc_render a (fw * max_pixel_size (s_detected_color_mode g0) + 32))
      as [blk |] eqn:Hbuf.
    - destruct (render_image_defined_from_cells dm cs (malloc_render a)
                  (detect_color_support env) (init_ansi_cache (malloc_cache a) g0)
                  out fw fh c (bg_r o) (bg_g o) (bg_b o) blk)
        as (lines & El & Hl).
      + change (s_detected_color_mode g0 <> COLOR_MODE_UNKNOWN).
        destruct Hm as [-> | ->]; discriminate.
      + lia.
      + lia.
      + exact Hint.
      + exact Hbuf.
      + exact (render_cells_fit cs (malloc_cache a) g0 out fw fh c
                 (bg_r o) (bg_g o) (bg_b o) Hm Hvo ltac:(lia) Hall).
      + exists lines. split; [exact El | lia].
    - exists []. split; [| cbn; lia].
      apply render_image_no_buffer; [lia | exact Hfit | exact Hbuf]. }
  destruct Hlines as (lines & -> & Hl). cbn [ub_bind snd].
  exists lines. split; [reflexivity | lia].
Qed.

(** A run in which every second cache entry is NULL, the horizontal flip
    gets its buffer and every later allocation succeeds as well. *)
Lemma show_image_stays_in_bounds_witness :
  exists lines,
    show_image LP64 Indefinite
      {| malloc_cache := fun k => if Nat.even k then zeroed_malloc else fun _ => None;
         malloc_flip_h := zeroed_malloc;
         malloc_flip_v := fun _ => None;
         malloc_rotate_90 := fun _ => zeroed_malloc;
         malloc_rotate_180 := zeroed_malloc;
         malloc_resize := zeroed_malloc;
         malloc_render := zeroed_malloc |}
      {| COLORTERM := Some "truecolor"%string; TERM := None;
         KONSOLE_PROFILE_NAME := None; KONSOLE_VERSION := None; TERM_PROGRAM := None |}
      {| ioctl_winsize := Some (80, 24); env_size := None;
         tput_cols := None; tput_lines := None |}
      (set_flip_h default_options)
      [255; 0; 0; 0; 255; 0; 0; 0; 255; 9; 9; 9] 2 2 3 = Def lines /\
    (length lines <= Z.to_nat (usable_rows 24))%nat.
Proof.
  apply (show_image_stays_in_bounds LP64 Indefinite
           {| malloc_cache := fun k => if Nat.even k then zeroed_malloc else fun _ => None;
              malloc_flip_h := zeroed_malloc;
              malloc_flip_v := fun _ => None;
              malloc_rotate_90 := fun _ => zeroed_malloc;
              malloc_rotate_180 := zeroed_malloc;
              malloc_resize := zeroed_malloc;
              malloc_render := zeroed_malloc |}
           {| COLORTERM := Some "truecolor"%string; TERM := None;
              KONSOLE_PROFILE_NAME := None; KONSOLE_VERSION := None;
              TERM_PROGRAM := None |}
           {| ioctl_winsize := Some (80, 24); env_size := None;
              tput_cols := None; tput_lines := None |}
           (set_flip_h default_options)
           [255; 0; 0; 0; 255; 0; 0; 0; 255; 9; 9; 9] 2 2 3).
  - unfold valid_image, INT_MAX. cbn. lia.
  - lia.
  - lia.
  - lia.
  - pose proof zeroed_malloc_wf as Z0.
    assert (N0 : alloc_wf (fun _ : Z => None)) by (intros ? ? [=]).
    unfold allocations_wf. cbn.
    repeat split; try assumption; intros k; destruct (Nat.even k); assumption.
  - vm_compute. discriminate.
  - cbn. intros [? | ?]; discriminate.
  - vm_compute. discriminate.
Defined.

(** ** DisplaySizer: zoom 1 *)

Lemma int_times_one cs n :
  1 <= n <= 2 ^ 24 -> f2i cs (fmul (i2f n) f_one) = n.
Proof.
  intros Hn. change (2 ^ 24) with 16777216 in Hn.
  destruct (i2f_small n) as (a & -> & Ea); [change (2 ^ 24) with 16777216; lia |].
  unfold f_one.
  destruct (fmul_one_r a n Ea) as (r & -> & Er); [change (2 ^ 24) with 16777216; lia |].
  assert (T : Qtrunc r = n) by (rewrite (Qtrunc_proper _ _ Er); apply Qtrunc_Z).
  rewrite f2i_in_range by (rewrite T; unfold INT_MIN, INT_MAX; lia).
  exact T.
Qed.

(** X27: with zoom 1 -- the only factor [main] passes --
    [calculate_display_dimensions] fits the image to the terminal: the size
    it returns reaches the terminal width or the usable height. *)
Theorem calculate_display_dimensions_fills_terminal cs tw th iw ih :
  1 <= tw <= 2 ^ 24 -> 1 <= th <= 2 ^ 24 -> 1 <= iw -> 1 <= ih ->
  let '(w, h) := calculate_display_dimensions cs tw th iw ih f_one in
  w = tw \/ h = usable_rows th.
Proof.
  intros Htw Hth Hiw Hih.
  rewrite calculate_display_dimensions_eq by lia. cbv zeta.
  change (2 ^ 24) with 16777216 in *.
  assert (HU : 1 <= usable_rows th <= 2 ^ 24).
  { rewrite usable_rows_spec by (unfold INT_MAX; lia).
    change (2 ^ 24) with 16777216. lia. }
  set (U := usable_rows th) in *. set (A := image_aspect iw ih).
  rewrite (int_times_one cs tw) by (change (2 ^ 24) with 16777216; lia).
  rewrite (int_times_one cs U) by exact HU.
  change (2 ^ 24) with 16777216 in HU.
  destruct (fgt A (terminal_aspect tw U)).
  - rewrite (at_least_1_id tw) by lia.
    rewrite Z.ltb_irrefl.
    destruct (Z.ltb_spec U (at_least_1 (rows_for_width cs A tw))).
    + right. apply at_least_1_id. lia.
    + left. apply at_least_1_id. lia.
  - rewrite (at_least_1_id U) by lia.
    destruct (Z.ltb_spec tw (at_least_1 (cols_for_height cs A U))).
    + destruct (Z.ltb_spec U (at_least_1 (rows_for_width cs A tw))).
      * right. apply at_least_1_id. lia.
      * left. apply at_least_1_id. lia.
    + rewrite Z.ltb_irrefl. right. apply at_least_1_id. lia.
Qed.

Lemma calculate_display_dimensions_fills_terminal_witness :
  let '(w, h) := calculate_display_dimensions Indefinite 80 24 1920 1080 f_one in
  w = 80 \/ h = usable_rows 24.
Proof.
  apply (calculate_display_dimensions_fills_terminal Indefinite 80 24 1920 1080); lia.
Defined.

(** ** The crop window and the quarter turn at concrete values *)

Lemma source_rectangle_in_bounds_witness :
  let '(x, y, sw, sh) := source_rectangle Indefinite 640 480 600 (-5) (FFin 2) in
  0 <= x /\ 0 <= y /\ 1 <= sw /\ 1 <= sh /\ x + sw <= 640 /\ y + sh <= 480.
Proof.
  apply (source_rectangle_in_bounds Indefinite 640 480 600 (-5) (FFin 2));
    unfold INT_MIN, INT_MAX; lia.
Defined.

Lemma rotate_square_four_times_witness :
  rotate_times LP64 (fun _ => zeroed_malloc) 4 [1; 2; 3; 4] 2 2 1
    = Def (Some [1; 2; 3; 4], 2, 2).
Proof.
  apply (rotate_square_four_times LP64 zeroed_malloc [1; 2; 3; 4] 2 1 (replicate 4 0)).
  - unfold valid_image, INT_MAX. cbn. lia.
  - exact zeroed_malloc_wf.
  - reflexivity.
Defined.

(** ** FrameRenderer: images of one or two channels *)

(** X28: [render_image] reads three samples per pixel whatever the channel
    count: on every image of one or two channels for which it gets its line
    buffer, the read of the last pixel runs past the end of the image. *)
Theorem render_image_narrow_image_reads_past_buffer dm cs (malloc : allocator)
  detected g img w h c bg_r bg_g bg_b blk :
  valid_image img w h c -> 1 <= w -> 1 <= h -> c = 1 \/ c = 2 ->
  w * max_pixel_size (s_detected_color_mode g) + 32 <= SIZE_MAX dm ->
  malloc (w * max_pixel_size (s_detected_color_mode g) + 32) = Some blk ->
  render_image dm cs malloc detected g img w h c bg_r bg_g bg_b = UB.
Proof.
  intros Hv Hw Hh Hc Hfit Hm.
  pose proof (max_pixel_size_ge (s_detected_color_mode g)) as Hmps.
  unfold render_image.
  destruct (buffer_size_per_line_exact dm w (max_pixel_size (s_detected_color_mode g))
              ltac:(lia) ltac:(lia) Hfit) as [-> ->].
  assert (Hchk : ((w * max_pixel_size (s_detected_color_mode g) + 32)
                  / max_pixel_size (s_detected_color_mode g) <? w) = false).
  { apply Z.ltb_ge. apply Z.div_le_lower_bound; lia. }
  rewrite Hchk, Hm.
  match goal with
  | |- ub_bind ?m _ = UB => cut (m = UB); [intros ->; reflexivity |]
  end.
  apply (for_range_UB _ (h - 1)); [lia |]. intros out.
  match goal with
  | |- ub_bind ?m _ = UB => cut (m = UB); [intros ->; reflexivity |]
  end.
  apply (for_range_UB _ (w - 1)); [lia |]. intros line.
  cbv zeta.
  rewrite (pixel_rgb_last_pixel_past_buffer cs img w h c bg_r bg_g bg_b Hv Hw Hh Hc).
  reflexivity.
Qed.

Lemma render_image_narrow_image_reads_past_buffer_witness :
  render_image LP64 Indefinite zeroed_malloc COLOR_MODE_16
    (ready_globals COLOR_MODE_TRUE_COLOR) [7; 8; 9; 10] 2 1 2 0 0 0 = UB.
Proof.
  apply (render_image_narrow_image_reads_past_buffer LP64 Indefinite zeroed_malloc
           COLOR_MODE_16 (ready_globals COLOR_MODE_TRUE_COLOR) [7; 8; 9; 10] 2 1 2 0 0 0
           (replicate 74 0)); try lia.
  - unfold valid_image, INT_MAX. cbn. lia.
  - cbn. lia.
  - reflexivity.
Defined.
